(** * Exact ESOP synthesis: a shallow embedding of
      [src/esop/exact_synthesis.cpp] and the properties of its
      specification.

    Conventions of the embedding.
    - A [std::vector] is a [list]; [push_back] appends at the end.
    - The row counter [minterm._bits] is a [uint32_t]: it is a [Z] taken
      modulo [2^32].  The loop bound [1 << num_vars] is an [int] converted
      to [uint32_t] for the comparison: a [Z] modulo [2^32] as well.
    - Variable identifiers ([sid], the p/q/z numbers) are [int]s of the
      source.  They are computed here as natural numbers; the two agree as
      long as the last value of [sid] fits an [int], and beyond that the
      source increments a signed [int] past its maximum, to which C++
      gives no meaning.  The bound is [identifiers_fit]; the theorems that
      speak of identifiers, or of what a solver makes of them, assume it
      for every [k] they concern.
    - [assert] is taken as active (a build without NDEBUG): a failed
      assertion ends the call.
    - The [dump_cnf] branch writes a file and prints a line; it changes
      neither the constraints nor the result and is left out. *)

From Stdlib Require Import Ascii String.
From Stdlib Require Import ZArith List Bool Lia Arith PeanoNat.
From Stdlib Require Import Permutation FinFun Sorted.
Import ListNotations.

Local Open Scope Z_scope.

(** ** Machine integers *)

Definition wrap32 (x : Z) : Z := x mod 2 ^ 32.
Definition wrap64 (x : Z) : Z := x mod 2 ^ 64.

(** ** kitty::cube *)

Module kitty.

(** Modelled from the spec: [kitty::cube] is the cube data structure of the
    kitty library, which is not part of the sources at hand.  A cube holds
    two 32-bit words: [_mask] tells which variables carry a literal and
    [_bits] gives the polarity of those literals. *)
Record cube := mk_cube { _bits : Z; _mask : Z }.

(** Modelled from the spec: the default constructor, with no literal. *)
Definition empty : cube := mk_cube 0 0.

(** Modelled from the spec: [neg_cube(k)], the minterm with all [k]
    variables negative. *)
Definition neg_cube (k : nat) : cube :=
  mk_cube 0 (wrap32 (Z.shiftl 1 (Z.of_nat k) - 1)).

(** Modelled from the spec: [get_bit] and [get_mask]. *)
Definition get_bit (c : cube) (l : nat) : bool := Z.testbit (_bits c) (Z.of_nat l).
Definition get_mask (c : cube) (l : nat) : bool := Z.testbit (_mask c) (Z.of_nat l).

(** Modelled from the spec: [add_literal(var, polarity)] sets the mask bit
    of [var] and sets or clears its polarity bit. *)
Definition add_literal (c : cube) (l : nat) (polarity : bool) : cube :=
  let m := wrap32 (Z.lor (_mask c) (Z.shiftl 1 (Z.of_nat l))) in
  if polarity
  then mk_cube (wrap32 (Z.lor (_bits c) (Z.shiftl 1 (Z.of_nat l)))) m
  else mk_cube (wrap32 (Z.ldiff (_bits c) (Z.shiftl 1 (Z.of_nat l)))) m.

Definition eqb (a b : cube) : bool :=
  (_bits a =? _bits b) && (_mask a =? _mask b).

End kitty.

(** An ESOP is a sequence of cubes; the result is a sequence of ESOPs. *)
Definition esop_t := list kitty.cube.
Definition esops_t := list esop_t.

(** ** sat::constraints *)

Definition clause_t := list Z.
Definition xor_clause_t := (list Z * bool)%type.

(** Modelled from the spec: [sat::constraints] is declared in a header that
    is not part of the sources at hand.  It is an ordered collection of
    plain clauses (signed literals) and an ordered collection of XOR
    constraints (variables and a target parity) that grows by appending. *)
Record constraints := mk_constraints
  { clauses : list clause_t; xor_clauses : list xor_clause_t }.

Definition no_constraints : constraints := mk_constraints [] [].

(** Modelled from the spec: [add_clause] and [add_xor_clause]. *)
Definition add_clause (c : clause_t) (cs : constraints) : constraints :=
  mk_constraints (clauses cs ++ [c]) (xor_clauses cs).

Definition add_xor_clause (vars : list Z) (value : bool) (cs : constraints)
  : constraints :=
  mk_constraints (clauses cs) (xor_clauses cs ++ [(vars, value)]).

(** ** Solver models *)

(** The solver's answer holds one truth value per variable: variable [v]
    (numbered from 1) is read at position [v - 1].  A position outside
    the model is not [l_True]. *)
Definition model := list bool.

Definition model_true (m : model) (i : nat) : bool := nth i m false.

Definition var_value (m : model) (v : Z) : bool :=
  model_true m (Z.to_nat (v - 1)).

Definition lit_value (m : model) (lit : Z) : bool :=
  if 0 <? lit then var_value m lit else negb (var_value m (- lit)).

Definition clause_sat (m : model) (c : clause_t) : bool :=
  existsb (lit_value m) c.

Definition parity (m : model) (vars : list Z) : bool :=
  fold_right xorb false (map (var_value m) vars).

Definition xor_sat (m : model) (x : xor_clause_t) : bool :=
  Bool.eqb (parity m (fst x)) (snd x).

Definition satisfies (m : model) (cs : constraints) : bool :=
  forallb (clause_sat m) (clauses cs) && forallb (xor_sat m) (xor_clauses cs).

(** ** The function specification *)

Definition char_at (binary : list ascii) (i : Z) : ascii :=
  nth (Z.to_nat i) binary Ascii.zero.

Definition is_zero (c : ascii) : bool := Ascii.eqb c "0"%char.
Definition is_one (c : ascii) : bool := Ascii.eqb c "1"%char.

(** ** Encoder (lines 68--144) *)

(** Identifiers of the candidate variables. *)
Definition p_var (num_vars k j l : nat) : nat := 1 + num_vars * j + l.
Definition q_var (num_vars k j l : nat) : nat :=
  1 + num_vars * k + num_vars * j + l.

Fixpoint set_nth {A} (i : nat) (x : A) (l : list A) : list A :=
  match l, i with
  | [], _ => []
  | _ :: t, O => x :: t
  | h :: t, S i' => h :: set_nth i' x t
  end.

(** What the row loop carries from row to row: the next free identifier
    [sid] (line 68), the number of rows that have been given coverage
    variables (line 69) and the constraints (line 71).  [sid] is an [int]
    in the source and a natural number here: the two agree while
    [identifiers_fit] holds. *)
Record enc_state := mk_enc
  { sid : nat; sample_counter : nat; cons : constraints }.

Section Encoder.

Variable binary : list ascii.
Variable num_vars : nat.
Variable k : nat.

(** Lines 86--91: the [k] fresh coverage variables of a row; [sid++] is
    the successor, as it is in the source while [sid] stays below the
    largest [int]. *)
Definition alloc_z_vars (sid0 : nat) : list Z * nat :=
  fold_left (fun (acc : list Z * nat) j =>
               (set_nth j (Z.of_nat (snd acc)) (fst acc), S (snd acc)))
            (seq 0 k) (repeat 0 k, sid0).

(** Lines 93--117: for every term and variable, the clause saying that a
    term asserted to cover the row has no literal against it. *)
Definition add_positive (bits : Z) (z_vars : list Z) (cs : constraints)
  : constraints :=
  fold_left (fun cs j =>
    let z := nth j z_vars 0 in
    fold_left (fun cs l =>
      if Z.testbit bits (Z.of_nat l)
      then add_clause [ - z; - Z.of_nat (q_var num_vars k j l) ] cs
      else add_clause [ - z; - Z.of_nat (p_var num_vars k j l) ] cs)
      (seq 0 num_vars) cs)
    (seq 0 k) cs.

(** Lines 119--138: for every term, the clause saying that a term with no
    literal against the row covers it. *)
Definition negative_clause (bits : Z) (z : Z) (j : nat) : clause_t :=
  fold_left (fun clause l =>
    if Z.testbit bits (Z.of_nat l)
    then clause ++ [ Z.of_nat (q_var num_vars k j l) ]
    else clause ++ [ Z.of_nat (p_var num_vars k j l) ])
    (seq 0 num_vars) [ z ].

Definition add_negative (bits : Z) (z_vars : list Z) (cs : constraints)
  : constraints :=
  fold_left (fun cs j => add_clause (negative_clause bits (nth j z_vars 0) j) cs)
            (seq 0 k) cs.

(** Lines 79--143: the body of the row loop, the increment of the row
    counter apart. *)
Definition encode_row (bits : Z) (st : enc_state) : enc_state :=
  let sym := char_at binary bits in
  if negb (is_zero sym) && negb (is_one sym) then st
  else
    let (z_vars, sid') := alloc_z_vars (sid st) in
    let cs1 := add_positive bits z_vars (cons st) in
    let cs2 := add_negative bits z_vars cs1 in
    let cs3 := add_xor_clause z_vars (is_one sym) cs2 in
    mk_enc sid' (S (sample_counter st)) cs3.

End Encoder.

(** The bound [1 << num_vars] of line 144, an [int] compared with the
    [uint32_t] row counter, hence converted to [uint32_t]. *)
Definition row_bound (num_vars : nat) : Z :=
  wrap32 (Z.shiftl 1 (Z.of_nat num_vars)).

(** Lines 77--144: the do-while over the rows.  The body runs, the counter
    is incremented (on both paths of the body), then the condition is
    tested.  [fuel] bounds the number of times the loop goes round again;
    [minterm_loop] gives it the value of the bound, which is enough. *)
Fixpoint do_while_rows {S : Type} (fuel : nat) (bound : Z)
  (body : Z -> S -> S) (bits : Z) (s : S) : S :=
  let s' := body bits s in
  let bits' := wrap32 (bits + 1) in
  if bits' <? bound then
    match fuel with
    | O => s'
    | Datatypes.S f => do_while_rows f bound body bits' s'
    end
  else s'.

Definition minterm_loop {S : Type} (num_vars : nat) (body : Z -> S -> S)
  (init : S) : S :=
  do_while_rows (Z.to_nat (row_bound num_vars)) (row_bound num_vars) body
    (kitty._bits (kitty.neg_cube num_vars)) init.

(** The rows the loop visits, in the order of the visits. *)
Definition visited_rows (num_vars : nat) : list Z :=
  minterm_loop num_vars (fun bits log => log ++ [bits]) [].

(** Lines 68--144: the constraint set of one value of [k], with the value
    of [sid] that line 147 hands to the XOR-to-CNF stage. *)
Definition encode (binary : list ascii) (num_vars k : nat) : enc_state :=
  minterm_loop num_vars (encode_row binary num_vars k)
    (mk_enc (1 + 2 * num_vars * k) 0 no_constraints).

(** ** Extraction (lines 176--205) *)

(** Lines 178--197: the cube of term [j] and the flag [cancel_cube]. *)
Definition extract_cube (num_vars k : nat) (m : model) (j : nat)
  : kitty.cube * bool :=
  fold_left (fun (acc : kitty.cube * bool) l =>
    let p_value := model_true m (j * num_vars + l) in
    let q_value := model_true m (num_vars * k + j * num_vars + l) in
    if p_value && q_value then (fst acc, true)
    else if p_value then (kitty.add_literal (fst acc) l true, snd acc)
    else if q_value then (kitty.add_literal (fst acc) l false, snd acc)
    else acc)
    (seq 0 num_vars) (kitty.empty, false).

Definition extract (num_vars k : nat) (m : model) : esop_t :=
  fold_left (fun esop j =>
    let (c, cancel_cube) := extract_cube num_vars k m j in
    if cancel_cube then esop else esop ++ [c])
    (seq 0 k) [].

(** ** Blocking clauses (lines 222--239) *)

(** Lines 225--236: the clause that forbids the p/q pattern of the model
    with the pattern of slot [j] moved to slot [vs[j]]. *)
Definition blocking_clause (num_vars k : nat) (m : model) (vs : list nat)
  : clause_t :=
  fold_left (fun bc j =>
    fold_left (fun bc l =>
      let p_value := model_true m (j * num_vars + l) in
      let q_value := model_true m (num_vars * k + j * num_vars + l) in
      let p := Z.of_nat (1 + nth j vs O * num_vars + l) in
      let q := Z.of_nat (1 + num_vars * k + nth j vs O * num_vars + l) in
      (bc ++ [ if p_value then - p else p ]) ++ [ if q_value then - q else q ])
      (seq 0 num_vars) bc)
    (seq 0 (length vs)) [].

(** Modelled from the spec: [std::next_permutation] belongs to the C++
    standard library.  It finds the longest non-increasing suffix, swaps
    the element before it with the rightmost larger element of the suffix
    and reverses the suffix; when the whole range is non-increasing it
    reverses it and answers [false].  [swap_first_greater x l] works on the
    reversed (non-decreasing) suffix [l]: it takes out the first element
    larger than [x] and puts [x] in its place. *)
Fixpoint swap_first_greater (x : nat) (l : list nat)
  : option (nat * list nat) :=
  match l with
  | [] => None
  | y :: t =>
    if (x <? y)%nat then Some (y, x :: t)
    else match swap_first_greater x t with
         | Some (z, t') => Some (z, y :: t')
         | None => None
         end
  end.

Fixpoint next_permutation (l : list nat) : list nat * bool :=
  match l with
  | [] => ([], false)
  | x :: r =>
    let (r', more) := next_permutation r in
    if more then (x :: r', true)
    else match swap_first_greater x r' with
         | Some (y, r'') => (y :: r'', true)
         | None => (r' ++ [x], false)
         end
  end.

(** Lines 223--239: the do-while over the permutations of [vs].  [fuel]
    bounds the number of times the loop goes round again. *)
Fixpoint do_while_permutations {S : Type} (fuel : nat)
  (body : list nat -> S -> S) (vs : list nat) (s : S) : S :=
  let s' := body vs s in
  let (vs', more) := next_permutation vs in
  if more then
    match fuel with
    | O => s'
    | Datatypes.S f => do_while_permutations f body vs' s'
    end
  else s'.

(** Lines 168--173 and 222--239: [vs] starts as the identity; the loop adds
    one clause for each arrangement of [vs].  The loop goes round at most
    [k!] times. *)
Definition add_blocking_clauses (num_vars k : nat) (m : model)
  (cs : constraints) : constraints :=
  do_while_permutations (fact k)
    (fun vs cs => add_clause (blocking_clause num_vars k m vs) cs)
    (seq 0 k) cs.

(** The arrangements of [vs] the loop goes through, in order. *)
Definition visited_permutations (k : nat) : list (list nat) :=
  do_while_permutations (fact k) (fun vs log => log ++ [vs]) (seq 0 k) [].

(** ** Sorting (line 219) *)

(** Modelled from the spec: [cube_weight_compare] is declared in
    [esop/cube_utils.hpp], which is not part of the sources at hand; the
    weight of a cube is a parameter.  The sort puts cubes of lower weight
    first. *)
Fixpoint insert_cube (weight : kitty.cube -> Z) (c : kitty.cube)
  (l : esop_t) : esop_t :=
  match l with
  | [] => [c]
  | h :: t => if weight c <? weight h then c :: l
              else h :: insert_cube weight c t
  end.

Definition sort_cubes (weight : kitty.cube -> Z) (l : esop_t) : esop_t :=
  fold_right (insert_cube weight) [] l.

(** ** The driver *)

(** Configuration: an absent key is [None]. *)
Record config := mk_config
  { maximum_cubes : option nat;
    dump_cnf : option bool;
    one_esop : option bool }.

Definition default_config : config := mk_config None None None.

(** What one can observe of a call besides its result. *)
Inductive event :=
| Ev_encode (k : nat)   (* the constraint set of [k] has been built *)
| Ev_solve (k : nat).   (* the solver has been called *)

(** How the solve loop of one [k] ends. *)
Inductive loop_result :=
| Return (es : esops_t)      (* a [return] inside the loop *)
| Exhausted (es : esops_t)   (* the solver reports unsatisfiable *)
| OutOfFuel.

Inductive outcome :=
| AssertFailed (msg : string)
| Returned (es : esops_t)
| NoAnswer.

Section Driver.

(** The collaborators whose code is not part of the sources at hand: the
    three preprocessing stages, the solver and the weight of a cube. *)
Variable gauss_elimination : constraints -> constraints.
Variable xor_clauses_to_cnf : nat -> constraints -> constraints.
Variable cnf_symmetry_breaking : constraints -> constraints.
Variable solve : constraints -> option model.
Variable cube_weight : nat -> kitty.cube -> Z.

(** Lines 146--148. *)
Definition preprocess (sid : nat) (cs : constraints) : constraints :=
  cnf_symmetry_breaking (xor_clauses_to_cnf sid (gauss_elimination cs)).

Section OneCall.

Variable binary : list ascii.
Variable num_vars : nat.
Variable one : bool.

(** Lines 162--240: the solve loop of one [k].  [fuel] bounds the number
    of calls of the solver. *)
Fixpoint solve_loop (fuel : nat) (k : nat) (cs : constraints)
  (esops : esops_t) : loop_result * list event :=
  match fuel with
  | O => (OutOfFuel, [])
  | Datatypes.S f =>
    match solve cs with
    | None => (Exhausted esops, [Ev_solve k])
    | Some m =>
      let esop := extract num_vars k m in
      match esop with
      | [] => (Return [esop], [Ev_solve k])
      | _ :: _ =>
        if one then (Return [esop], [Ev_solve k])
        else
          let esop' := sort_cubes (cube_weight num_vars) esop in
          let esops' := esops ++ [esop'] in
          let cs' := add_blocking_clauses num_vars k m cs in
          let (r, log) := solve_loop f k cs' esops' in
          (r, Ev_solve k :: log)
      end
    end
  end.

(** Lines 66--240: the attempt for one [k]. *)
Definition attempt (fuel : nat) (k : nat) (esops : esops_t)
  : loop_result * list event :=
  let st := encode binary num_vars k in
  let cs := preprocess (sid st) (cons st) in
  let (r, log) := solve_loop fuel k cs esops in
  (r, Ev_encode k :: log).

(** Lines 65--248: the loop over [k]; [remaining] counts the values of
    [k] still to try. *)
Fixpoint k_loop (fuel : nat) (remaining : nat) (k : nat) (esops : esops_t)
  : outcome * list event :=
  match remaining with
  | O => (Returned esops, [])
  | Datatypes.S r =>
    let (res, log) := attempt fuel k esops in
    match res with
    | Return es => (Returned es, log)
    | OutOfFuel => (NoAnswer, log)
    | Exhausted es =>
      if (0 <? length es)%nat then (Returned es, log)
      else let (o, log') := k_loop fuel r (Datatypes.S k) es in
           (o, log ++ log')
    end
  end.

End OneCall.

(** Lines 54--249. *)
Definition exact_synthesis_from_binary_string_log (fuel : nat)
  (binary : list ascii) (cfg : config) : outcome * list event :=
  let max_number_of_cubes :=
    match maximum_cubes cfg with Some c => c | None => 10%nat end in
  let one := match one_esop cfg with Some b => b | None => true end in
  let num_vars := Nat.log2 (length binary) in
  if negb (Z.of_nat (length binary) =? wrap64 (Z.shiftl 1 (Z.of_nat num_vars)))
  then (AssertFailed "bit-width is not a power of 2", [])
  else if negb (num_vars <=? 32)%nat
  then (AssertFailed "cube data structure cannot store more than 32 variables", [])
  else k_loop binary num_vars one fuel max_number_of_cubes 1 [].

Definition exact_synthesis_from_binary_string (fuel : nat)
  (binary : list ascii) (cfg : config) : outcome :=
  fst (exact_synthesis_from_binary_string_log fuel binary cfg).

End Driver.

(** ** A reference solver and trivial preprocessing stages

    They stand for the collaborators when a property is run on a concrete
    table: the stages leave the constraints as they are and the solver
    tries every assignment of the variables that occur. *)

Fixpoint all_models (n : nat) : list model :=
  match n with
  | O => [[]]
  | S n' => flat_map (fun m => [false :: m; true :: m]) (all_models n')
  end.

Definition max_var (cs : constraints) : nat :=
  fold_right Nat.max 1%nat
    (map (fun l => Z.to_nat (Z.abs l))
         (concat (clauses cs) ++ concat (map fst (xor_clauses cs)))).

Definition search_solve (cs : constraints) : option model :=
  find (fun m => satisfies m cs) (all_models (max_var cs)).

Definition keep (cs : constraints) : constraints := cs.
Definition keep_from (sid : nat) (cs : constraints) : constraints := cs.

(** A weight for the runs: the polarity word, then the mask. *)
Definition bits_weight (num_vars : nat) (c : kitty.cube) : Z :=
  kitty._bits c * 2 ^ 32 + kitty._mask c.

Definition tt_of (s : string) : list ascii := list_ascii_of_string s.

(** * Properties *)

(** ** Lists and loops *)

Lemma fold_left_push_flat_map {A B} (f : B -> list A) (l : list B) (acc : list A) :
  fold_left (fun acc x => acc ++ f x) l acc = acc ++ flat_map f l.
Proof.
  revert acc; induction l as [|x l IH]; intro acc; simpl.
  - now rewrite app_nil_r.
  - rewrite IH. now rewrite app_assoc.
Qed.

Lemma fold_left_ext {A B} (f g : A -> B -> A) (l : list B) (a : A) :
  (forall a x, In x l -> f a x = g a x) -> fold_left f l a = fold_left g l a.
Proof.
  revert a; induction l as [|x l IH]; intros a H; simpl; [reflexivity|].
  rewrite H by (now left). apply IH. intros; apply H; now right.
Qed.

Lemma wrap32_small x : 0 <= x < 2 ^ 32 -> wrap32 x = x.
Proof. intro H. unfold wrap32. now apply Z.mod_small. Qed.

Lemma shiftl_1 (n : nat) : Z.shiftl 1 (Z.of_nat n) = 2 ^ Z.of_nat n.
Proof. rewrite Z.shiftl_mul_pow2 by lia. lia. Qed.

(** The rows of a table over [num_vars] variables, in increasing order. *)
Definition rows (num_vars : nat) : list Z :=
  map Z.of_nat (seq 0 (2 ^ num_vars)).

Lemma do_while_rows_run {S : Type} (body : Z -> S -> S) (bound : Z) :
  bound < 2 ^ 32 ->
  forall (cnt fuel : nat) (b : Z) (s : S),
    0 <= b -> b + Z.of_nat cnt + 1 = bound -> (cnt <= fuel)%nat ->
    do_while_rows fuel bound body b s
    = fold_left (fun s i => body i s)
        (map (fun i => b + Z.of_nat i) (seq 0 (Datatypes.S cnt))) s.
Proof.
  intros Hb cnt; induction cnt as [|c IH]; intros fuel b s Hb0 Hsum Hfuel.
  - assert (E : do_while_rows fuel bound body b s = body b s).
    { destruct fuel; cbn [do_while_rows]; rewrite wrap32_small by lia;
        replace (b + 1 <? bound) with false by (symmetry; apply Z.ltb_ge; lia);
        reflexivity. }
    rewrite E. cbn [seq map fold_left]. now rewrite Z.add_0_r.
  - destruct fuel as [|f]; [lia|].
    cbn [do_while_rows]. rewrite wrap32_small by lia.
    replace (b + 1 <? bound) with true by (symmetry; apply Z.ltb_lt; lia).
    rewrite (IH f (b + 1) (body b s)) by lia.
    change (seq 0 (Datatypes.S (Datatypes.S c)))
      with (0%nat :: seq 1 (Datatypes.S c)).
    cbn [map fold_left]. rewrite Z.add_0_r.
    f_equal. rewrite <- seq_shift, map_map.
    apply map_ext; intro i; lia.
Qed.

Lemma row_bound_small (num_vars : nat) :
  (num_vars <= 31)%nat -> row_bound num_vars = 2 ^ Z.of_nat num_vars.
Proof.
  intro H. unfold row_bound. rewrite shiftl_1. apply wrap32_small.
  split; [lia|]. apply Z.pow_lt_mono_r; lia.
Qed.

(** Up to 31 variables the loop goes through all the rows, once each and
    in increasing order. *)
Lemma minterm_loop_rows {S : Type} (num_vars : nat) (body : Z -> S -> S) (init : S) :
  (num_vars <= 31)%nat ->
  minterm_loop num_vars body init
  = fold_left (fun s i => body i s) (rows num_vars) init.
Proof.
  intro H. unfold minterm_loop, rows. cbn [kitty.neg_cube kitty._bits].
  rewrite row_bound_small by assumption.
  assert (Hpos : 0 < 2 ^ Z.of_nat num_vars) by (apply Z.pow_pos_nonneg; lia).
  assert (Hlt : 2 ^ Z.of_nat num_vars < 2 ^ 32) by (apply Z.pow_lt_mono_r; lia).
  assert (Hnat : Z.of_nat (2 ^ num_vars) = 2 ^ Z.of_nat num_vars)
    by (rewrite Nat2Z.inj_pow; reflexivity).
  rewrite (do_while_rows_run body _ Hlt (Nat.pred (2 ^ num_vars))); try lia.
  replace (Datatypes.S (Nat.pred (2 ^ num_vars))) with (2 ^ num_vars)%nat by lia.
  f_equal.
Qed.

Lemma visited_rows_small (num_vars : nat) :
  (num_vars <= 31)%nat -> visited_rows num_vars = rows num_vars.
Proof.
  intro H. unfold visited_rows. rewrite minterm_loop_rows by assumption.
  rewrite (fold_left_push_flat_map (fun i => [i])).
  simpl. induction (rows num_vars); simpl; congruence.
Qed.

Lemma length_rows (num_vars : nat) : length (rows num_vars) = (2 ^ num_vars)%nat.
Proof. unfold rows. now rewrite length_map, length_seq. Qed.

(** C9, at 32 variables: the bound [1 << 32] does not fit the 32 bits of
    an [int], the comparison of line 144 fails after the first row, and
    the body of the loop runs for row 0 alone, whatever it does.  The
    table has [2^32] rows. *)
Theorem minterm_loop_32_stops_after_row_0 :
  (forall (S : Type) (body : Z -> S -> S) (init : S),
      minterm_loop 32 body init = body 0 init)
  /\ visited_rows 32 = [0]
  /\ length (visited_rows 32) <> length (rows 32).
Proof.
  split; [|split].
  - intros S body init. reflexivity.
  - reflexivity.
  - rewrite length_rows. change (length (visited_rows 32)) with (2 ^ 0)%nat.
    intro E. apply Nat.pow_inj_r in E; lia.
Qed.

(** ** The encoder, row by row *)

Lemma fold_left_add_clause {B} (f : B -> clause_t) (l : list B) (cs : constraints) :
  fold_left (fun cs x => add_clause (f x) cs) l cs
  = mk_constraints (clauses cs ++ map f l) (xor_clauses cs).
Proof.
  revert cs; induction l as [|x l IH]; intro cs; simpl.
  - rewrite app_nil_r. now destruct cs.
  - rewrite IH. simpl. now rewrite <- app_assoc.
Qed.

Lemma fold_left_add_clauses {B} (f : B -> list clause_t) (l : list B) (cs : constraints) :
  fold_left (fun cs x => mk_constraints (clauses cs ++ f x) (xor_clauses cs)) l cs
  = mk_constraints (clauses cs ++ flat_map f l) (xor_clauses cs).
Proof.
  revert cs; induction l as [|x l IH]; intro cs; simpl.
  - rewrite app_nil_r. now destruct cs.
  - rewrite IH. simpl. now rewrite <- app_assoc.
Qed.

Lemma set_nth_middle {A} (l1 l2 : list A) (x y : A) (i : nat) :
  length l1 = i -> set_nth i x (l1 ++ y :: l2) = l1 ++ x :: l2.
Proof. intros <-. induction l1; simpl; congruence. Qed.

Section EncoderSpec.

Variable binary : list ascii.
Variable num_vars : nat.
Variable k : nat.

(** The coverage variable of term [j] for the row that is the [s]-th to
    carry a value: the identifier asserted at line 89, which the source
    computes in 32 bits. *)
Definition z_var (s j : nat) : nat := 1 + 2 * num_vars * k + s * k + j.

Definition z_vars_of (s : nat) : list Z :=
  map (fun j => Z.of_nat (z_var s j)) (seq 0 k).

Definition has_value (bits : Z) : bool :=
  is_zero (char_at binary bits) || is_one (char_at binary bits).

(** The clauses of a row in the order the source adds them. *)
Definition unit_implication (bits : Z) (s j l : nat) : clause_t :=
  if Z.testbit bits (Z.of_nat l)
  then [ - Z.of_nat (z_var s j); - Z.of_nat (q_var num_vars k j l) ]
  else [ - Z.of_nat (z_var s j); - Z.of_nat (p_var num_vars k j l) ].

Definition converse_clause (bits : Z) (s j : nat) : clause_t :=
  Z.of_nat (z_var s j)
  :: map (fun l => if Z.testbit bits (Z.of_nat l)
                   then Z.of_nat (q_var num_vars k j l)
                   else Z.of_nat (p_var num_vars k j l)) (seq 0 num_vars).

Definition row_clauses (s : nat) (bits : Z) : list clause_t :=
  flat_map (fun j => map (unit_implication bits s j) (seq 0 num_vars)) (seq 0 k)
  ++ map (converse_clause bits s) (seq 0 k).

Definition row_xor (s : nat) (bits : Z) : xor_clause_t :=
  (z_vars_of s, is_one (char_at binary bits)).

Lemma alloc_z_vars_eq (s : nat) :
  alloc_z_vars k (z_var s 0) = (z_vars_of s, z_var (S s) 0).
Proof.
  unfold alloc_z_vars, z_vars_of.
  assert (H : forall i, (i <= k)%nat ->
    fold_left (fun (acc : list Z * nat) j =>
                 (set_nth j (Z.of_nat (snd acc)) (fst acc), S (snd acc)))
      (seq 0 i) (repeat 0 k, z_var s 0)
    = (map (fun j => Z.of_nat (z_var s j)) (seq 0 i) ++ repeat 0 (k - i),
       (z_var s 0 + i)%nat)).
  { induction i as [|i IH]; intro Hi.
    - cbn [seq fold_left map app]. now rewrite Nat.sub_0_r, Nat.add_0_r.
    - rewrite seq_S, fold_left_app, IH by lia. cbn [fold_left fst snd Nat.add].
      f_equal; [|lia].
      replace (k - i)%nat with (S (k - S i)) by lia. cbn [repeat].
      rewrite map_app. cbn [map]. rewrite <- app_assoc. cbn [app].
      replace (z_var s i) with (z_var s 0 + i)%nat by (unfold z_var; lia).
      apply set_nth_middle. now rewrite length_map, length_seq. }
  rewrite (H k) by lia. rewrite Nat.sub_diag, app_nil_r. f_equal.
  unfold z_var; lia.
Qed.

Lemma nth_z_vars_of (s j : nat) :
  (j < k)%nat -> nth j (z_vars_of s) 0 = Z.of_nat (z_var s j).
Proof.
  intro H. unfold z_vars_of.
  rewrite (nth_indep _ 0 (Z.of_nat (z_var s 0)))
    by (now rewrite length_map, length_seq).
  rewrite (map_nth (fun j => Z.of_nat (z_var s j))), seq_nth by assumption.
  reflexivity.
Qed.

Lemma add_positive_eq (bits : Z) (s : nat) (cs : constraints) :
  add_positive num_vars k bits (z_vars_of s) cs
  = mk_constraints
      (clauses cs ++ flat_map (fun j => map (unit_implication bits s j) (seq 0 num_vars)) (seq 0 k))
      (xor_clauses cs).
Proof.
  unfold add_positive. rewrite <- fold_left_add_clauses.
  apply fold_left_ext. intros a j Hj. apply in_seq in Hj.
  rewrite nth_z_vars_of by lia.
  rewrite <- fold_left_add_clause. apply fold_left_ext.
  intros a' l _. unfold unit_implication.
  now destruct (Z.testbit bits (Z.of_nat l)).
Qed.

Lemma negative_clause_eq (bits : Z) (s j : nat) :
  negative_clause num_vars k bits (Z.of_nat (z_var s j)) j = converse_clause bits s j.
Proof.
  unfold negative_clause, converse_clause.
  rewrite (fold_left_ext _ (fun acc l => acc ++
             [if Z.testbit bits (Z.of_nat l)
              then Z.of_nat (q_var num_vars k j l)
              else Z.of_nat (p_var num_vars k j l)])).
  - rewrite fold_left_push_flat_map. cbn [app]. f_equal.
  - intros a l Hin. destruct (Z.testbit bits (Z.of_nat l)); reflexivity.
Qed.

Lemma add_negative_eq (bits : Z) (s : nat) (cs : constraints) :
  add_negative num_vars k bits (z_vars_of s) cs
  = mk_constraints (clauses cs ++ map (converse_clause bits s) (seq 0 k))
      (xor_clauses cs).
Proof.
  unfold add_negative. rewrite <- fold_left_add_clause.
  apply fold_left_ext. intros a j Hj. apply in_seq in Hj.
  rewrite nth_z_vars_of by lia. now rewrite negative_clause_eq.
Qed.

(** One turn of the row loop on a state that satisfies the assertion of
    line 89. *)
Lemma encode_row_eq (bits : Z) (s : nat) (cs : constraints) :
  encode_row binary num_vars k bits (mk_enc (z_var s 0) s cs)
  = if has_value bits
    then mk_enc (z_var (S s) 0) (S s)
           (mk_constraints (clauses cs ++ row_clauses s bits)
                           (xor_clauses cs ++ [row_xor s bits]))
    else mk_enc (z_var s 0) s cs.
Proof.
  unfold encode_row, has_value. cbn [sid sample_counter cons].
  destruct (is_zero (char_at binary bits)) eqn:E0;
    destruct (is_one (char_at binary bits)) eqn:E1; cbn [negb andb orb];
    try reflexivity;
    rewrite alloc_z_vars_eq, add_positive_eq, add_negative_eq;
    unfold add_xor_clause, row_clauses, row_xor; cbn [clauses xor_clauses];
    rewrite <- app_assoc, ?E1; reflexivity.
Qed.

(** The rows that carry a value, numbered from [s] in the order of the
    visits. *)
Definition numbered (s : nat) (visited : list Z) : list (nat * Z) :=
  let valued := filter has_value visited in
  combine (seq s (length valued)) valued.

Lemma encode_rows_eq (visited : list Z) :
  forall (s : nat) (cs : constraints),
    fold_left (fun st bits => encode_row binary num_vars k bits st) visited
      (mk_enc (z_var s 0) s cs)
    = let s' := (s + length (filter has_value visited))%nat in
      mk_enc (z_var s' 0) s'
        (mk_constraints
           (clauses cs ++ flat_map (fun sb => row_clauses (fst sb) (snd sb))
                                   (numbered s visited))
           (xor_clauses cs ++ map (fun sb => row_xor (fst sb) (snd sb))
                                  (numbered s visited))).
Proof.
  unfold numbered.
  induction visited as [|bits visited IH]; intros s cs; cbn [fold_left filter].
  - cbn [length seq combine flat_map map]. rewrite Nat.add_0_r, !app_nil_r. now destruct cs.
  - rewrite encode_row_eq. destruct (has_value bits); rewrite IH; cbn zeta.
    + cbn [length seq combine flat_map map fst snd clauses xor_clauses].
      rewrite <- !app_assoc. cbn [app].
      replace (S s + length (filter has_value visited))%nat
        with (s + S (length (filter has_value visited)))%nat by lia.
      reflexivity.
    + reflexivity.
Qed.

End EncoderSpec.

(** The row loop is a fold of its body over the rows it visits. *)
Lemma do_while_rows_log (bound : Z) (fuel : nat) :
  forall (b : Z) (acc : list Z),
    do_while_rows fuel bound (fun i log => log ++ [i]) b acc
    = acc ++ do_while_rows fuel bound (fun i log => log ++ [i]) b [].
Proof.
  induction fuel as [|f IH]; intros b acc; cbn [do_while_rows];
    destruct (wrap32 (b + 1) <? bound); try reflexivity.
  rewrite IH, (IH _ ([] ++ [b])). now rewrite app_assoc.
Qed.

Lemma do_while_rows_fold {S : Type} (body : Z -> S -> S) (bound : Z) (fuel : nat) :
  forall (b : Z) (s : S),
    do_while_rows fuel bound body b s
    = fold_left (fun s i => body i s)
        (do_while_rows fuel bound (fun i log => log ++ [i]) b []) s.
Proof.
  induction fuel as [|f IH]; intros b s; cbn [do_while_rows];
    destruct (wrap32 (b + 1) <? bound); try reflexivity.
  rewrite do_while_rows_log, fold_left_app. cbn [app fold_left]. apply IH.
Qed.

Lemma minterm_loop_fold {S : Type} (num_vars : nat) (body : Z -> S -> S) (init : S) :
  minterm_loop num_vars body init
  = fold_left (fun s i => body i s) (visited_rows num_vars) init.
Proof. apply do_while_rows_fold. Qed.

(** The constraint set of [k], in the order the source builds it. *)
Lemma encode_eq (binary : list ascii) (num_vars k : nat) :
  let valued := numbered binary 0 (visited_rows num_vars) in
  encode binary num_vars k
  = mk_enc (z_var num_vars k (length valued) 0) (length valued)
      (mk_constraints
         (flat_map (fun sb => row_clauses num_vars k (fst sb) (snd sb)) valued)
         (map (fun sb => row_xor binary num_vars k (fst sb) (snd sb)) valued)).
Proof.
  cbn zeta. unfold encode. rewrite minterm_loop_fold.
  replace (1 + 2 * num_vars * k)%nat with (z_var num_vars k 0 0)
    by (unfold z_var; lia).
  rewrite encode_rows_eq. cbn [clauses xor_clauses no_constraints app Nat.add].
  unfold numbered. rewrite length_combine, length_seq, Nat.min_id. reflexivity.
Qed.

(** *** Identifiers as [int]s *)

(** The largest value of an [int]. *)
Definition int_max : Z := 2 ^ 31 - 1.

(** The rows for which the row loop allocates coverage variables. *)
Definition valued_rows (binary : list ascii) (num_vars : nat) : nat :=
  length (filter (has_value binary) (visited_rows num_vars)).

(** [sid] starts at [1 + 2 * num_vars * k] (line 68) and is incremented
    [k] times for every row that carries a value (line 90).  When its
    last value is at most [int_max], no identifier of the constraint set
    of [k] leaves the range of an [int] and no increment overflows. *)
Definition identifiers_fit (binary : list ascii) (num_vars k : nat) : Prop :=
  Z.of_nat (1 + 2 * num_vars * k + valued_rows binary num_vars * k) <= int_max.

Lemma sid_encode_last (binary : list ascii) (num_vars k : nat) :
  sid (encode binary num_vars k)
  = (1 + 2 * num_vars * k + valued_rows binary num_vars * k)%nat.
Proof.
  rewrite encode_eq. cbn [sid]. unfold numbered, valued_rows.
  rewrite length_combine, length_seq, Nat.min_id. unfold z_var. lia.
Qed.

Lemma identifiers_fit_sid (binary : list ascii) (num_vars k : nat) :
  identifiers_fit binary num_vars k
  <-> Z.of_nat (sid (encode binary num_vars k)) <= int_max.
Proof. unfold identifiers_fit. now rewrite sid_encode_last. Qed.

(** The bound as a test, for the runs on concrete tables. *)
Definition identifiers_fitb (binary : list ascii) (num_vars k : nat) : bool :=
  Z.of_nat (1 + 2 * num_vars * k + valued_rows binary num_vars * k) <=? int_max.

Lemma identifiers_fitb_spec (binary : list ascii) (num_vars k : nat) :
  identifiers_fitb binary num_vars k = true -> identifiers_fit binary num_vars k.
Proof. intro H. apply Z.leb_le. exact H. Qed.

(** The bound for every [k] a call has built a constraint set for. *)
Lemma encodings_fit (binary : list ascii) (num_vars : nat) (log : list event) :
  forallb (fun ev => match ev with
                     | Ev_encode k => identifiers_fitb binary num_vars k
                     | Ev_solve _ => true
                     end) log = true ->
  forall k, In (Ev_encode k) log -> identifiers_fit binary num_vars k.
Proof.
  intros H k Hin. rewrite forallb_forall in H.
  apply identifiers_fitb_spec. exact (H _ Hin).
Qed.

(** A smaller [k] needs fewer identifiers. *)
Lemma identifiers_fit_le (binary : list ascii) (num_vars k k' : nat) :
  (k' <= k)%nat -> identifiers_fit binary num_vars k ->
  identifiers_fit binary num_vars k'.
Proof. unfold identifiers_fit. intros H. nia. Qed.

(** *** The constraints in the words of the specification *)

Section SpecWords.

Variable binary : list ascii.
Variable num_vars : nat.
Variable k : nat.

(** The row whose index is [bits] is the [s]-th row with symbol '0' or
    '1'; [z j] is its coverage variable for term [j]. *)
Variable bits : Z.
Variable s : nat.

Let z (j : nat) : Z := Z.of_nat (z_var num_vars k s j).
Let p (j l : nat) : Z := Z.of_nat (p_var num_vars k j l).
Let q (j l : nat) : Z := Z.of_nat (q_var num_vars k j l).
Let row_bit (l : nat) : bool := Z.testbit bits (Z.of_nat l).

(** "for each variable l, if the row's bit is 1, clause {-z(j), -q(j,l)};
    if 0, clause {-z(j), -p(j,l)}" *)
Definition spec_unit_implications : list clause_t :=
  flat_map (fun j =>
    map (fun l => if row_bit l then [ - z j; - q j l ] else [ - z j; - p j l ])
        (seq 0 num_vars))
    (seq 0 k).

(** "{z(j)} U {q(j,l) : row bit l is 1} U {p(j,l) : row bit l is 0}" *)
Definition spec_converse (j : nat) : clause_t :=
  [ z j ]
  ++ map (q j) (filter row_bit (seq 0 num_vars))
  ++ map (p j) (filter (fun l => negb (row_bit l)) (seq 0 num_vars)).

(** "one XOR constraint over {z(0),...,z(k-1)} with target parity equal
    to the row's bit" *)
Definition spec_xor : xor_clause_t :=
  (map z (seq 0 k), is_one (char_at binary bits)).

Definition spec_row_clauses : list clause_t :=
  spec_unit_implications ++ map spec_converse (seq 0 k).

Lemma converse_clause_same_literals (j : nat) :
  Permutation (converse_clause num_vars k bits s j) (spec_converse j).
Proof.
  unfold converse_clause, spec_converse. cbn [app]. apply perm_skip.
  induction (seq 0 num_vars) as [|l ls IH]; cbn [map filter]; [constructor|].
  change (Z.testbit bits (Z.of_nat l)) with (row_bit l).
  destruct (row_bit l); cbn [negb map app].
  - now apply perm_skip.
  - now apply Permutation_cons_app.
Qed.

Lemma row_clauses_same_literals :
  Forall2 (@Permutation Z) (row_clauses num_vars k s bits) spec_row_clauses.
Proof.
  unfold row_clauses, spec_row_clauses. apply Forall2_app.
  - unfold spec_unit_implications, unit_implication.
    induction (flat_map _ (seq 0 k)) as [|c cs IH]; constructor;
      [apply Permutation_refl | exact IH].
  - induction (seq 0 k) as [|j js IH]; cbn [map]; constructor;
      [apply converse_clause_same_literals | exact IH].
Qed.

End SpecWords.

(** C3, at 32 variables: the constraint set of [k] is the one the body of
    the row loop builds for row 0 alone, whatever the table holds (the
    comparison of line 144 fails after the first row).  For a table that
    starts with '1' and '1', row 1 is a row of the table with symbol '1',
    and yet the set holds the clauses of row 0 and no other clause, one
    XOR constraint, that of row 0, and [sid] has advanced by the [k]
    coverage variables of one row. *)
Theorem encoder_at_32_variables_encodes_row_0_only (rest : list ascii) (k : nat) :
  let binary := "1"%char :: "1"%char :: rest in
  let cs := cons (encode binary 32 k) in
  (forall table : list ascii,
      encode table 32 k
      = encode_row table 32 k 0 (mk_enc (1 + 2 * 32 * k) 0 no_constraints))
  /\ In 1 (rows 32)
  /\ is_one (char_at binary 1) = true
  /\ Forall2 (@Permutation Z) (clauses cs) (spec_row_clauses 32 k 0 0)
  /\ xor_clauses cs = [spec_xor binary 32 k 0 0]
  /\ sid (encode binary 32 k) = (1 + 2 * 32 * k + k)%nat.
Proof.
  cbn zeta. split; [|split; [|split; [|split; [|split]]]].
  - intro table. reflexivity.
  - unfold rows. apply in_map_iff. exists 1%nat. split; [reflexivity|].
    apply in_seq. split; [lia|]. apply Nat.pow_gt_1; lia.
  - reflexivity.
  - rewrite encode_eq. change (visited_rows 32) with [0].
    cbn [cons clauses numbered filter has_value char_at Z.to_nat nth is_zero
         is_one Ascii.eqb Bool.eqb orb andb length seq combine flat_map fst snd].
    rewrite app_nil_r. apply row_clauses_same_literals.
  - rewrite encode_eq. change (visited_rows 32) with [0]. reflexivity.
  - rewrite encode_eq. change (visited_rows 32) with [0].
    cbn [sid numbered filter has_value char_at Z.to_nat nth is_zero
         is_one Ascii.eqb Bool.eqb orb andb length seq combine].
    unfold z_var. lia.
Qed.

Lemma nth_in_combine_seq {A} (l : list A) (d : A) :
  forall s i, (i < length l)%nat ->
    In ((s + i)%nat, nth i l d) (combine (seq s (length l)) l).
Proof.
  induction l as [|x l IH]; intros s i Hi; cbn [length] in *; [lia|].
  cbn [seq combine]. destruct i as [|i].
  - left. now rewrite Nat.add_0_r.
  - right. replace (s + S i)%nat with (S s + i)%nat by lia.
    apply IH. lia.
Qed.

(** Up to 31 variables, and as long as the identifiers fit an [int], the
    constraint set of [k] holds, for the rows of the table with symbol
    '0' or '1' in increasing order and for no other row, the unit
    implications of every term and variable, the converse clause of every
    term (a clause being a set of literals) and one XOR constraint over
    the coverage variables of the row whose parity is true exactly for
    the symbol '1'; [sid] ends after the coverage variables of these
    rows, within the range of an [int]. *)
Theorem encoder_constraints_for_every_table_row
  (binary : list ascii) (num_vars k : nat) :
  (num_vars <= 31)%nat ->
  identifiers_fit binary num_vars k ->
  let valued :=
    combine (seq 0 (length (filter (has_value binary) (rows num_vars))))
            (filter (has_value binary) (rows num_vars)) in
  let cs := cons (encode binary num_vars k) in
  Forall2 (@Permutation Z) (clauses cs)
    (flat_map (fun sb => spec_row_clauses num_vars k (snd sb) (fst sb)) valued)
  /\ xor_clauses cs
     = map (fun sb => spec_xor binary num_vars k (snd sb) (fst sb)) valued
  /\ (forall s bits, In (s, bits) valued ->
        In bits (rows num_vars)
        /\ (is_zero (char_at binary bits) = true
            \/ is_one (char_at binary bits) = true))
  /\ (forall bits, In bits (rows num_vars) ->
        is_zero (char_at binary bits) = true \/ is_one (char_at binary bits) = true ->
        exists s, In (s, bits) valued)
  /\ sid (encode binary num_vars k)
     = (1 + 2 * num_vars * k + length valued * k)%nat
  /\ Z.of_nat (sid (encode binary num_vars k)) <= int_max.
Proof.
  intros Hn Hfit. cbn zeta.
  split; [|split; [|split; [|split; [|split]]]].
  - rewrite encode_eq, visited_rows_small by assumption.
    cbn [cons clauses]. fold (numbered binary 0 (rows num_vars)).
    induction (numbered binary 0 (rows num_vars)) as [|[s bits] l IH];
      cbn [flat_map fst snd]; [constructor|].
    apply Forall2_app; [apply row_clauses_same_literals | exact IH].
  - rewrite encode_eq, visited_rows_small by assumption. reflexivity.
  - intros s bits H. apply in_combine_r, filter_In in H.
    split; [exact (proj1 H) | apply orb_prop; exact (proj2 H)].
  - intros bits Hin Hv.
    assert (Hf : In bits (filter (has_value binary) (rows num_vars))).
    { apply filter_In. split; [exact Hin|]. unfold has_value.
      destruct Hv as [-> | ->]; [reflexivity | apply orb_true_r]. }
    destruct (In_nth _ _ 0 Hf) as [i [Hi Ei]].
    exists i. rewrite <- Ei. exact (nth_in_combine_seq _ 0 0%nat i Hi).
  - rewrite sid_encode_last. unfold valued_rows.
    rewrite visited_rows_small by assumption.
    now rewrite length_combine, length_seq, Nat.min_id.
  - now apply identifiers_fit_sid.
Qed.

Lemma encoder_constraints_for_every_table_row_witness :
  (2 <= 31)%nat /\ identifiers_fit (tt_of "01-1") 2 2
  /\ sid (encode (tt_of "01-1") 2 2) = 15%nat.
Proof.
  assert (Hfit : identifiers_fit (tt_of "01-1") 2 2)
    by (apply identifiers_fitb_spec; vm_compute; reflexivity).
  split; [lia|]. split; [exact Hfit|].
  exact (proj1 (proj2 (proj2 (proj2 (proj2
           (encoder_constraints_for_every_table_row (tt_of "01-1") 2 2
              ltac:(lia) Hfit)))))).
Defined.

(** ** Extraction *)

(** The state of a variable in a cube. *)
Inductive literal := Positive | Negative | DontCare.

Definition cube_literal (c : kitty.cube) (l : nat) : literal :=
  if kitty.get_mask c l
  then (if kitty.get_bit c l then Positive else Negative)
  else DontCare.

(** The values of p(j,l) and q(j,l) in a model. *)
Definition p_of (num_vars k : nat) (m : model) (j l : nat) : bool :=
  var_value m (Z.of_nat (p_var num_vars k j l)).
Definition q_of (num_vars k : nat) (m : model) (j l : nat) : bool :=
  var_value m (Z.of_nat (q_var num_vars k j l)).

(** A term is void when p and q are both true for one of its variables. *)
Definition void (num_vars k : nat) (m : model) (j : nat) : bool :=
  existsb (fun l => p_of num_vars k m j l && q_of num_vars k m j l) (seq 0 num_vars).

Lemma var_value_of_nat (m : model) (v : nat) :
  var_value m (Z.of_nat (S v)) = model_true m v.
Proof. unfold var_value. f_equal. lia. Qed.

Lemma model_true_p (num_vars k : nat) (m : model) (j l : nat) :
  model_true m (j * num_vars + l) = p_of num_vars k m j l.
Proof.
  unfold p_of, p_var. cbn [Nat.add]. rewrite var_value_of_nat. f_equal. lia.
Qed.

Lemma model_true_q (num_vars k : nat) (m : model) (j l : nat) :
  model_true m (num_vars * k + j * num_vars + l) = q_of num_vars k m j l.
Proof.
  unfold q_of, q_var. cbn [Nat.add]. rewrite var_value_of_nat. f_equal. lia.
Qed.

Lemma testbit_shiftl_1 (l x : nat) :
  Z.testbit (Z.shiftl 1 (Z.of_nat l)) (Z.of_nat x) = (l =? x)%nat.
Proof.
  rewrite shiftl_1, Z.pow2_bits_eqb by lia.
  destruct (Nat.eqb_spec l x) as [->|N]; [apply Z.eqb_refl|].
  apply Z.eqb_neq. lia.
Qed.

Lemma testbit_wrap32 (a : Z) (x : nat) :
  (x < 32)%nat -> Z.testbit (wrap32 a) (Z.of_nat x) = Z.testbit a (Z.of_nat x).
Proof. intro H. unfold wrap32. apply Z.mod_pow2_bits_low. lia. Qed.

Lemma get_mask_add_literal (c : kitty.cube) (l x : nat) (pol : bool) :
  (x < 32)%nat ->
  kitty.get_mask (kitty.add_literal c l pol) x = kitty.get_mask c x || (l =? x)%nat.
Proof.
  intro H. unfold kitty.get_mask, kitty.add_literal.
  destruct pol; cbn [kitty._mask];
    now rewrite testbit_wrap32, Z.lor_spec, testbit_shiftl_1.
Qed.

Lemma get_bit_add_literal (c : kitty.cube) (l x : nat) (pol : bool) :
  (x < 32)%nat ->
  kitty.get_bit (kitty.add_literal c l pol) x
  = if pol then kitty.get_bit c x || (l =? x)%nat
    else kitty.get_bit c x && negb (l =? x)%nat.
Proof.
  intro H. unfold kitty.get_bit, kitty.add_literal.
  destruct pol; cbn [kitty._bits]; rewrite testbit_wrap32 by assumption.
  - now rewrite Z.lor_spec, testbit_shiftl_1.
  - now rewrite Z.ldiff_spec, testbit_shiftl_1.
Qed.

Section Extraction.

Variable num_vars k : nat.
Variable m : model.
Variable j : nat.

Let step (acc : kitty.cube * bool) (l : nat) : kitty.cube * bool :=
  let p_value := model_true m (j * num_vars + l) in
  let q_value := model_true m (num_vars * k + j * num_vars + l) in
  if p_value && q_value then (fst acc, true)
  else if p_value then (kitty.add_literal (fst acc) l true, snd acc)
  else if q_value then (kitty.add_literal (fst acc) l false, snd acc)
  else acc.

(** The cube and the flag after the first [i] variables. *)
Lemma extract_cube_prefix (i : nat) :
  let acc := fold_left step (seq 0 i) (kitty.empty, false) in
  snd acc = existsb (fun l => p_of num_vars k m j l && q_of num_vars k m j l) (seq 0 i)
  /\ forall x, (x < 32)%nat ->
       kitty.get_mask (fst acc) x
       = (x <? i)%nat && xorb (p_of num_vars k m j x) (q_of num_vars k m j x)
       /\ kitty.get_bit (fst acc) x
          = (x <? i)%nat && (p_of num_vars k m j x && negb (q_of num_vars k m j x)).
Proof.
  induction i as [|i [IHc IHl]]; cbn zeta.
  - split; [reflexivity|]. intros x _. cbn [seq fold_left fst].
    unfold kitty.get_mask, kitty.get_bit; cbn. now rewrite Z.testbit_0_l.
  - rewrite seq_S, fold_left_app, existsb_app. cbn [Nat.add fold_left existsb].
    cbn zeta in IHc, IHl.
    set (acc := fold_left step (seq 0 i) (kitty.empty, false)) in *.
    assert (Hstep : step acc i
      = if p_of num_vars k m j i && q_of num_vars k m j i then (fst acc, true)
        else if p_of num_vars k m j i then (kitty.add_literal (fst acc) i true, snd acc)
        else if q_of num_vars k m j i then (kitty.add_literal (fst acc) i false, snd acc)
        else acc).
    { unfold step. now rewrite (model_true_p num_vars k), (model_true_q num_vars k). }
    rewrite Hstep. clear Hstep. clearbody acc. destruct acc as [c cancel].
    cbn [fst snd] in *.
    assert (Hlt : forall x, (x <? S i)%nat = (x <? i)%nat || (i =? x)%nat).
    { intro x. destruct (Nat.ltb_spec x (S i)), (Nat.ltb_spec x i),
        (Nat.eqb_spec i x); cbn; try reflexivity; lia. }
    assert (Hi : forall x, (i =? x)%nat = true -> (x <? i)%nat = false).
    { intros x E. apply Nat.eqb_eq in E. apply Nat.ltb_ge. lia. }
    assert (Hc : snd (if p_of num_vars k m j i && q_of num_vars k m j i
                      then (c, true)
                      else if p_of num_vars k m j i
                           then (kitty.add_literal c i true, cancel)
                           else if q_of num_vars k m j i
                                then (kitty.add_literal c i false, cancel)
                                else (c, cancel))
                 = cancel || (p_of num_vars k m j i && q_of num_vars k m j i || false)).
    { destruct (p_of num_vars k m j i), (q_of num_vars k m j i), cancel;
        reflexivity. }
    split; [now rewrite Hc, IHc|].
    intros x Hx. destruct (IHl x Hx) as [Hm Hb].
    destruct (p_of num_vars k m j i) eqn:P, (q_of num_vars k m j i) eqn:Q;
      cbn [andb orb fst snd];
      rewrite ?get_mask_add_literal, ?get_bit_add_literal by assumption;
      rewrite Hm, Hb, Hlt;
      (destruct (Nat.eqb_spec i x) as [->|N];
       [rewrite P, Q, (Hi x (Nat.eqb_refl x)); split; reflexivity
       | split; destruct (x <? i)%nat, (p_of num_vars k m j x),
                  (q_of num_vars k m j x); reflexivity]).
Qed.

Lemma extract_cube_flag :
  snd (extract_cube num_vars k m j) = void num_vars k m j.
Proof. exact (proj1 (extract_cube_prefix num_vars)). Qed.

Lemma extract_cube_literal (l : nat) :
  (l < 32)%nat ->
  cube_literal (fst (extract_cube num_vars k m j)) l
  = if (l <? num_vars)%nat
    then if p_of num_vars k m j l && q_of num_vars k m j l then DontCare
         else if p_of num_vars k m j l then Positive
         else if q_of num_vars k m j l then Negative
         else DontCare
    else DontCare.
Proof.
  intro H. unfold cube_literal.
  assert (H' : kitty.get_mask (fst (extract_cube num_vars k m j)) l
               = (l <? num_vars)%nat
                 && xorb (p_of num_vars k m j l) (q_of num_vars k m j l)
               /\ kitty.get_bit (fst (extract_cube num_vars k m j)) l
                  = (l <? num_vars)%nat
                    && (p_of num_vars k m j l && negb (q_of num_vars k m j l)))
    by exact (proj2 (extract_cube_prefix num_vars) l H).
  destruct H' as [Hm Hb]. rewrite Hm, Hb.
  destruct (l <? num_vars)%nat, (p_of num_vars k m j l), (q_of num_vars k m j l);
    reflexivity.
Qed.

End Extraction.

Definition term_cube (num_vars k : nat) (m : model) (j : nat) : kitty.cube :=
  fst (extract_cube num_vars k m j).

Lemma extract_eq (num_vars k : nat) (m : model) :
  extract num_vars k m
  = map (term_cube num_vars k m)
        (filter (fun j => negb (void num_vars k m j)) (seq 0 k)).
Proof.
  unfold extract.
  rewrite (fold_left_ext _ (fun esop j => esop ++
             if void num_vars k m j then [] else [term_cube num_vars k m j])).
  - rewrite fold_left_push_flat_map. cbn [app].
    induction (seq 0 k) as [|j js IH]; cbn [flat_map filter map]; [reflexivity|].
    destruct (void num_vars k m j); cbn [negb app map]; now rewrite IH.
  - intros a j _. unfold term_cube. rewrite <- extract_cube_flag.
    destruct (extract_cube num_vars k m j) as [c cancel]. cbn [fst snd].
    destruct cancel; [now rewrite app_nil_r | reflexivity].
Qed.

(** C4: the extracted ESOP holds, in the order of the terms, one cube for
    each term that is not void and none for a void term; in the cube of a
    term that is not void every variable [l] has a positive literal when
    p(j,l) is true, a negative literal when q(j,l) is true and no literal
    when both are false. *)
Theorem extraction_decodes_the_model (num_vars k : nat) (m : model) :
  (num_vars <= 32)%nat ->
  extract num_vars k m
  = map (term_cube num_vars k m)
        (filter (fun j => negb (void num_vars k m j)) (seq 0 k))
  /\ (forall j, void num_vars k m j = true <->
        exists l, (l < num_vars)%nat
                  /\ p_of num_vars k m j l = true /\ q_of num_vars k m j l = true)
  /\ (forall j l, void num_vars k m j = false -> (l < num_vars)%nat ->
        cube_literal (term_cube num_vars k m j) l
        = if p_of num_vars k m j l then Positive
          else if q_of num_vars k m j l then Negative
          else DontCare).
Proof.
  intro Hn. split; [apply extract_eq|]. split.
  - intro j. unfold void. rewrite existsb_exists. split.
    + intros [l [Hl H]]. apply in_seq in Hl. apply andb_prop in H.
      exists l. repeat split; try tauto; lia.
    + intros [l [Hl [P Q]]]. exists l. split; [apply in_seq; lia|].
      now rewrite P, Q.
  - intros j l Hv Hl. unfold term_cube. rewrite extract_cube_literal by lia.
    replace (l <? num_vars)%nat with true by (symmetry; apply Nat.ltb_lt; lia).
    destruct (p_of num_vars k m j l) eqn:P, (q_of num_vars k m j l) eqn:Q;
      try reflexivity.
    exfalso. unfold void in Hv.
    assert (E : existsb (fun l => p_of num_vars k m j l && q_of num_vars k m j l)
                  (seq 0 num_vars) = true).
    { apply existsb_exists. exists l. split; [apply in_seq; lia|]. now rewrite P, Q. }
    congruence.
Qed.

(** ** What an ESOP computes *)

(** A cube covers an assignment when each of its literals agrees with the
    bit of its variable. *)
Definition covers (num_vars : nat) (c : kitty.cube) (bits : Z) : bool :=
  forallb (fun l => negb (kitty.get_mask c l)
                    || Bool.eqb (kitty.get_bit c l) (Z.testbit bits (Z.of_nat l)))
          (seq 0 num_vars).

Definition xor_all (l : list bool) : bool := fold_right xorb false l.

(** The value of an ESOP at an assignment: the XOR over its cubes of
    "the cube covers the assignment". *)
Definition esop_value (num_vars : nat) (e : esop_t) (bits : Z) : bool :=
  xor_all (map (fun c => covers num_vars c bits) e).

(** The ESOP gives the symbol of the table at a row with symbol '0' or
    '1'; a row with another symbol asks for nothing. *)
Definition agrees (binary : list ascii) (num_vars : nat) (e : esop_t)
  (bits : Z) : bool :=
  if is_zero (char_at binary bits) then negb (esop_value num_vars e bits)
  else if is_one (char_at binary bits) then esop_value num_vars e bits
  else true.

Definition realizes_on (binary : list ascii) (num_vars : nat)
  (visited : list Z) (e : esop_t) : bool :=
  forallb (agrees binary num_vars e) visited.

(** The ESOP computes the function of the table. *)
Definition realizes (binary : list ascii) (num_vars : nat) (e : esop_t) : bool :=
  realizes_on binary num_vars (rows num_vars) e.

(** ** What the constraints say *)

Lemma lit_value_pos (m : model) (v : nat) :
  lit_value m (Z.of_nat (S v)) = model_true m v.
Proof.
  unfold lit_value.
  replace (0 <? Z.of_nat (S v)) with true by (symmetry; apply Z.ltb_lt; lia).
  apply var_value_of_nat.
Qed.

Lemma lit_value_neg (m : model) (v : nat) :
  lit_value m (- Z.of_nat (S v)) = negb (model_true m v).
Proof.
  unfold lit_value.
  replace (0 <? - Z.of_nat (S v)) with false by (symmetry; apply Z.ltb_ge; lia).
  now rewrite Z.opp_involutive, var_value_of_nat.
Qed.

Lemma forallb_flat_map {A B} (f : A -> bool) (g : B -> list A) (l : list B) :
  forallb f (flat_map g l) = forallb (fun x => forallb f (g x)) l.
Proof.
  induction l as [|x l IH]; cbn [flat_map forallb]; [reflexivity|].
  now rewrite forallb_app, IH.
Qed.

Lemma forallb_map {A B} (f : A -> bool) (g : B -> A) (l : list B) :
  forallb f (map g l) = forallb (fun x => f (g x)) l.
Proof. induction l as [|x l IH]; cbn [map forallb]; [reflexivity|]. now rewrite IH. Qed.

Lemma existsb_map {A B} (f : A -> bool) (g : B -> A) (l : list B) :
  existsb f (map g l) = existsb (fun x => f (g x)) l.
Proof. induction l as [|x l IH]; cbn [map existsb]; [reflexivity|]. now rewrite IH. Qed.

Lemma forallb_and {A} (f g : A -> bool) (l : list A) :
  forallb f l && forallb g l = forallb (fun x => f x && g x) l.
Proof.
  induction l as [|x l IH]; cbn [forallb]; [reflexivity|].
  rewrite <- IH. destruct (f x), (g x), (forallb f l); reflexivity.
Qed.

Lemma forallb_ext_in {A} (f g : A -> bool) (l : list A) :
  (forall x, In x l -> f x = g x) -> forallb f l = forallb g l.
Proof.
  induction l as [|x l IH]; intro H; cbn [forallb]; [reflexivity|].
  rewrite (H x) by (now left). f_equal. apply IH. intros; apply H; now right.
Qed.

Lemma forallb_or_l {A} (b : bool) (f : A -> bool) (l : list A) :
  forallb (fun x => b || f x) l = b || forallb f l.
Proof.
  induction l as [|x l IH]; cbn [forallb]; [now rewrite orb_true_r|].
  rewrite IH. destruct b, (f x); reflexivity.
Qed.

Lemma negb_existsb {A} (f : A -> bool) (l : list A) :
  negb (existsb f l) = forallb (fun x => negb (f x)) l.
Proof.
  induction l as [|x l IH]; cbn [existsb forallb]; [reflexivity|].
  now rewrite negb_orb, IH.
Qed.

Section Meaning.

Variable binary : list ascii.
Variable num_vars : nat.
Variable k : nat.

(** A term with pattern [P], [Q] has no literal against the row. *)
Definition compatible (P Q : nat -> bool) (bits : Z) : bool :=
  forallb (fun l => negb (if Z.testbit bits (Z.of_nat l) then Q l else P l))
          (seq 0 num_vars).

Definition z_of (m : model) (s j : nat) : bool :=
  var_value m (Z.of_nat (z_var num_vars k s j)).

(** What the constraints of one row ask of a model. *)
Definition row_holds (m : model) (sb : nat * Z) : bool :=
  forallb (fun j => Bool.eqb (z_of m (fst sb) j)
                      (compatible (p_of num_vars k m j) (q_of num_vars k m j) (snd sb)))
          (seq 0 k)
  && Bool.eqb (xor_all (map (z_of m (fst sb)) (seq 0 k)))
              (is_one (char_at binary (snd sb))).

Lemma unit_implication_sat (m : model) (bits : Z) (s j l : nat) :
  clause_sat m (unit_implication num_vars k bits s j l)
  = negb (z_of m s j)
    || negb (if Z.testbit bits (Z.of_nat l)
             then q_of num_vars k m j l else p_of num_vars k m j l).
Proof.
  unfold unit_implication, z_of, p_of, q_of, z_var, p_var, q_var.
  cbn [Nat.add]. rewrite !var_value_of_nat.
  destruct (Z.testbit bits (Z.of_nat l)); cbn [clause_sat existsb];
    now rewrite !lit_value_neg, orb_false_r.
Qed.

Lemma converse_clause_sat (m : model) (bits : Z) (s j : nat) :
  clause_sat m (converse_clause num_vars k bits s j)
  = z_of m s j
    || negb (compatible (p_of num_vars k m j) (q_of num_vars k m j) bits).
Proof.
  unfold converse_clause, compatible. cbn [clause_sat existsb].
  rewrite existsb_map, <- negb_existsb, negb_involutive. apply (f_equal2 orb).
  - unfold z_of, z_var. cbn [Nat.add]. now rewrite lit_value_pos, var_value_of_nat.
  - induction (seq 0 num_vars) as [|l ls IH]; cbn [existsb]; [reflexivity|].
    rewrite IH. f_equal. unfold p_of, q_of, p_var, q_var. cbn [Nat.add].
    destruct (Z.testbit bits (Z.of_nat l));
      now rewrite lit_value_pos, var_value_of_nat.
Qed.

Lemma row_clauses_sat (m : model) (s : nat) (bits : Z) :
  forallb (clause_sat m) (row_clauses num_vars k s bits)
  = forallb (fun j => Bool.eqb (z_of m s j)
                        (compatible (p_of num_vars k m j) (q_of num_vars k m j) bits))
            (seq 0 k).
Proof.
  unfold row_clauses.
  rewrite forallb_app, forallb_flat_map, forallb_map, forallb_and.
  apply forallb_ext_in. intros j _.
  rewrite forallb_map, converse_clause_sat.
  rewrite (forallb_ext_in _ (fun l => negb (z_of m s j)
             || negb (if Z.testbit bits (Z.of_nat l)
                      then q_of num_vars k m j l else p_of num_vars k m j l)))
    by (intros; apply unit_implication_sat).
  rewrite forallb_or_l. fold (compatible (p_of num_vars k m j) (q_of num_vars k m j) bits).
  destruct (z_of m s j), (compatible _ _ bits); reflexivity.
Qed.

Lemma row_xor_sat (m : model) (s : nat) (bits : Z) :
  xor_sat m (row_xor binary num_vars k s bits)
  = Bool.eqb (xor_all (map (z_of m s) (seq 0 k))) (is_one (char_at binary bits)).
Proof.
  unfold xor_sat, row_xor, parity, z_vars_of. cbn [fst snd].
  now rewrite map_map.
Qed.

(** A model satisfies the constraint set of [k] exactly when, for every
    visited row with symbol '0' or '1', each coverage variable says
    whether its term is compatible with the row and their parity is the
    symbol. *)
Lemma satisfies_encode (m : model) :
  satisfies m (cons (encode binary num_vars k))
  = forallb (row_holds m) (numbered binary 0 (visited_rows num_vars)).
Proof.
  rewrite encode_eq. cbn [cons]. unfold satisfies. cbn [clauses xor_clauses].
  rewrite forallb_flat_map, forallb_map, forallb_and.
  apply forallb_ext_in. intros [s bits] _. cbn [fst snd]. unfold row_holds.
  cbn [fst snd]. now rewrite row_clauses_sat, row_xor_sat.
Qed.

End Meaning.

(** ** From a model to the function it computes *)

Section Soundness.

Variable binary : list ascii.
Variable num_vars : nat.
Variable k : nat.
Hypothesis num_vars_le_32 : (num_vars <= 32)%nat.

Lemma void_false (m : model) (j l : nat) :
  void num_vars k m j = false -> (l < num_vars)%nat ->
  p_of num_vars k m j l && q_of num_vars k m j l = false.
Proof.
  unfold void. intros H Hl.
  apply (f_equal negb) in H. rewrite negb_existsb in H. cbn [negb] in H.
  rewrite forallb_forall in H. specialize (H l). apply negb_true_iff, H, in_seq. lia.
Qed.

Lemma covers_term_cube (m : model) (j : nat) (bits : Z) :
  void num_vars k m j = false ->
  covers num_vars (term_cube num_vars k m j) bits
  = compatible num_vars (p_of num_vars k m j) (q_of num_vars k m j) bits.
Proof.
  intro Hv. unfold covers, compatible. apply forallb_ext_in.
  intros l Hl. apply in_seq in Hl.
  destruct (proj2 (extract_cube_prefix num_vars k m j num_vars) l ltac:(lia))
    as [Hm Hb].
  cbn zeta in Hm, Hb. unfold term_cube, extract_cube. rewrite Hm, Hb.
  replace (l <? num_vars)%nat with true by (symmetry; apply Nat.ltb_lt; lia).
  pose proof (void_false m j l Hv ltac:(lia)) as Hpq.
  destruct (p_of num_vars k m j l), (q_of num_vars k m j l),
    (Z.testbit bits (Z.of_nat l)); try reflexivity; discriminate.
Qed.

Lemma compatible_void (m : model) (j : nat) (bits : Z) :
  void num_vars k m j = true ->
  compatible num_vars (p_of num_vars k m j) (q_of num_vars k m j) bits = false.
Proof.
  unfold void, compatible. intro H.
  apply existsb_exists in H. destruct H as [l [Hl H]]. apply andb_prop in H.
  apply not_true_is_false. intro C. rewrite forallb_forall in C.
  specialize (C l Hl). destruct H as [P Q]. rewrite P, Q in C.
  now destruct (Z.testbit bits (Z.of_nat l)).
Qed.

(** The value of the extracted ESOP is the parity, over all [k] terms, of
    "the term is compatible with the row". *)
Lemma esop_value_extract (m : model) (bits : Z) :
  esop_value num_vars (extract num_vars k m) bits
  = xor_all (map (fun j => compatible num_vars (p_of num_vars k m j)
                             (q_of num_vars k m j) bits) (seq 0 k)).
Proof.
  rewrite extract_eq. unfold esop_value. rewrite map_map.
  induction (seq 0 k) as [|j js IH]; cbn [filter map]; [reflexivity|].
  destruct (void num_vars k m j) eqn:V; cbn [negb map xor_all fold_right].
  - rewrite compatible_void by assumption. cbn [xorb]. exact IH.
  - rewrite covers_term_cube by assumption. f_equal. exact IH.
Qed.

Lemma in_numbered (s0 : nat) (visited : list Z) (bits : Z) :
  In bits visited -> has_value binary bits = true ->
  exists s, In (s, bits) (numbered binary s0 visited).
Proof.
  intros Hin Hv. unfold numbered.
  assert (H : In bits (filter (has_value binary) visited))
    by (apply filter_In; now split).
  revert s0 H.
  induction (filter (has_value binary) visited) as [|b D IH]; intros s0 H;
    [contradiction|].
  cbn [length seq combine]. destruct H as [->|H].
  - exists s0. now left.
  - destruct (IH (S s0) H) as [s Hs]. exists s. now right.
Qed.

Lemma is_zero_not_one (c : ascii) : is_zero c = true -> is_one c = false.
Proof.
  unfold is_zero, is_one. intro H. apply Ascii.eqb_eq in H. now subst c.
Qed.

Lemma row_holds_agrees (m : model) (s : nat) (bits : Z) :
  has_value binary bits = true ->
  row_holds binary num_vars k m (s, bits) = true ->
  agrees binary num_vars (extract num_vars k m) bits = true.
Proof.
  intros Hv H. unfold row_holds in H. cbn [fst snd] in H.
  apply andb_prop in H. destruct H as [Hz Hx].
  apply eqb_prop in Hx. rewrite forallb_forall in Hz.
  assert (E : esop_value num_vars (extract num_vars k m) bits
              = is_one (char_at binary bits)).
  { rewrite esop_value_extract, <- Hx. f_equal. apply map_ext_in.
    intros j Hj. symmetry. apply eqb_prop, Hz, Hj. }
  unfold agrees. rewrite E. unfold has_value in Hv.
  destruct (is_zero (char_at binary bits)) eqn:Z0.
  - now rewrite is_zero_not_one.
  - cbn [orb] in Hv. now rewrite Hv.
Qed.

(** Every model of the constraint set of [k] decodes to an ESOP that
    gives the symbol of the table at every visited row. *)
Lemma model_realizes (m : model) :
  satisfies m (cons (encode binary num_vars k)) = true ->
  realizes_on binary num_vars (visited_rows num_vars) (extract num_vars k m) = true.
Proof.
  rewrite satisfies_encode. intro H. rewrite forallb_forall in H.
  unfold realizes_on. apply forallb_forall. intros bits Hin.
  destruct (has_value binary bits) eqn:Hv.
  - destruct (in_numbered 0 _ _ Hin Hv) as [s Hs].
    exact (row_holds_agrees m s bits Hv (H _ Hs)).
  - unfold agrees. unfold has_value in Hv. apply orb_false_elim in Hv.
    now rewrite (proj1 Hv), (proj2 Hv).
Qed.

End Soundness.

(** ** From an ESOP to a model *)

Section Completeness.

Variable binary : list ascii.
Variable num_vars : nat.
Variable k : nat.

(** The p/q pattern of the [j]-th cube of an ESOP; a slot past the last
    cube is void. *)
Definition pattern_p (e : esop_t) (j l : nat) : bool :=
  match nth_error e j with
  | Some c => kitty.get_mask c l && kitty.get_bit c l
  | None => true
  end.

Definition pattern_q (e : esop_t) (j l : nat) : bool :=
  match nth_error e j with
  | Some c => kitty.get_mask c l && negb (kitty.get_bit c l)
  | None => true
  end.

(** The model of an ESOP: the p block, the q block, then for every valued
    row the coverage of each term. *)
Definition model_of_esop (valued : list Z) (e : esop_t) : model :=
  map (fun i =>
         if (i <? num_vars * k)%nat
         then pattern_p e (i / num_vars) (i mod num_vars)
         else if (i <? 2 * num_vars * k)%nat
         then pattern_q e ((i - num_vars * k) / num_vars)
                          ((i - num_vars * k) mod num_vars)
         else compatible num_vars
                (pattern_p e ((i - 2 * num_vars * k) mod k))
                (pattern_q e ((i - 2 * num_vars * k) mod k))
                (nth ((i - 2 * num_vars * k) / k) valued 0))
      (seq 0 (2 * num_vars * k + length valued * k)).

Lemma model_true_map (f : nat -> bool) (n i : nat) :
  (i < n)%nat -> model_true (map f (seq 0 n)) i = f i.
Proof.
  intro H. unfold model_true.
  rewrite (nth_indep _ false (f 0%nat)) by (now rewrite length_map, length_seq).
  now rewrite map_nth, seq_nth.
Qed.

Lemma div_mod_at (b q r : nat) :
  (r < b)%nat -> ((b * q + r) / b = q /\ (b * q + r) mod b = r)%nat.
Proof.
  intro H. split; symmetry.
  - now apply (Nat.div_unique _ b q r).
  - now apply (Nat.mod_unique _ b q r).
Qed.

Variable valued : list Z.
Variable e : esop_t.

Lemma p_of_model_of_esop (j l : nat) :
  (j < k)%nat -> (l < num_vars)%nat ->
  p_of num_vars k (model_of_esop valued e) j l = pattern_p e j l.
Proof.
  intros Hj Hl. unfold p_of, p_var. cbn [Nat.add]. rewrite var_value_of_nat.
  unfold model_of_esop. rewrite model_true_map by nia.
  replace (num_vars * j + l <? num_vars * k)%nat with true
    by (symmetry; apply Nat.ltb_lt; nia).
  destruct (div_mod_at num_vars j l Hl) as [-> ->]. reflexivity.
Qed.

Lemma q_of_model_of_esop (j l : nat) :
  (j < k)%nat -> (l < num_vars)%nat ->
  q_of num_vars k (model_of_esop valued e) j l = pattern_q e j l.
Proof.
  intros Hj Hl. unfold q_of, q_var. cbn [Nat.add]. rewrite var_value_of_nat.
  unfold model_of_esop. rewrite model_true_map by nia.
  replace (num_vars * k + num_vars * j + l <? num_vars * k)%nat with false
    by (symmetry; apply Nat.ltb_ge; nia).
  replace (num_vars * k + num_vars * j + l <? 2 * num_vars * k)%nat with true
    by (symmetry; apply Nat.ltb_lt; nia).
  replace (num_vars * k + num_vars * j + l - num_vars * k)%nat
    with (num_vars * j + l)%nat by lia.
  destruct (div_mod_at num_vars j l Hl) as [-> ->]. reflexivity.
Qed.

Lemma z_of_model_of_esop (s j : nat) :
  (j < k)%nat -> (s < length valued)%nat ->
  z_of num_vars k (model_of_esop valued e) s j
  = compatible num_vars (pattern_p e j) (pattern_q e j) (nth s valued 0).
Proof.
  intros Hj Hs. unfold z_of, z_var. cbn [Nat.add]. rewrite var_value_of_nat.
  unfold model_of_esop. rewrite model_true_map by nia.
  replace (2 * num_vars * k + s * k + j <? num_vars * k)%nat with false
    by (symmetry; apply Nat.ltb_ge; nia).
  replace (2 * num_vars * k + s * k + j <? 2 * num_vars * k)%nat with false
    by (symmetry; apply Nat.ltb_ge; nia).
  replace (2 * num_vars * k + s * k + j - 2 * num_vars * k)%nat
    with (k * s + j)%nat by lia.
  destruct (div_mod_at k s j Hj) as [-> ->]. reflexivity.
Qed.

Lemma compatible_ext (P Q P' Q' : nat -> bool) (bits : Z) :
  (forall l, (l < num_vars)%nat -> P l = P' l /\ Q l = Q' l) ->
  compatible num_vars P Q bits = compatible num_vars P' Q' bits.
Proof.
  intro H. unfold compatible. apply forallb_ext_in. intros l Hl.
  apply in_seq in Hl. destruct (H l ltac:(lia)) as [-> ->]. reflexivity.
Qed.

Lemma compatible_pattern_cube (j : nat) (c : kitty.cube) (bits : Z) :
  nth_error e j = Some c ->
  compatible num_vars (pattern_p e j) (pattern_q e j) bits = covers num_vars c bits.
Proof.
  intro H. unfold compatible, covers, pattern_p, pattern_q. rewrite H.
  apply forallb_ext_in. intros l _.
  destruct (kitty.get_mask c l), (kitty.get_bit c l),
    (Z.testbit bits (Z.of_nat l)); reflexivity.
Qed.

Lemma compatible_pattern_void (j : nat) (bits : Z) :
  (0 < num_vars)%nat -> nth_error e j = None ->
  compatible num_vars (pattern_p e j) (pattern_q e j) bits = false.
Proof.
  intros Hn H. unfold compatible, pattern_p, pattern_q. rewrite H.
  destruct num_vars as [|n]; [lia|]. cbn [seq forallb].
  now destruct (Z.testbit bits (Z.of_nat 0)).
Qed.

Lemma xor_all_app (a b : list bool) : xor_all (a ++ b) = xorb (xor_all a) (xor_all b).
Proof.
  induction a as [|x a IH]; cbn [app xor_all fold_right].
  - now rewrite xorb_false_l.
  - fold (xor_all (a ++ b)). fold (xor_all a). rewrite IH. now rewrite xorb_assoc.
Qed.

Lemma xor_all_false (l : list bool) : (forall x, In x l -> x = false) -> xor_all l = false.
Proof.
  induction l as [|x l IH]; intro H; cbn [xor_all fold_right]; [reflexivity|].
  fold (xor_all l). rewrite (H x) by (now left). rewrite IH; [reflexivity|].
  intros; apply H; now right.
Qed.

Lemma map_nth_error_seq {A B} (f : A -> B) (g : nat -> B) (l : list A) :
  (forall j c, nth_error l j = Some c -> g j = f c) ->
  map g (seq 0 (length l)) = map f l.
Proof.
  revert g. induction l as [|c l IH]; intros g H; [reflexivity|].
  cbn [length seq map]. rewrite (H 0%nat c) by reflexivity. f_equal.
  rewrite <- seq_shift, map_map. apply IH.
  intros j c' Hj. now apply (H (S j)).
Qed.

(** The parity of the compatibilities of the pattern is the value of the
    ESOP; void slots are there only when there is a variable to make them
    void. *)
Lemma xor_compatible_pattern (bits : Z) :
  (length e <= k)%nat -> (length e < k -> 0 < num_vars)%nat ->
  xor_all (map (fun j => compatible num_vars (pattern_p e j) (pattern_q e j) bits)
               (seq 0 k))
  = esop_value num_vars e bits.
Proof.
  intros Hk Hn.
  replace k with (length e + (k - length e))%nat at 1 by lia.
  rewrite seq_app, map_app, xor_all_app. cbn [Nat.add].
  rewrite (xor_all_false (map _ (seq (length e) _))).
  - rewrite xorb_false_r. unfold esop_value. f_equal.
    apply map_nth_error_seq. intros j c H. now apply compatible_pattern_cube.
  - intros x Hx. apply in_map_iff in Hx. destruct Hx as [j [<- Hj]].
    apply in_seq in Hj. apply compatible_pattern_void; [lia|].
    apply nth_error_None. lia.
Qed.

End Completeness.

Lemma in_combine_seq {A} (d : A) (l : list A) (s0 s : nat) (x : A) :
  In (s, x) (combine (seq s0 (length l)) l) ->
  (s0 <= s < s0 + length l)%nat /\ nth (s - s0) l d = x.
Proof.
  revert s0. induction l as [|y l IH]; intros s0 H; [contradiction|].
  cbn [length seq combine] in H. destruct H as [H|H].
  - inversion H; subst. rewrite Nat.sub_diag. cbn [length nth]. split; [lia|reflexivity].
  - destruct (IH (S s0) H) as [Hr Hn]. cbn [length]. split; [lia|].
    replace (s - s0)%nat with (S (s - S s0)) by lia. exact Hn.
Qed.

(** Every ESOP with at most [k] cubes that gives the symbol of the table
    at every visited row has a model of the constraint set of [k]; with
    fewer than [k] cubes this needs a variable. *)
Lemma esop_has_model (binary : list ascii) (num_vars k : nat) (e : esop_t) :
  (length e <= k)%nat -> (length e < k -> 0 < num_vars)%nat ->
  realizes_on binary num_vars (visited_rows num_vars) e = true ->
  satisfies
    (model_of_esop num_vars k (filter (has_value binary) (visited_rows num_vars)) e)
    (cons (encode binary num_vars k)) = true.
Proof.
  intros Hk Hn Hr. rewrite satisfies_encode. apply forallb_forall.
  intros [s bits] Hin. unfold numbered in Hin.
  pose proof (in_combine_r _ _ _ _ Hin) as Hb. apply filter_In in Hb.
  destruct Hb as [Hvis Hval].
  destruct (in_combine_seq 0 _ _ _ _ Hin) as [Hs Hnth].
  rewrite Nat.sub_0_r in Hnth.
  set (valued := filter (has_value binary) (visited_rows num_vars)) in *.
  assert (Hz : forall j, (j < k)%nat ->
    z_of num_vars k (model_of_esop num_vars k valued e) s j
    = compatible num_vars (pattern_p e j) (pattern_q e j) bits).
  { intros j Hj. rewrite z_of_model_of_esop by lia. now rewrite Hnth. }
  unfold row_holds. cbn [fst snd]. apply andb_true_intro. split.
  - apply forallb_forall. intros j Hj. apply in_seq in Hj.
    rewrite Hz by lia. apply eqb_true_iff. apply compatible_ext.
    intros l Hl. split; symmetry;
      [apply p_of_model_of_esop | apply q_of_model_of_esop]; lia.
  - apply eqb_true_iff.
    rewrite (map_ext_in _ (fun j => compatible num_vars (pattern_p e j)
                                      (pattern_q e j) bits))
      by (intros j Hj; apply in_seq in Hj; apply Hz; lia).
    rewrite xor_compatible_pattern by assumption.
    unfold realizes_on in Hr. rewrite forallb_forall in Hr.
    specialize (Hr bits Hvis). unfold agrees in Hr. unfold has_value in Hval.
    destruct (is_zero (char_at binary bits)) eqn:Z0.
    + rewrite (is_zero_not_one _ Z0). now apply negb_true_iff.
    + cbn [orb] in Hval. now rewrite Hval in *.
Qed.

(** ** The loop over the permutations *)

(** The arrangements the do-while goes through when it stops after [fuel]
    further turns at the latest. *)
Fixpoint permutations_from (fuel : nat) (vs : list nat) : list (list nat) :=
  vs :: (let (vs', more) := next_permutation vs in
         if more then
           match fuel with
           | O => []
           | S f => permutations_from f vs'
           end
         else []).

Lemma do_while_permutations_fold {S : Type} (body : list nat -> S -> S) (fuel : nat) :
  forall (vs : list nat) (s : S),
    do_while_permutations fuel body vs s
    = fold_left (fun s vs => body vs s) (permutations_from fuel vs) s.
Proof.
  induction fuel as [|f IH]; intros vs s;
    cbn [do_while_permutations permutations_from];
    destruct (next_permutation vs) as [vs' more]; destruct more;
    cbn [fold_left]; try reflexivity.
  apply IH.
Qed.

Lemma visited_permutations_eq (k : nat) :
  visited_permutations k = permutations_from (fact k) (seq 0 k).
Proof.
  unfold visited_permutations. rewrite do_while_permutations_fold.
  rewrite (fold_left_push_flat_map (fun vs => [vs])). cbn [app].
  induction (permutations_from (fact k) (seq 0 k)); cbn; congruence.
Qed.

(** Each element of a list with the other elements. *)
Fixpoint select {A} (l : list A) : list (A * list A) :=
  match l with
  | [] => []
  | x :: t => (x, t) :: map (fun yr => (fst yr, x :: snd yr)) (select t)
  end.

(** The arrangements of a list of [n] elements, in the order of the first
    element, then of the second, and so on. *)
Fixpoint arrangements (n : nat) (l : list nat) : list (list nat) :=
  match n with
  | O => [[]]
  | S n' => flat_map (fun xr => map (Datatypes.cons (fst xr)) (arrangements n' (snd xr)))
                     (select l)
  end.

(** A list whose neighbours are related by [R] and whose last element
    satisfies [E]. *)
Inductive linked {A} (R : A -> A -> Prop) (E : A -> Prop) : list A -> Prop :=
| linked_one a : E a -> linked R E [a]
| linked_cons a b l : R a b -> linked R E (b :: l) -> linked R E (a :: b :: l).

Lemma linked_app {A} (R : A -> A -> Prop) (E1 E : A -> Prop) (l1 : list A) (h : A) (l2 : list A) :
  linked R E1 l1 -> linked R E (h :: l2) -> (forall a, E1 a -> R a h) ->
  linked R E (l1 ++ h :: l2).
Proof.
  intros H1 H2 Hlink. induction H1 as [a Ha | a b l Hab H1 IH]; cbn [app].
  - apply linked_cons; [now apply Hlink | exact H2].
  - apply linked_cons; [exact Hab | exact IH].
Qed.

Lemma linked_end {A} (R : A -> A -> Prop) (E E' : A -> Prop) (l : list A) :
  (forall a, E a -> E' a) -> linked R E l -> linked R E' l.
Proof. intros H HL. induction HL; constructor; auto. Qed.

Definition next_is (b : list nat) (a : list nat) : Prop :=
  next_permutation a = (b, true).
Definition wraps_to (b : list nat) (a : list nat) : Prop :=
  next_permutation a = (b, false).

(** A run of the loop: each arrangement is followed by its successor and
    the last one wraps around to [back]. *)
Definition chain (back : list nat) (L : list (list nat)) : Prop :=
  linked (fun a b => next_is b a) (wraps_to back) L.

Lemma chain_permutations_from (back : list nat) (L : list (list nat)) :
  chain back L ->
  forall a L' fuel, L = a :: L' -> (length L' <= fuel)%nat ->
                    permutations_from fuel a = L.
Proof.
  intro H. induction H as [a Ha | a b l Hab HL IH]; intros a' L' fuel E Hf;
    inversion E; subst.
  - unfold wraps_to in Ha. destruct fuel; cbn [permutations_from]; now rewrite Ha.
  - unfold next_is in Hab. cbn [length] in Hf. destruct fuel as [|f]; [lia|].
    cbn [permutations_from]. rewrite Hab. f_equal.
    apply (IH b l f eq_refl). lia.
Qed.

(** The arrangements that start with [x], when those of the rest [r] form
    a run: the last one steps to what the swap gives. *)
Lemma chain_block (x : nat) (r : list nat) (L : list (list nat)) :
  chain r L ->
  linked (fun a b => next_is b a)
    (fun a => next_permutation a
              = match swap_first_greater x r with
                | Some (y, r') => (y :: r', true)
                | None => (r ++ [x], false)
                end)
    (map (Datatypes.cons x) L).
Proof.
  intro H. induction H as [a Ha | a b l Hab HL IH]; cbn [map].
  - apply linked_one. unfold wraps_to in Ha. cbn [next_permutation]. now rewrite Ha.
  - apply linked_cons; [|exact IH].
    unfold next_is in *. cbn [next_permutation]. now rewrite Hab.
Qed.

Definition swaps_to (ar br : nat * list nat) : Prop :=
  swap_first_greater (fst ar) (snd ar) = Some br.
Definition swaps_back (l : list nat) (ar : nat * list nat) : Prop :=
  swap_first_greater (fst ar) (snd ar) = None /\ snd ar ++ [fst ar] = l.

Lemma linked_map {A B} (f : A -> B) (R : A -> A -> Prop) (E : A -> Prop)
  (R' : B -> B -> Prop) (E' : B -> Prop) (l : list A) :
  (forall a b, In a l -> R a b -> R' (f a) (f b)) ->
  (forall a, In a l -> E a -> E' (f a)) ->
  linked R E l -> linked R' E' (map f l).
Proof.
  intros HR HE H. induction H as [a Ha | a b l Hab HL IH]; cbn [map].
  - apply linked_one. apply HE; [now left | exact Ha].
  - apply linked_cons.
    + apply HR; [now left | exact Hab].
    + apply IH; intros; [apply HR | apply HE]; try assumption; now right.
Qed.

Lemma select_fst_in {A} (l : list A) (a : A) (r : list A) :
  In (a, r) (select l) -> In a l.
Proof.
  revert a r. induction l as [|x t IH]; intros a r H; [contradiction|].
  cbn [select] in H. destruct H as [H|H].
  - inversion H; subst. now left.
  - apply in_map_iff in H. destruct H as [[y r'] [E H]].
    inversion E; subst. right. exact (IH _ _ H).
Qed.

(** In an increasing list, taking out an element and swapping it with the
    next larger one gives the next choice of a first element. *)
Lemma select_linked (l : list nat) :
  l <> [] -> StronglySorted lt l -> linked swaps_to (swaps_back l) (select l).
Proof.
  induction l as [|x t IH]; intros Hne Hs; [congruence|].
  inversion Hs as [|? ? Hst Hx]; subst. cbn [select].
  destruct t as [|y t'].
  - cbn. apply linked_one. split; reflexivity.
  - assert (Hlow : forall a r, In (a, r) (select (y :: t')) -> (a <? x)%nat = false).
    { intros a r H. apply select_fst_in in H. rewrite Forall_forall in Hx.
      apply Nat.ltb_ge. specialize (Hx a H). lia. }
    assert (Hmap : linked swaps_to (swaps_back (x :: y :: t'))
                     (map (fun yr => (fst yr, x :: snd yr)) (select (y :: t')))).
    { apply (linked_map _ swaps_to (swaps_back (y :: t'))).
      - intros [a ra] [b rb] Hin H. unfold swaps_to in *. cbn [fst snd] in *.
        cbn [swap_first_greater]. now rewrite (Hlow a ra Hin), H.
      - intros [a ra] Hin [H1 H2]. unfold swaps_back in *. cbn [fst snd] in *.
        cbn [swap_first_greater]. rewrite (Hlow a ra Hin), H1. split; [reflexivity|].
        cbn [app]. now rewrite H2.
      - apply IH; [congruence | assumption]. }
    cbn [select map fst snd] in Hmap |- *.
    apply linked_cons; [|exact Hmap].
    unfold swaps_to. cbn [fst snd swap_first_greater].
    replace (x <? y)%nat with true; [reflexivity|].
    symmetry. apply Nat.ltb_lt. rewrite Forall_forall in Hx. apply Hx. now left.
Qed.

Lemma select_snd_in {A} (l : list A) (a : A) (r : list A) (z : A) :
  In (a, r) (select l) -> In z r -> In z l.
Proof.
  revert a r. induction l as [|x t IH]; intros a r H Hz; [contradiction|].
  cbn [select] in H. destruct H as [H|H].
  - inversion H; subst. now right.
  - apply in_map_iff in H. destruct H as [[y r'] [E H]]. inversion E; subst.
    cbn [snd] in Hz. destruct Hz as [->|Hz]; [now left|].
    right. exact (IH _ _ H Hz).
Qed.

Lemma select_sorted (l : list nat) (a : nat) (r : list nat) :
  StronglySorted lt l -> In (a, r) (select l) ->
  StronglySorted lt r /\ S (length r) = length l.
Proof.
  revert a r. induction l as [|x t IH]; intros a r Hs H; [contradiction|].
  inversion Hs as [|? ? Hst Hx]; subst. cbn [select] in H. destruct H as [H|H].
  - inversion H; subst. split; [assumption | reflexivity].
  - apply in_map_iff in H. destruct H as [[y r'] [E H]]. inversion E; subst.
    cbn [fst snd]. destruct (IH _ _ Hst H) as [Hr Hlen]. split.
    + constructor; [exact Hr|]. rewrite Forall_forall in *. intros z Hz.
      apply Hx. exact (select_snd_in _ _ _ _ H Hz).
    + cbn [length]. now rewrite Hlen.
Qed.

(** From an increasing list the loop goes through all the arrangements
    and wraps around to the list it started from. *)
Lemma arrangements_chain (n : nat) :
  forall l, length l = n -> StronglySorted lt l ->
            chain l (arrangements n l) /\ hd_error (arrangements n l) = Some l.
Proof.
  induction n as [|n IH]; intros l Hlen Hs.
  - destruct l; [|discriminate]. split; [|reflexivity].
    apply linked_one. reflexivity.
  - assert (Hne : l <> []) by (destruct l; [discriminate | congruence]).
    pose proof (select_linked l Hne Hs) as HL.
    assert (Hall : forall a r, In (a, r) (select l) ->
                     chain r (arrangements n r) /\ hd_error (arrangements n r) = Some r).
    { intros a r H. destruct (select_sorted l a r Hs H) as [Hr Hl].
      apply IH; [lia | exact Hr]. }
    cbn [arrangements]. split.
    + clear Hne. induction HL as [[a ra] Ha | [a ra] [b rb] S Hab HL IHL].
      * cbn [flat_map fst snd]. rewrite app_nil_r.
        destruct (Hall a ra (or_introl eq_refl)) as [Hc _].
        eapply linked_end; [|apply (chain_block a ra), Hc].
        intros a' H. unfold swaps_back in Ha. cbn [fst snd] in Ha.
        destruct Ha as [Ha1 Ha2]. rewrite Ha1, Ha2 in H. exact H.
      * cbn [flat_map]. cbn [flat_map] in IHL.
        destruct (Hall a ra (or_introl eq_refl)) as [Hc _].
        destruct (Hall b rb (or_intror (or_introl eq_refl))) as [_ Hh].
        cbn [fst snd] in *.
        destruct (arrangements n rb) as [|h tl] eqn:Eb; [discriminate|].
        inversion Hh; subst h. cbn [map app] in *.
        eapply linked_app.
        -- apply (chain_block a ra), Hc.
        -- apply IHL. intros a' r' H. apply (Hall a' r'). now right.
        -- intros a' H. unfold swaps_to in Hab. cbn [fst snd] in Hab.
           rewrite Hab in H. exact H.
    + destruct l as [|x t]; [congruence|]. cbn [select flat_map fst snd].
      destruct (Hall x t (or_introl eq_refl)) as [_ Hh].
      destruct (arrangements n t); [discriminate|]. inversion Hh; subst.
      reflexivity.
Qed.

Lemma length_select {A} (l : list A) : length (select l) = length l.
Proof. induction l; cbn [select length]; [reflexivity|]. now rewrite length_map, IHl. Qed.

Lemma select_permutation {A} (l : list A) (a : A) (r : list A) :
  In (a, r) (select l) -> Permutation (a :: r) l.
Proof.
  revert a r. induction l as [|x t IH]; intros a r H; [contradiction|].
  cbn [select] in H. destruct H as [H|H].
  - inversion H; subst. apply Permutation_refl.
  - apply in_map_iff in H. destruct H as [[y r'] [E H]]. inversion E; subst.
    cbn [fst snd]. eapply perm_trans; [apply perm_swap|].
    apply perm_skip. exact (IH _ _ H).
Qed.

Lemma select_in {A} (l : list A) (a : A) :
  In a l -> exists r, In (a, r) (select l).
Proof.
  induction l as [|x t IH]; intro H; [contradiction|].
  destruct H as [->|H].
  - exists t. now left.
  - destruct (IH H) as [r Hr]. exists (x :: r). right.
    apply in_map_iff. exists (a, r). split; [reflexivity | exact Hr].
Qed.

Lemma length_flat_map_const {A B} (f : A -> list B) (l : list A) (c : nat) :
  (forall x, In x l -> length (f x) = c) -> length (flat_map f l) = (length l * c)%nat.
Proof.
  induction l as [|x l IH]; intro H; cbn [flat_map length]; [reflexivity|].
  rewrite length_app, (H x), IH; [reflexivity | | now left].
  intros; apply H; now right.
Qed.

Lemma length_arrangements (n : nat) :
  forall l, length l = n -> length (arrangements n l) = fact n.
Proof.
  induction n as [|n IH]; intros l Hl; [reflexivity|].
  cbn [arrangements]. rewrite (length_flat_map_const _ _ (fact n)).
  - rewrite length_select, Hl. reflexivity.
  - intros [a r] H. cbn [fst snd]. rewrite length_map. apply IH.
    apply select_permutation, Permutation_length in H. cbn [length] in H. lia.
Qed.

Lemma arrangements_permutation (n : nat) :
  forall l vs, length l = n -> (In vs (arrangements n l) <-> Permutation vs l).
Proof.
  induction n as [|n IH]; intros l vs Hl.
  - destruct l; [|discriminate]. cbn. split.
    + intros [<-|[]]. constructor.
    + intro H. apply Permutation_sym, Permutation_nil in H. now left.
  - cbn [arrangements]. rewrite in_flat_map. split.
    + intros [[a r] [Hs Hin]]. cbn [fst snd] in Hin.
      apply in_map_iff in Hin. destruct Hin as [vs' [<- Hin]].
      pose proof (select_permutation _ _ _ Hs) as Hp.
      apply (IH r) in Hin.
      * eapply perm_trans; [apply perm_skip, Hin | exact Hp].
      * apply Permutation_length in Hp. cbn [length] in Hp. lia.
    + intro H. destruct vs as [|a vs'].
      { apply Permutation_length in H. cbn [length] in H. lia. }
      assert (Ha : In a l) by (eapply Permutation_in; [exact H | now left]).
      destruct (select_in l a Ha) as [r Hr]. exists (a, r). split; [exact Hr|].
      cbn [fst snd]. apply in_map. apply (IH r).
      * apply select_permutation, Permutation_length in Hr. cbn [length] in Hr. lia.
      * apply select_permutation in Hr.
        eapply Permutation_cons_inv. eapply perm_trans; [exact H|].
        apply Permutation_sym. exact Hr.
Qed.

Lemma seq_sorted (s n : nat) : StronglySorted lt (seq s n).
Proof.
  revert s. induction n as [|n IH]; intro s; cbn [seq]; constructor; [apply IH|].
  apply Forall_forall. intros x H. apply in_seq in H. lia.
Qed.

(** The loop of lines 223--239 goes through every arrangement of the [k]
    slots, once each. *)
Lemma visited_permutations_arrangements (k : nat) :
  visited_permutations k = arrangements k (seq 0 k).
Proof.
  rewrite visited_permutations_eq.
  destruct (arrangements_chain k (seq 0 k) (length_seq k 0) (seq_sorted 0 k))
    as [Hc Hh].
  pose proof (length_arrangements k (seq 0 k) (length_seq k 0)) as Hlen.
  destruct (arrangements k (seq 0 k)) as [|a L'] eqn:E; [discriminate|].
  inversion Hh; subst a.
  apply (chain_permutations_from _ _ Hc _ L' _ eq_refl).
  cbn [length] in Hlen. lia.
Qed.

Lemma visited_permutations_spec (k : nat) :
  length (visited_permutations k) = fact k
  /\ forall vs, In vs (visited_permutations k) <-> Permutation vs (seq 0 k).
Proof.
  rewrite visited_permutations_arrangements. split.
  - apply length_arrangements, length_seq.
  - intro vs. apply arrangements_permutation, length_seq.
Qed.

Lemma visited_permutations_head (k : nat) :
  exists rest, visited_permutations k = seq 0 k :: rest.
Proof.
  rewrite visited_permutations_eq. destruct (fact k); cbn [permutations_from];
    eexists; reflexivity.
Qed.

(** ** Blocking clauses *)

Lemma existsb_flat_map {A B} (f : A -> bool) (g : B -> list A) (l : list B) :
  existsb f (flat_map g l) = existsb (fun x => existsb f (g x)) l.
Proof.
  induction l as [|x l IH]; cbn [flat_map existsb]; [reflexivity|].
  now rewrite existsb_app, IH.
Qed.

Lemma existsb_ext_in {A} (f g : A -> bool) (l : list A) :
  (forall x, In x l -> f x = g x) -> existsb f l = existsb g l.
Proof.
  induction l as [|x l IH]; intro H; cbn [existsb]; [reflexivity|].
  rewrite (H x) by (now left). f_equal. apply IH. intros; apply H; now right.
Qed.

(** The pattern of slot [j] of [m] differs from that of slot [j'] of
    [m']. *)
Definition slot_differs (num_vars k : nat) (m m' : model) (j j' : nat) : bool :=
  existsb (fun l => xorb (p_of num_vars k m j l) (p_of num_vars k m' j' l)
                    || xorb (q_of num_vars k m j l) (q_of num_vars k m' j' l))
          (seq 0 num_vars).

Lemma blocking_clause_eq (num_vars k : nat) (m : model) (vs : list nat) :
  blocking_clause num_vars k m vs
  = flat_map (fun j => flat_map (fun l =>
      [ if p_of num_vars k m j l
        then - Z.of_nat (p_var num_vars k (nth j vs O) l)
        else Z.of_nat (p_var num_vars k (nth j vs O) l);
        if q_of num_vars k m j l
        then - Z.of_nat (q_var num_vars k (nth j vs O) l)
        else Z.of_nat (q_var num_vars k (nth j vs O) l) ])
      (seq 0 num_vars)) (seq 0 (length vs)).
Proof.
  unfold blocking_clause.
  rewrite <- (app_nil_l (flat_map _ (seq 0 (length vs)))).
  rewrite <- fold_left_push_flat_map. apply fold_left_ext. intros bc j _.
  rewrite <- fold_left_push_flat_map. apply fold_left_ext. intros bc' l _.
  cbn zeta. rewrite (model_true_p num_vars k), (model_true_q num_vars k).
  rewrite <- app_assoc. cbn [app]. unfold p_var, q_var.
  replace (1 + nth j vs 0%nat * num_vars + l)%nat
    with (1 + num_vars * nth j vs 0%nat + l)%nat by lia.
  replace (1 + num_vars * k + nth j vs 0%nat * num_vars + l)%nat
    with (1 + num_vars * k + num_vars * nth j vs 0%nat + l)%nat by lia.
  reflexivity.
Qed.

(** A model satisfies the blocking clause of [m] and [vs] exactly when
    some slot [vs[j]] of it differs from slot [j] of [m]. *)
Lemma blocking_clause_sat (num_vars k : nat) (m m' : model) (vs : list nat) :
  clause_sat m' (blocking_clause num_vars k m vs)
  = existsb (fun j => slot_differs num_vars k m m' j (nth j vs O))
            (seq 0 (length vs)).
Proof.
  rewrite blocking_clause_eq. unfold clause_sat. rewrite existsb_flat_map.
  apply existsb_ext_in. intros j _. rewrite existsb_flat_map.
  unfold slot_differs. apply existsb_ext_in. intros l _.
  cbn [existsb]. rewrite orb_false_r.
  assert (L : forall (b : bool) (v : nat),
             lit_value m' (if b then - Z.of_nat (S v) else Z.of_nat (S v))
             = xorb b (model_true m' v)).
  { intros b v. destruct b; rewrite ?lit_value_pos, ?lit_value_neg;
      now destruct (model_true m' v). }
  unfold p_var, q_var. cbn [Nat.add]. rewrite !L. apply (f_equal2 orb); f_equal.
  - unfold p_of, p_var. cbn [Nat.add]. now rewrite var_value_of_nat.
  - unfold q_of, q_var. cbn [Nat.add]. now rewrite var_value_of_nat.
Qed.

Lemma add_blocking_clauses_eq (num_vars k : nat) (m : model) (cs : constraints) :
  add_blocking_clauses num_vars k m cs
  = mk_constraints
      (clauses cs ++ map (blocking_clause num_vars k m) (visited_permutations k))
      (xor_clauses cs).
Proof.
  unfold add_blocking_clauses. rewrite do_while_permutations_fold.
  rewrite fold_left_add_clause. now rewrite visited_permutations_eq.
Qed.

Lemma satisfies_add_blocking_clauses (num_vars k : nat) (m m' : model) (cs : constraints) :
  satisfies m' (add_blocking_clauses num_vars k m cs)
  = satisfies m' cs
    && forallb (fun vs => clause_sat m' (blocking_clause num_vars k m vs))
               (visited_permutations k).
Proof.
  rewrite add_blocking_clauses_eq. unfold satisfies. cbn [clauses xor_clauses].
  rewrite forallb_app, forallb_map.
  destruct (forallb (clause_sat m') (clauses cs)),
    (forallb (xor_sat m') (xor_clauses cs)); cbn [andb];
    rewrite ?andb_true_r, ?andb_false_r; reflexivity.
Qed.

(** The p/q values of a model, as a sequence. *)
Definition pq_values (num_vars k : nat) (m : model) : list bool :=
  map (model_true m) (seq 0 (2 * num_vars * k)).

Lemma slot_differs_same (num_vars k : nat) (m m' : model) :
  pq_values num_vars k m = pq_values num_vars k m' ->
  forall j, (j < k)%nat -> slot_differs num_vars k m m' j j = false.
Proof.
  intros E j Hj. unfold slot_differs.
  apply not_true_is_false. intro H. apply existsb_exists in H.
  destruct H as [l [Hl H]]. apply in_seq in Hl.
  assert (Hi : forall i, (i < 2 * num_vars * k)%nat -> model_true m i = model_true m' i).
  { intros i Hi. unfold pq_values in E.
    apply (f_equal (fun v => nth i v false)) in E.
    rewrite !(nth_indep _ false (model_true m 0%nat)) in E
      by (rewrite length_map, length_seq; lia).
    rewrite (map_nth (model_true m)), seq_nth in E by lia.
    rewrite (nth_indep _ _ (model_true m' 0%nat)) in E
      by (rewrite length_map, length_seq; lia).
    rewrite (map_nth (model_true m')), seq_nth in E by lia. exact E. }
  unfold p_of, q_of, p_var, q_var in H. cbn [Nat.add] in H.
  rewrite !var_value_of_nat in H.
  rewrite <- !Hi in H by nia.
  now rewrite !xorb_nilpotent in H.
Qed.

(** After the blocking clauses of [m] no model has the p/q values of
    [m]: the first clause of the loop, for the identity, forbids them. *)
Lemma blocked_pq_values (num_vars k : nat) (m m' : model) (cs : constraints) :
  satisfies m' (add_blocking_clauses num_vars k m cs) = true ->
  pq_values num_vars k m <> pq_values num_vars k m'.
Proof.
  rewrite satisfies_add_blocking_clauses. intros H E.
  apply andb_prop in H. destruct H as [_ H]. rewrite forallb_forall in H.
  destruct (visited_permutations_head k) as [rest Hh].
  specialize (H (seq 0 k)). rewrite Hh in H. specialize (H (or_introl eq_refl)).
  rewrite blocking_clause_sat in H. apply existsb_exists in H.
  destruct H as [j [Hj H]]. rewrite length_seq in Hj. apply in_seq in Hj.
  rewrite seq_nth in H by lia. cbn [Nat.add] in H.
  now rewrite (slot_differs_same _ _ _ _ E) in H by lia.
Qed.

(** ** The assignments of [n] variables *)

Lemma in_all_models (n : nat) (v : list bool) :
  length v = n -> In v (all_models n).
Proof.
  revert v. induction n as [|n IH]; intros v H.
  - destruct v; [now left | discriminate].
  - destruct v as [|b v]; [discriminate|]. cbn [all_models].
    apply in_flat_map. exists v. split; [apply IH; now inversion H|].
    destruct b; cbn; auto.
Qed.

Lemma length_all_models (n : nat) : length (all_models n) = (2 ^ n)%nat.
Proof.
  induction n as [|n IH]; [reflexivity|]. cbn [all_models].
  rewrite (length_flat_map_const _ _ 2%nat) by reflexivity.
  unfold model in *. rewrite IH. cbn [Nat.pow]. lia.
Qed.

Lemma all_models_length (n : nat) (v : list bool) :
  In v (all_models n) -> length v = n.
Proof.
  revert v. induction n as [|n IH]; intros v H.
  - destruct H as [<-|[]]. reflexivity.
  - cbn [all_models] in H. apply in_flat_map in H. destruct H as [u [Hu H]].
    destruct H as [<-|[<-|[]]]; cbn [length]; now rewrite (IH u Hu).
Qed.

(** ** Runs of the solve loop *)

Definition solver_sound (solve : constraints -> option model) : Prop :=
  forall cs m, solve cs = Some m -> satisfies m cs = true.

Definition solver_complete (solve : constraints -> option model) : Prop :=
  forall cs, solve cs = None -> forall m, satisfies m cs = false.

Section Runs.

Variable solve : constraints -> option model.
Variable cube_weight : nat -> kitty.cube -> Z.
Variable num_vars : nat.
Variable one : bool.
Variable k : nat.

(** The models that the loop takes into the solution list, in order: each
    is the answer of the solver to the constraints with the blocking
    clauses of the models before it, and none decodes to the empty
    ESOP. *)
Fixpoint found (cs : constraints) (ms : list model) : Prop :=
  match ms with
  | [] => True
  | m :: ms' =>
    solve cs = Some m /\ extract num_vars k m <> [] /\ one = false
    /\ found (add_blocking_clauses num_vars k m cs) ms'
  end.

Definition constraints_after (cs : constraints) (ms : list model) : constraints :=
  fold_left (fun cs m => add_blocking_clauses num_vars k m cs) ms cs.

Definition sorted_esops (ms : list model) : esops_t :=
  map (fun m => sort_cubes (cube_weight num_vars) (extract num_vars k m)) ms.

(** A run that ends: the loop takes some models, then the solver reports
    unsatisfiable or a model makes the loop return. *)
Lemma solve_loop_run (fuel : nat) :
  forall cs esops r log,
    solve_loop solve cube_weight num_vars one fuel k cs esops = (r, log) ->
    r <> OutOfFuel ->
    exists ms,
      found cs ms /\ (length ms < fuel)%nat
      /\ log = repeat (Ev_solve k) (S (length ms))
      /\ ((r = Exhausted (esops ++ sorted_esops ms)
           /\ solve (constraints_after cs ms) = None)
          \/ (exists m, solve (constraints_after cs ms) = Some m
                        /\ r = Return [extract num_vars k m]
                        /\ (extract num_vars k m = [] \/ one = true))).
Proof.
  induction fuel as [|f IH]; intros cs esops r log H Hr; cbn [solve_loop] in H.
  - inversion H; subst. congruence.
  - destruct (solve cs) as [m|] eqn:Es.
    + destruct (extract num_vars k m) as [|c e] eqn:Ee.
      * inversion H; subst. exists []. cbn. repeat split; try lia.
        right. exists m. rewrite Ee. auto.
      * destruct one eqn:Eo.
        -- inversion H; subst. exists []. cbn. repeat split; try lia.
           right. exists m. rewrite Ee. auto.
        -- destruct (solve_loop solve cube_weight num_vars false f k _ _)
             as [r' log'] eqn:El.
           inversion H; subst r log. destruct (IH _ _ _ _ El Hr)
             as [ms [Hf [Hlen [Hlog Hend]]]].
           exists (m :: ms). cbn [found length constraints_after fold_left].
           repeat split; try assumption; try lia.
           ++ rewrite Ee. discriminate.
           ++ rewrite Hlog. reflexivity.
           ++ destruct Hend as [[-> Hn]|[m' [Hs [-> Hx]]]].
              ** left. split; [|exact Hn]. unfold sorted_esops. cbn [map].
                 rewrite Ee, <- app_assoc. reflexivity.
              ** right. exists m'. auto.
    + inversion H; subst. exists []. cbn. repeat split; try lia.
      left. now rewrite app_nil_r.
Qed.

(** A run that takes models and then meets a model that makes the loop
    return: the solution list is dropped. *)
Lemma solve_loop_returns (ms : list model) :
  forall cs esops fuel m,
    found cs ms -> solve (constraints_after cs ms) = Some m ->
    extract num_vars k m = [] \/ one = true ->
    (length ms < fuel)%nat ->
    solve_loop solve cube_weight num_vars one fuel k cs esops
    = (Return [extract num_vars k m], repeat (Ev_solve k) (S (length ms))).
Proof.
  induction ms as [|m0 ms IH]; intros cs esops fuel m Hf Hs Hx Hlen;
    (destruct fuel as [|f]; [cbn [length] in Hlen; lia|]); cbn [solve_loop].
  - cbn in Hs. rewrite Hs. destruct Hx as [Hx|Hx].
    + rewrite Hx. reflexivity.
    + rewrite Hx. destruct (extract num_vars k m); reflexivity.
  - cbn [found] in Hf. destruct Hf as [Hs0 [Hne [Ho Hf]]]. rewrite Hs0.
    destruct (extract num_vars k m0) as [|c e] eqn:Ee; [congruence|].
    cbn [constraints_after fold_left] in Hs. cbn [length] in Hlen.
    pose proof (IH _ (esops ++ [sort_cubes (cube_weight num_vars) (c :: e)])
                  f m Hf Hs Hx ltac:(lia)) as E.
    rewrite Ho in E |- *. rewrite E. reflexivity.
Qed.

(** A run that is cut short has taken as many models as it had fuel. *)
Lemma solve_loop_out_of_fuel (fuel : nat) :
  forall cs esops log,
    solve_loop solve cube_weight num_vars one fuel k cs esops = (OutOfFuel, log) ->
    exists ms, found cs ms /\ length ms = fuel.
Proof.
  induction fuel as [|f IH]; intros cs esops log H; cbn [solve_loop] in H.
  - exists []. now split.
  - destruct (solve cs) as [m|] eqn:Es; [|discriminate].
    destruct (extract num_vars k m) as [|c e] eqn:Ee; [discriminate|].
    destruct one eqn:Eo; [discriminate|].
    destruct (solve_loop solve cube_weight num_vars false f k _ _)
      as [r' log'] eqn:El.
    inversion H; subst r'. destruct (IH _ _ _ El) as [ms [Hf Hlen]].
    exists (m :: ms). cbn [found length]. repeat split; try assumption; try lia.
    rewrite Ee. discriminate.
Qed.

Lemma satisfies_after (m' : model) (ms : list model) :
  forall cs,
    satisfies m' (constraints_after cs ms)
    = satisfies m' cs
      && forallb (fun m => forallb (fun vs => clause_sat m' (blocking_clause num_vars k m vs))
                                   (visited_permutations k)) ms.
Proof.
  induction ms as [|m ms IH]; intro cs; cbn [constraints_after fold_left forallb].
  - now rewrite andb_true_r.
  - fold (constraints_after (add_blocking_clauses num_vars k m cs) ms).
    rewrite IH, satisfies_add_blocking_clauses. now rewrite andb_assoc.
Qed.

Lemma found_app (ms1 ms2 : list model) :
  forall cs, found cs (ms1 ++ ms2)
             <-> found cs ms1 /\ found (constraints_after cs ms1) ms2.
Proof.
  induction ms1 as [|m ms1 IH]; intro cs; cbn [app found constraints_after fold_left].
  - tauto.
  - fold (constraints_after (add_blocking_clauses num_vars k m cs) ms1).
    rewrite IH. tauto.
Qed.

Hypothesis sound : solver_sound solve.

(** Every model taken satisfies the constraints the loop started from. *)
Lemma found_satisfies (ms : list model) :
  forall cs m, found cs ms -> In m ms -> satisfies m cs = true.
Proof.
  induction ms as [|m0 ms IH]; intros cs m Hf Hin; [contradiction|].
  cbn [found] in Hf. destruct Hf as [Hs [_ [_ Hf]]]. destruct Hin as [<-|Hin].
  - now apply sound.
  - specialize (IH _ _ Hf Hin). rewrite satisfies_add_blocking_clauses in IH.
    now apply andb_prop in IH.
Qed.

(** A model taken later satisfies the blocking clauses of every model
    taken before it. *)
Lemma found_blocked (ms1 ms2 : list model) (m1 m2 : model) (cs : constraints) :
  found cs (ms1 ++ m1 :: ms2) -> In m2 ms2 ->
  forall vs, In vs (visited_permutations k) ->
             clause_sat m2 (blocking_clause num_vars k m1 vs) = true.
Proof.
  intros Hf Hin vs Hvs. apply found_app in Hf. destruct Hf as [_ Hf].
  cbn [found] in Hf. destruct Hf as [_ [_ [_ Hf]]].
  pose proof (found_satisfies _ _ _ Hf Hin) as H.
  rewrite satisfies_add_blocking_clauses in H. apply andb_prop in H.
  destruct H as [_ H]. rewrite forallb_forall in H. now apply H.
Qed.

Lemma found_pq_distinct (ms : list model) :
  forall cs, found cs ms -> NoDup (map (pq_values num_vars k) ms).
Proof.
  induction ms as [|m ms IH]; intros cs Hf; cbn [map]; constructor.
  - intro Hin. apply in_map_iff in Hin. destruct Hin as [m' [E Hin]].
    cbn [found] in Hf. destruct Hf as [_ [_ [_ Hf]]].
    pose proof (found_satisfies _ _ _ Hf Hin) as H.
    apply blocked_pq_values in H. congruence.
  - cbn [found] in Hf. destruct Hf as [_ [_ [_ Hf]]]. exact (IH _ Hf).
Qed.

(** The loop takes at most as many models as there are assignments of
    the p and q variables. *)
Lemma found_bounded (ms : list model) (cs : constraints) :
  found cs ms -> (length ms <= 2 ^ (2 * num_vars * k))%nat.
Proof.
  intro Hf. rewrite <- (length_map (pq_values num_vars k)), <- length_all_models.
  apply NoDup_incl_length; [exact (found_pq_distinct _ _ Hf)|].
  intros v Hv. apply in_map_iff in Hv. destruct Hv as [m [<- _]].
  apply in_all_models. unfold pq_values. now rewrite length_map, length_seq.
Qed.

Lemma solve_loop_terminates (fuel : nat) (cs : constraints) (esops : esops_t) :
  (2 ^ (2 * num_vars * k) < fuel)%nat ->
  fst (solve_loop solve cube_weight num_vars one fuel k cs esops) <> OutOfFuel.
Proof.
  intros Hfuel H.
  destruct (solve_loop solve cube_weight num_vars one fuel k cs esops)
    as [r log] eqn:E.
  cbn [fst] in H. subst r. destruct (solve_loop_out_of_fuel _ _ _ _ E) as [ms [Hf Hlen]].
  pose proof (found_bounded _ _ Hf). lia.
Qed.

End Runs.

(** ** Runs of the loop over [k] *)

(** What is asked of the three stages of lines 146--148, and only where
    the function calls them: on the constraint set the encoder builds for
    a value of [k], with the [sid] the encoder hands over.  They add no
    model, *)
Definition preprocess_sound
  (gauss : constraints -> constraints)
  (to_cnf : nat -> constraints -> constraints)
  (breaking : constraints -> constraints)
  (binary : list ascii) (num_vars : nat) : Prop :=
  forall k m,
    satisfies m (preprocess gauss to_cnf breaking
                   (sid (encode binary num_vars k))
                   (cons (encode binary num_vars k))) = true ->
    satisfies m (cons (encode binary num_vars k)) = true.

(** and they keep a satisfiable set satisfiable. *)
Definition preprocess_complete
  (gauss : constraints -> constraints)
  (to_cnf : nat -> constraints -> constraints)
  (breaking : constraints -> constraints)
  (binary : list ascii) (num_vars : nat) : Prop :=
  forall k m,
    satisfies m (cons (encode binary num_vars k)) = true ->
    exists m', satisfies m' (preprocess gauss to_cnf breaking
                               (sid (encode binary num_vars k))
                               (cons (encode binary num_vars k))) = true.

Section Calls.

Variable gauss_elimination : constraints -> constraints.
Variable xor_clauses_to_cnf : nat -> constraints -> constraints.
Variable cnf_symmetry_breaking : constraints -> constraints.
Variable solve : constraints -> option model.
Variable cube_weight : nat -> kitty.cube -> Z.
Variable binary : list ascii.
Variable num_vars : nat.
Variable one : bool.

(** The constraints handed to the solver at the first call for [k]. *)
Definition solver_input (k : nat) : constraints :=
  preprocess gauss_elimination xor_clauses_to_cnf cnf_symmetry_breaking
    (sid (encode binary num_vars k)) (cons (encode binary num_vars k)).

(** The events of the values of [k] that give nothing: one encoding and
    one call of the solver each. *)
Definition idle_events (k0 n : nat) : list event :=
  flat_map (fun k => [Ev_encode k; Ev_solve k]) (seq k0 n).

(** The loop stops at [k] with the solutions [es]. *)
Definition stops_at (fuel k : nat) (es : esops_t) (log : list event) : Prop :=
  exists ms,
    found solve num_vars one k (solver_input k) ms
    /\ (length ms < fuel)%nat
    /\ log = Ev_encode k :: repeat (Ev_solve k) (S (length ms))
    /\ ((es = sorted_esops cube_weight num_vars k ms /\ ms <> []
         /\ solve (constraints_after num_vars k (solver_input k) ms) = None)
        \/ (exists m,
              solve (constraints_after num_vars k (solver_input k) ms) = Some m
              /\ es = [extract num_vars k m]
              /\ (extract num_vars k m = [] \/ one = true))).

Lemma attempt_eq (fuel k : nat) (esops : esops_t) :
  attempt gauss_elimination xor_clauses_to_cnf cnf_symmetry_breaking solve
    cube_weight binary num_vars one fuel k esops
  = let (r, log) := solve_loop solve cube_weight num_vars one fuel k
                      (solver_input k) esops in
    (r, Ev_encode k :: log).
Proof. reflexivity. Qed.

(** What a call that returns has done: every [k] before the last one
    gave "unsatisfiable" at the first call of the solver, and either no
    [k] is left or the loop stops at the last one. *)
Lemma k_loop_run (fuel : nat) (remaining : nat) :
  forall k es log,
    k_loop gauss_elimination xor_clauses_to_cnf cnf_symmetry_breaking solve
      cube_weight binary num_vars one fuel remaining k [] = (Returned es, log) ->
    exists n,
      (n <= remaining)%nat
      /\ (forall k', (k <= k' < k + n)%nat -> solve (solver_input k') = None)
      /\ ((n = remaining /\ es = [] /\ log = idle_events k n)
          \/ ((n < remaining)%nat
              /\ exists log', log = idle_events k n ++ log'
                              /\ stops_at fuel (k + n) es log')).
Proof.
  induction remaining as [|r IH]; intros k es log H; cbn [k_loop] in H.
  - inversion H; subst. exists 0%nat. split; [lia|]. split; [intros; lia|].
    left. auto.
  - rewrite attempt_eq in H.
    destruct (solve_loop solve cube_weight num_vars one fuel k (solver_input k) [])
      as [res slog] eqn:El.
    assert (Hrun : res <> OutOfFuel ->
                   exists ms,
                     found solve num_vars one k (solver_input k) ms
                     /\ (length ms < fuel)%nat
                     /\ slog = repeat (Ev_solve k) (S (length ms))
                     /\ ((res = Exhausted ([] ++ sorted_esops cube_weight num_vars k ms)
                          /\ solve (constraints_after num_vars k (solver_input k) ms) = None)
                         \/ (exists m,
                               solve (constraints_after num_vars k (solver_input k) ms) = Some m
                               /\ res = Return [extract num_vars k m]
                               /\ (extract num_vars k m = [] \/ one = true))))
      by (apply solve_loop_run; exact El).
    destruct res as [es'|es'|].
    + inversion H; subst es log. clear H.
      destruct (Hrun ltac:(discriminate)) as [ms [Hf [Hlen [Hlog Hend]]]].
      exists 0%nat. split; [lia|]. split; [intros; lia|]. right. split; [lia|].
      exists (Ev_encode k :: slog). split; [reflexivity|].
      rewrite Nat.add_0_r. exists ms.
      split; [exact Hf|]. split; [exact Hlen|]. split; [now rewrite Hlog|].
      destruct Hend as [[Hd _]|[m [Hs [Hr Hx]]]]; [discriminate|].
      right. exists m. inversion Hr. auto.
    + destruct (Hrun ltac:(discriminate)) as [ms [Hf [Hlen [Hlog Hend]]]].
      destruct Hend as [[Hr Hs]|[m [_ [Hr _]]]]; [|discriminate].
      cbn [app] in Hr. inversion Hr; subst es'. clear Hr.
      destruct ms as [|m0 ms].
      * cbn [sorted_esops map length Nat.ltb Nat.leb] in H.
        destruct (k_loop _ _ _ _ _ _ _ _ fuel r (S k) []) as [o log2] eqn:Ek.
        inversion H; subst o log. clear H.
        destruct (IH _ _ _ Ek) as [n [Hn [Hnone Hcase]]].
        exists (S n). split; [lia|]. split.
        { intros k' Hk'. destruct (Nat.eq_dec k' k) as [->|N].
          - exact Hs.
          - apply Hnone. lia. }
        cbn [length repeat] in Hlog. subst slog.
        destruct Hcase as [[-> [-> ->]]|[Hlt [log' [-> Hstop]]]].
        -- left. repeat split. 
        -- right. split; [lia|]. exists log'. split; [reflexivity|].
           replace (k + S n)%nat with (S k + n)%nat by lia. exact Hstop.
      * cbn [sorted_esops map length Nat.ltb Nat.leb] in H.
        inversion H; subst es log. clear H.
        exists 0%nat. split; [lia|]. split; [intros; lia|]. right. split; [lia|].
        exists (Ev_encode k :: slog). split; [reflexivity|].
        rewrite Nat.add_0_r. exists (m0 :: ms).
        split; [exact Hf|]. split; [exact Hlen|]. split; [now rewrite Hlog|].
        left. split; [reflexivity|]. split; [discriminate | exact Hs].
    + discriminate.
Qed.

End Calls.

(** ** Sorting keeps the cubes *)

Lemma insert_cube_permutation (w : kitty.cube -> Z) (c : kitty.cube) (l : esop_t) :
  Permutation (insert_cube w c l) (c :: l).
Proof.
  induction l as [|h t IH]; cbn [insert_cube]; [apply Permutation_refl|].
  destruct (w c <? w h); [apply Permutation_refl|].
  eapply perm_trans; [apply perm_skip, IH | apply perm_swap].
Qed.

Lemma sort_cubes_permutation (w : kitty.cube -> Z) (l : esop_t) :
  Permutation (sort_cubes w l) l.
Proof.
  induction l as [|c l IH]; cbn [sort_cubes fold_right]; [constructor|].
  eapply perm_trans; [apply insert_cube_permutation | apply perm_skip, IH].
Qed.

Lemma xor_all_permutation (a b : list bool) :
  Permutation a b -> xor_all a = xor_all b.
Proof.
  intro H. induction H as [|x a b H IH|x y a|a b c H1 IH1 H2 IH2];
    cbn [xor_all fold_right]; try reflexivity.
  - fold (xor_all a). fold (xor_all b). now rewrite IH.
  - now destruct x, y.
  - congruence.
Qed.

Lemma realizes_on_permutation (binary : list ascii) (num_vars : nat)
  (visited : list Z) (e e' : esop_t) :
  Permutation e e' ->
  realizes_on binary num_vars visited e = realizes_on binary num_vars visited e'.
Proof.
  intro H. unfold realizes_on. apply forallb_ext_in. intros bits _.
  unfold agrees, esop_value.
  now rewrite (xor_all_permutation _ _ (Permutation_map _ H)).
Qed.

Lemma length_extract (num_vars k : nat) (m : model) :
  (length (extract num_vars k m) <= k)%nat.
Proof.
  rewrite extract_eq, length_map.
  pose proof (filter_length_le (fun j => negb (void num_vars k m j)) (seq 0 k)) as H.
  now rewrite length_seq in H.
Qed.

Lemma found_nonempty (solve : constraints -> option model) (num_vars : nat)
  (one : bool) (k : nat) (ms : list model) :
  forall cs m, found solve num_vars one k cs ms -> In m ms ->
               extract num_vars k m <> [] /\ one = false.
Proof.
  induction ms as [|m0 ms IH]; intros cs m Hf Hin; [contradiction|].
  cbn [found] in Hf. destruct Hf as [_ [Hne [Ho Hf]]].
  destruct Hin as [<-|Hin]; [now split | exact (IH _ _ Hf Hin)].
Qed.

(** ** What a returned ESOP computes *)

Section Returned.

Variable gauss_elimination : constraints -> constraints.
Variable xor_clauses_to_cnf : nat -> constraints -> constraints.
Variable cnf_symmetry_breaking : constraints -> constraints.
Variable solve : constraints -> option model.
Variable cube_weight : nat -> kitty.cube -> Z.
Variable binary : list ascii.
Variable num_vars : nat.
Variable one : bool.

Hypothesis sound : solver_sound solve.
Hypothesis pre_sound :
  preprocess_sound gauss_elimination xor_clauses_to_cnf cnf_symmetry_breaking
    binary num_vars.

Let input := solver_input gauss_elimination xor_clauses_to_cnf
               cnf_symmetry_breaking binary num_vars.

(** The models the loop meets at [k] are models of the constraint set
    of [k]. *)
Lemma stops_at_models (fuel k : nat) (es : esops_t) (log : list event) :
  stops_at gauss_elimination xor_clauses_to_cnf cnf_symmetry_breaking solve
    cube_weight binary num_vars one fuel k es log ->
  forall e, In e es ->
    exists m, satisfies m (cons (encode binary num_vars k)) = true
              /\ Permutation e (extract num_vars k m)
              /\ (extract num_vars k m = [] -> es = [[]]).
Proof.
  intros [ms [Hf [_ [_ Hend]]]] e He.
  destruct Hend as [[-> [_ _]]|[m [Hs [-> Hx]]]].
  - unfold sorted_esops in He. apply in_map_iff in He. destruct He as [m [<- Hm]].
    exists m. split; [|split].
    + apply (pre_sound k).
      exact (found_satisfies _ _ _ _ sound _ _ _ Hf Hm).
    + apply sort_cubes_permutation.
    + intro E. now destruct (found_nonempty _ _ _ _ _ _ _ Hf Hm).
  - destruct He as [<-|[]]. exists m. split; [|split].
    + apply (pre_sound k).
      apply sound in Hs. rewrite satisfies_after in Hs.
      now apply andb_prop in Hs.
    + apply Permutation_refl.
    + intro E. now rewrite E.
Qed.

(** Every ESOP of a returned result gives the symbol of the table at
    every visited row with symbol '0' or '1'. *)
Lemma returned_esops_realize (fuel remaining k : nat) (es : esops_t) (log : list event) :
  (num_vars <= 32)%nat ->
  k_loop gauss_elimination xor_clauses_to_cnf cnf_symmetry_breaking solve
    cube_weight binary num_vars one fuel remaining k [] = (Returned es, log) ->
  forall e, In e es ->
            realizes_on binary num_vars (visited_rows num_vars) e = true.
Proof.
  intros Hn H e He. apply k_loop_run in H.
  destruct H as [n [_ [_ [[_ [-> _]]|[_ [log' [_ Hstop]]]]]]]; [contradiction|].
  destruct (stops_at_models _ _ _ _ Hstop e He) as [m [Hm [Hp _]]].
  rewrite (realizes_on_permutation _ _ _ _ _ Hp).
  now apply model_realizes.
Qed.

End Returned.

(** ** Accepted and rejected tables *)

Lemma wrap64_pow2 (n : nat) :
  (n < 64)%nat -> wrap64 (Z.shiftl 1 (Z.of_nat n)) = Z.of_nat (2 ^ n).
Proof.
  intro H. unfold wrap64. rewrite shiftl_1, Nat2Z.inj_pow. apply Z.mod_small.
  split; [apply Z.pow_nonneg; lia|]. apply Z.pow_lt_mono_r; lia.
Qed.

Lemma accepted_call
  (gauss : constraints -> constraints) (to_cnf : nat -> constraints -> constraints)
  (breaking : constraints -> constraints) (solve : constraints -> option model)
  (w : nat -> kitty.cube -> Z) (fuel : nat) (binary : list ascii) (cfg : config)
  (n : nat) :
  length binary = (2 ^ n)%nat -> (n <= 32)%nat ->
  exact_synthesis_from_binary_string_log gauss to_cnf breaking solve w fuel binary cfg
  = k_loop gauss to_cnf breaking solve w binary n
      (match one_esop cfg with Some b => b | None => true end) fuel
      (match maximum_cubes cfg with Some c => c | None => 10%nat end) 1 [].
Proof.
  intros Hlen Hn. unfold exact_synthesis_from_binary_string_log.
  rewrite Hlen, Nat.log2_pow2 by lia. rewrite wrap64_pow2 by lia.
  rewrite Z.eqb_refl. cbn [negb].
  replace (n <=? 32)%nat with true by (symmetry; apply Nat.leb_le; lia).
  reflexivity.
Qed.

(** ** The reference solver is sound and complete *)

Lemma search_solve_sound : solver_sound search_solve.
Proof.
  intros cs m H. unfold search_solve in H. now apply find_some in H.
Qed.

Lemma fold_max_le (l : list nat) (x : nat) :
  In x l -> (x <= fold_right Nat.max 1 l)%nat.
Proof.
  induction l as [|y l IH]; intro H; [contradiction|].
  cbn [fold_right]. destruct H as [->|H]; [lia|]. specialize (IH H). lia.
Qed.

Lemma fold_max_pos (l : list nat) : (1 <= fold_right Nat.max 1 l)%nat.
Proof. induction l; cbn [fold_right]; lia. Qed.

(** The first [n] values of a model. *)
Definition truncate (n : nat) (m : model) : model :=
  map (model_true m) (seq 0 n).

Lemma var_value_truncate (n : nat) (m : model) (v : Z) :
  (Z.to_nat (Z.abs v) <= n)%nat -> (1 <= n)%nat ->
  var_value (truncate n m) v = var_value m v.
Proof.
  intros Hv Hn. unfold var_value, truncate. apply model_true_map. lia.
Qed.

Lemma lit_value_truncate (n : nat) (m : model) (lit : Z) :
  (Z.to_nat (Z.abs lit) <= n)%nat -> (1 <= n)%nat ->
  lit_value (truncate n m) lit = lit_value m lit.
Proof.
  intros Hv Hn. unfold lit_value.
  destruct (0 <? lit); [|f_equal]; apply var_value_truncate; lia.
Qed.

Lemma satisfies_truncate (m : model) (cs : constraints) :
  satisfies (truncate (max_var cs) m) cs = satisfies m cs.
Proof.
  pose proof (fold_max_pos (map (fun l => Z.to_nat (Z.abs l))
    (concat (clauses cs) ++ concat (map fst (xor_clauses cs))))) as Hpos.
  assert (Hle : forall v, In v (concat (clauses cs) ++ concat (map fst (xor_clauses cs)))
                          -> (Z.to_nat (Z.abs v) <= max_var cs)%nat).
  { intros v Hv. unfold max_var. apply fold_max_le.
    apply in_map_iff. now exists v. }
  fold (max_var cs) in Hpos.
  unfold satisfies. f_equal.
  - apply forallb_ext_in. intros c Hc. unfold clause_sat.
    apply existsb_ext_in. intros lit Hl. apply lit_value_truncate; [|exact Hpos].
    apply Hle, in_or_app. left. apply in_concat. now exists c.
  - apply forallb_ext_in. intros [vars b] Hx. unfold xor_sat, parity. cbn [fst snd].
    f_equal. f_equal. apply map_ext_in. intros v Hv.
    apply var_value_truncate; [|exact Hpos].
    apply Hle, in_or_app. right. apply in_concat. exists vars. split; [|exact Hv].
    apply in_map_iff. now exists (vars, b).
Qed.

Lemma search_solve_complete : solver_complete search_solve.
Proof.
  intros cs H m. unfold search_solve in H.
  rewrite <- satisfies_truncate.
  apply (find_none _ _ H). apply in_all_models.
  unfold truncate. now rewrite length_map, length_seq.
Qed.

Lemma keep_sound (binary : list ascii) (num_vars : nat) :
  preprocess_sound keep keep_from keep binary num_vars.
Proof. intros k m H. exact H. Qed.

Lemma keep_complete (binary : list ascii) (num_vars : nat) :
  preprocess_complete keep keep_from keep binary num_vars.
Proof. intros k m H. exists m. exact H. Qed.

(** ** Rows and patterns *)

(** The row whose bit [l] is [P l], for [l] below [n]. *)
Fixpoint bits_of (P : nat -> bool) (n : nat) : Z :=
  match n with
  | O => 0
  | S n' => if P n' then Z.lor (bits_of P n') (Z.shiftl 1 (Z.of_nat n'))
            else bits_of P n'
  end.

Lemma bits_of_spec (P : nat -> bool) (n x : nat) :
  Z.testbit (bits_of P n) (Z.of_nat x) = (x <? n)%nat && P x.
Proof.
  induction n as [|n IH]; cbn [bits_of].
  - now rewrite Z.testbit_0_l.
  - assert (Hlt : (x <? S n)%nat = (x <? n)%nat || (n =? x)%nat).
    { destruct (Nat.ltb_spec x (S n)), (Nat.ltb_spec x n), (Nat.eqb_spec n x);
        cbn; try reflexivity; lia. }
    rewrite Hlt. destruct (P n) eqn:Pn.
    + rewrite Z.lor_spec, testbit_shiftl_1, IH.
      destruct (Nat.eqb_spec n x) as [->|N].
      * rewrite Pn. now rewrite !orb_true_r.
      * now rewrite !orb_false_r.
    + rewrite IH. destruct (Nat.eqb_spec n x) as [->|N].
      * rewrite Pn. now rewrite !andb_false_r.
      * now rewrite orb_false_r.
Qed.

Lemma bits_of_range (P : nat -> bool) (n : nat) :
  0 <= bits_of P n < 2 ^ Z.of_nat n.
Proof.
  assert (E : bits_of P n mod 2 ^ Z.of_nat n = bits_of P n).
  { apply Z.bits_inj'. intros i Hi.
    destruct (Z.ltb_spec i (Z.of_nat n)) as [L|G].
    - apply Z.mod_pow2_bits_low. lia.
    - rewrite Z.mod_pow2_bits_high by lia.
      rewrite <- (Z2Nat.id i Hi), bits_of_spec.
      replace (Z.to_nat i <? n)%nat with false; [reflexivity|].
      symmetry. apply Nat.ltb_ge. lia. }
  rewrite <- E. apply Z.mod_pos_bound. apply Z.pow_pos_nonneg; lia.
Qed.

Lemma in_rows (num_vars : nat) (b : Z) :
  In b (rows num_vars) <-> 0 <= b < 2 ^ Z.of_nat num_vars.
Proof.
  unfold rows. rewrite in_map_iff. split.
  - intros [i [<- Hi]]. apply in_seq in Hi.
    assert (Z.of_nat (2 ^ num_vars) = 2 ^ Z.of_nat num_vars)
      by (now rewrite Nat2Z.inj_pow).
    lia.
  - intro H. exists (Z.to_nat b). split; [lia|]. apply in_seq.
    assert (Z.of_nat (2 ^ num_vars) = 2 ^ Z.of_nat num_vars)
      by (now rewrite Nat2Z.inj_pow).
    lia.
Qed.

(** A term that is not void is compatible with the row of its positive
    literals. *)
Lemma compatible_bits_of (num_vars : nat) (P Q : nat -> bool) :
  (forall l, (l < num_vars)%nat -> P l && Q l = false) ->
  compatible num_vars P Q (bits_of P num_vars) = true.
Proof.
  intro H. unfold compatible. apply forallb_forall. intros l Hl.
  apply in_seq in Hl. rewrite bits_of_spec.
  replace (l <? num_vars)%nat with true by (symmetry; apply Nat.ltb_lt; lia).
  specialize (H l ltac:(lia)). cbn [andb].
  now destruct (P l), (Q l).
Qed.

(** ** Constraint sets without a model *)

Section Unsatisfiable.

Variable gauss_elimination : constraints -> constraints.
Variable xor_clauses_to_cnf : nat -> constraints -> constraints.
Variable cnf_symmetry_breaking : constraints -> constraints.
Variable solve : constraints -> option model.
Variable binary : list ascii.
Variable num_vars : nat.

Hypothesis complete : solver_complete solve.
Hypothesis pre_complete :
  preprocess_complete gauss_elimination xor_clauses_to_cnf cnf_symmetry_breaking
    binary num_vars.

(** When the first call of the solver for [k] reports unsatisfiable, no
    ESOP with at most [k] cubes gives the symbols of the visited rows. *)
Lemma unsat_no_esop (k : nat) (e : esop_t) :
  solve (solver_input gauss_elimination xor_clauses_to_cnf
           cnf_symmetry_breaking binary num_vars k) = None ->
  (length e <= k)%nat -> (length e < k -> 0 < num_vars)%nat ->
  realizes_on binary num_vars (visited_rows num_vars) e = false.
Proof.
  intros Hs Hk Hn. apply not_true_is_false. intro Hr.
  pose proof (esop_has_model binary num_vars k e Hk Hn Hr) as Hm.
  destruct (pre_complete k _ Hm) as [m' Hm'].
  pose proof (complete _ Hs m') as Hc. unfold solver_input in Hc. congruence.
Qed.

End Unsatisfiable.

(** * The properties of the specification *)

(** ** The constant-zero table *)

Lemma char_at_zeros (n : nat) (b : Z) :
  0 <= b < Z.of_nat n -> char_at (repeat "0"%char n) b = "0"%char.
Proof.
  intro H. unfold char_at.
  rewrite (nth_indep _ _ "0"%char) by (rewrite repeat_length; lia).
  apply nth_repeat.
Qed.

Lemma is_one_zeros (n : nat) (b : Z) :
  is_one (char_at (repeat "0"%char n) b) = false.
Proof.
  unfold char_at.
  destruct (nth_in_or_default (Z.to_nat b) (repeat "0"%char n) Ascii.zero) as [H|H].
  - apply repeat_spec in H. now rewrite H.
  - now rewrite H.
Qed.

Lemma empty_esop_realizes_zeros (n num_vars : nat) (visited : list Z) :
  realizes_on (repeat "0"%char n) num_vars visited [] = true.
Proof.
  unfold realizes_on. apply forallb_forall. intros b _. unfold agrees.
  rewrite is_one_zeros. now destruct (is_zero _).
Qed.

(** A model of the constraint set of [k = 1] for the constant-zero table
    has a void term. *)
Lemma zeros_model_is_void (num_vars : nat) (m : model) :
  (num_vars <= 31)%nat ->
  satisfies m (cons (encode (repeat "0"%char (2 ^ num_vars)) num_vars 1)) = true ->
  extract num_vars 1 m = [].
Proof.
  intros Hn Hm. rewrite extract_eq. cbn [seq filter].
  destruct (void num_vars 1 m 0) eqn:V; [reflexivity|]. exfalso.
  pose proof (model_realizes _ num_vars 1 ltac:(lia) m Hm) as Hr.
  rewrite visited_rows_small in Hr by assumption.
  unfold realizes_on in Hr. rewrite forallb_forall in Hr.
  set (b := bits_of (p_of num_vars 1 m 0) num_vars).
  pose proof (bits_of_range (p_of num_vars 1 m 0) num_vars) as Hb. fold b in Hb.
  specialize (Hr b (proj2 (in_rows num_vars b) Hb)).
  unfold agrees in Hr. rewrite char_at_zeros in Hr
    by (rewrite Nat2Z.inj_pow; exact Hb).
  change (is_zero "0"%char) with true in Hr. cbn match in Hr.
  rewrite esop_value_extract in Hr by lia. cbn [seq map xor_all fold_right] in Hr.
  unfold b in Hr. rewrite compatible_bits_of in Hr; [discriminate|].
  intros l Hl. now apply (void_false num_vars 1 ltac:(lia) m 0 l V).
Qed.

(** With at least one and at most 31 variables, identifiers that fit an
    [int] for [k = 1] and a maximum of at least one cube, the
    constant-zero table gives the single empty ESOP, after one encoding
    and one call of the solver, both for [k = 1]; the solver is sound and
    complete and the preprocessing keeps the models of the constraints. *)
Theorem constant_zero_gives_the_empty_esop
  (gauss : constraints -> constraints) (to_cnf : nat -> constraints -> constraints)
  (breaking : constraints -> constraints) (solve : constraints -> option model)
  (w : nat -> kitty.cube -> Z) (fuel num_vars : nat) (cfg : config) :
  solver_sound solve -> solver_complete solve ->
  preprocess_sound gauss to_cnf breaking (repeat "0"%char (2 ^ num_vars)) num_vars ->
  preprocess_complete gauss to_cnf breaking (repeat "0"%char (2 ^ num_vars)) num_vars ->
  (1 <= num_vars <= 31)%nat ->
  identifiers_fit (repeat "0"%char (2 ^ num_vars)) num_vars 1 ->
  (1 <= fuel)%nat ->
  (1 <= match maximum_cubes cfg with Some c => c | None => 10 end)%nat ->
  exact_synthesis_from_binary_string_log gauss to_cnf breaking solve w fuel
    (repeat "0"%char (2 ^ num_vars)) cfg
  = (Returned [[]], [Ev_encode 1; Ev_solve 1]).
Proof.
  intros Hsound Hcomplete Hps Hpc Hn _ Hfuel Hmax.
  rewrite (accepted_call _ _ _ _ _ _ _ _ num_vars)
    by (try apply repeat_length; lia).
  destruct (match maximum_cubes cfg with Some c => c | None => 10%nat end)
    as [|r]; [lia|].
  destruct fuel as [|f]; [lia|].
  cbn [k_loop]. rewrite attempt_eq. cbn [solve_loop].
  set (input := solver_input gauss to_cnf breaking
                  (repeat "0"%char (2 ^ num_vars)) num_vars 1).
  destruct (solve input) as [m|] eqn:Es.
  - assert (Hm : satisfies m (cons (encode (repeat "0"%char (2 ^ num_vars)) num_vars 1)) = true).
    { apply (Hps 1%nat). apply Hsound. exact Es. }
    rewrite (zeros_model_is_void num_vars m ltac:(lia) Hm). reflexivity.
  - exfalso.
    pose proof (unsat_no_esop gauss to_cnf breaking solve
                  (repeat "0"%char (2 ^ num_vars)) num_vars Hcomplete Hpc 1 []
                  Es ltac:(cbn; lia) ltac:(intros; lia)) as H.
    now rewrite empty_esop_realizes_zeros in H.
Qed.

(** C7, at the table "0": the constant-zero table of no variable has one
    row and no variable to make a term void.  The constraint set of
    [k = 1] asks the one coverage variable to be true (the converse
    clause) and of even parity: it has no model.  That of [k = 2] has one,
    and the function returns the ESOP of two cubes without a literal, not
    the empty ESOP, after two encodings and two calls of the solver; this
    for every sound and complete solver and every preprocessing that keeps
    the models, in single-solution mode with a maximum of at least two
    cubes.  The empty ESOP computes the table and the identifiers are
    small. *)
Theorem constant_zero_of_no_variable_gets_two_cubes
  (gauss : constraints -> constraints) (to_cnf : nat -> constraints -> constraints)
  (breaking : constraints -> constraints) (solve : constraints -> option model)
  (w : nat -> kitty.cube -> Z) (fuel : nat) (cfg : config) :
  solver_sound solve -> solver_complete solve ->
  preprocess_sound gauss to_cnf breaking ["0"%char] 0 ->
  preprocess_complete gauss to_cnf breaking ["0"%char] 0 ->
  (1 <= fuel)%nat ->
  (2 <= match maximum_cubes cfg with Some c => c | None => 10 end)%nat ->
  one_esop cfg <> Some false ->
  exact_synthesis_from_binary_string_log gauss to_cnf breaking solve w fuel
    ["0"%char] cfg
  = (Returned [[kitty.empty; kitty.empty]],
     [Ev_encode 1; Ev_solve 1; Ev_encode 2; Ev_solve 2])
  /\ realizes ["0"%char] 0 [] = true
  /\ identifiers_fit ["0"%char] 0 2.
Proof.
  intros Hsound Hcomplete Hps Hpc Hfuel Hmax Hone.
  split; [|split; [reflexivity | vm_compute; discriminate]].
  rewrite (accepted_call _ _ _ _ _ _ _ _ 0) by (cbn; lia).
  replace (match one_esop cfg with Some b => b | None => true end) with true
    by (destruct (one_esop cfg) as [[|]|]; congruence).
  destruct (match maximum_cubes cfg with Some c => c | None => 10%nat end)
    as [|[|r]]; [lia|lia|].
  destruct fuel as [|f]; [lia|].
  cbn [k_loop]. rewrite !attempt_eq. cbn [solve_loop].
  destruct (solve (solver_input gauss to_cnf breaking ["0"%char] 0 1))
    as [m|] eqn:E1.
  - exfalso. apply Hsound, (Hps 1%nat) in E1.
    change (cons (encode ["0"%char] 0 1))
      with (mk_constraints [[1]] [([1], false)]) in E1.
    unfold satisfies, clause_sat, xor_sat, parity, lit_value in E1.
    cbn in E1. destruct (var_value m 1); discriminate.
  - cbn [length Nat.ltb Nat.leb app k_loop]. rewrite attempt_eq.
    cbn [solve_loop].
    destruct (solve (solver_input gauss to_cnf breaking ["0"%char] 0 2))
      as [m|] eqn:E2.
    + reflexivity.
    + exfalso.
      destruct (Hpc 2%nat [true; true] eq_refl) as [m' Hm'].
      pose proof (Hcomplete _ E2 m') as H.
      unfold solver_input in H. congruence.
Qed.

(** ** Rejected tables *)

(** C8: a table whose length is not a power of two, or is more than
    [2^32], fails an assertion; nothing has been encoded and the solver
    has not been called. *)
Theorem malformed_table_is_rejected
  (gauss : constraints -> constraints) (to_cnf : nat -> constraints -> constraints)
  (breaking : constraints -> constraints) (solve : constraints -> option model)
  (w : nat -> kitty.cube -> Z) (fuel : nat) (binary : list ascii) (cfg : config) :
  (forall n : nat, length binary <> (2 ^ n)%nat) \/ 2 ^ 32 < Z.of_nat (length binary) ->
  exists msg,
    exact_synthesis_from_binary_string_log gauss to_cnf breaking solve w fuel
      binary cfg = (AssertFailed msg, []).
Proof.
  intro H. unfold exact_synthesis_from_binary_string_log.
  set (nv := Nat.log2 (length binary)).
  destruct (Z.eqb_spec (Z.of_nat (length binary)) (wrap64 (Z.shiftl 1 (Z.of_nat nv))))
    as [E|N]; cbn [negb]; [|eexists; reflexivity].
  assert (Hnv : (nv < 64)%nat).
  { destruct (Nat.lt_ge_cases nv 64) as [L|G]; [exact L|]. exfalso.
    unfold wrap64 in E. rewrite shiftl_1 in E.
    replace (Z.of_nat nv) with (64 + (Z.of_nat nv - 64)) in E by lia.
    rewrite Z.pow_add_r, Z.mul_comm, Z_mod_mult in E by lia.
    assert (length binary = 0%nat) by lia.
    unfold nv in G. rewrite H0 in G. cbn in G. lia. }
  rewrite wrap64_pow2 in E by exact Hnv. apply Nat2Z.inj in E.
  destruct H as [H|H]; [now elim (H nv)|].
  replace (nv <=? 32)%nat with false; [cbn [negb]; eexists; reflexivity|].
  symmetry. apply Nat.leb_gt.
  destruct (Nat.lt_ge_cases 32 nv) as [L|G]; [exact L|]. exfalso.
  rewrite E, Nat2Z.inj_pow in H.
  assert (2 ^ Z.of_nat nv <= 2 ^ 32) by (apply Z.pow_le_mono_r; lia).
  change (Z.of_nat 2) with 2 in H. lia.
Qed.

(** ** The empty-cover return *)

(** C10: when, after any number of solutions taken into the solution
    list, a model decodes to the ESOP without cubes, the call returns the
    single empty ESOP: the solutions taken for this [k], and whatever the
    list held, are not returned.  This holds in both modes. *)
Theorem empty_esop_discards_the_solution_list
  (gauss : constraints -> constraints) (to_cnf : nat -> constraints -> constraints)
  (breaking : constraints -> constraints) (solve : constraints -> option model)
  (w : nat -> kitty.cube -> Z) (binary : list ascii) (num_vars : nat) (one : bool)
  (fuel remaining k : nat) (esops : esops_t) (ms : list model) (m : model) :
  let input := solver_input gauss to_cnf breaking binary num_vars k in
  found solve num_vars one k input ms ->
  solve (constraints_after num_vars k input ms) = Some m ->
  extract num_vars k m = [] ->
  (length ms < fuel)%nat ->
  k_loop gauss to_cnf breaking solve w binary num_vars one fuel (S remaining) k esops
  = (Returned [[]], Ev_encode k :: repeat (Ev_solve k) (S (length ms))).
Proof.
  intros input Hf Hs He Hlen. cbn [k_loop]. rewrite attempt_eq. fold input.
  rewrite (solve_loop_returns solve w num_vars one k ms input esops fuel m Hf Hs
             (or_introl He) Hlen).
  now rewrite He.
Qed.

(** ** Termination of the solve loop *)

Lemma blocking_clause_forbids (num_vars k : nat) (m m' : model) (vs : list nat) :
  length vs = k ->
  clause_sat m' (blocking_clause num_vars k m vs) = true ->
  exists j l, (j < k)%nat /\ (l < num_vars)%nat
              /\ (p_of num_vars k m j l <> p_of num_vars k m' (nth j vs O) l
                  \/ q_of num_vars k m j l <> q_of num_vars k m' (nth j vs O) l).
Proof.
  intros Hlen H. rewrite blocking_clause_sat, Hlen in H.
  apply existsb_exists in H. destruct H as [j [Hj H]]. apply in_seq in Hj.
  unfold slot_differs in H. apply existsb_exists in H.
  destruct H as [l [Hl H]]. apply in_seq in Hl.
  exists j, l. split; [lia|]. split; [lia|].
  apply orb_prop in H. destruct H as [H|H]; [left|right]; intro E;
    rewrite E, xorb_nilpotent in H; discriminate.
Qed.

(** C6: with a solver that returns only satisfying assignments, the
    solve loop of any [k] ends within [2^(2 n k) + 1] calls of the solver;
    each solution taken adds [k!] blocking clauses; and a model of the
    constraints with these clauses differs, for every permutation [vs] of
    the [k] slots, from the solution with the pattern of slot [j] moved
    to slot [vs[j]]. *)
Theorem solve_loop_ends
  (solve : constraints -> option model) (w : nat -> kitty.cube -> Z)
  (num_vars : nat) (one : bool) (k fuel : nat) (cs : constraints) (esops : esops_t) :
  solver_sound solve ->
  (2 ^ (2 * num_vars * k) < fuel)%nat ->
  fst (solve_loop solve w num_vars one fuel k cs esops) <> OutOfFuel
  /\ (forall m, length (clauses (add_blocking_clauses num_vars k m cs))
                = (length (clauses cs) + fact k)%nat)
  /\ (forall m m' vs,
        satisfies m' (add_blocking_clauses num_vars k m cs) = true ->
        Permutation vs (seq 0 k) ->
        exists j l, (j < k)%nat /\ (l < num_vars)%nat
                    /\ (p_of num_vars k m j l <> p_of num_vars k m' (nth j vs O) l
                        \/ q_of num_vars k m j l <> q_of num_vars k m' (nth j vs O) l)).
Proof.
  intros Hsound Hfuel. split; [|split].
  - now apply solve_loop_terminates.
  - intro m. rewrite add_blocking_clauses_eq. cbn [clauses].
    rewrite length_app, length_map. f_equal. apply visited_permutations_spec.
  - intros m m' vs H Hp. rewrite satisfies_add_blocking_clauses in H.
    apply andb_prop in H. destruct H as [_ H]. rewrite forallb_forall in H.
    apply blocking_clause_forbids.
    + apply Permutation_length in Hp. now rewrite length_seq in Hp.
    + apply H. now apply visited_permutations_spec.
Qed.

(** ** Tables of 32 variables *)

(** The assignment with p(0,0) and q(0,0) true and every other variable
    false, for 32 variables and one term. *)
Definition void_model_32 : model :=
  (true :: repeat false 31) ++ (true :: repeat false 31) ++ [false].

(** C1, at 32 variables: for a table that starts with '0' then '1', the
    constraint set of [k = 1] holds the constraints of row 0 alone; the
    assignment that makes the one term void satisfies it; with a solver
    that gives this assignment the call returns the empty ESOP, which is
    0 at row 1 where the table says '1'. *)
Theorem thirty_two_variables_lose_rows (rest : list ascii) (w : nat -> kitty.cube -> Z)
  (one : bool) (fuel remaining : nat) :
  let binary := "0"%char :: "1"%char :: rest in
  satisfies void_model_32 (cons (encode binary 32 1)) = true
  /\ fst (k_loop keep keep_from keep (fun _ => Some void_model_32) w binary 32 one
            (S fuel) (S remaining) 1 [])
     = Returned [[]]
  /\ agrees binary 32 [] 1 = false.
Proof.
  cbn zeta. split; [|split].
  - vm_compute. reflexivity.
  - cbn [k_loop]. rewrite attempt_eq. cbn [solve_loop].
    replace (extract 32 1 void_model_32) with (@nil kitty.cube) by (vm_compute; reflexivity).
    reflexivity.
  - reflexivity.
Qed.

(** ** Sizes of the returned ESOPs *)

Lemma forall_or {A} (P : A -> Prop) (Q : Prop) (l : list A) :
  (forall x, In x l -> P x \/ Q) -> (forall x, In x l -> P x) \/ Q.
Proof.
  induction l as [|x l IH]; intro H; [left; intros ? []|].
  destruct (H x (or_introl eq_refl)) as [Hx|Hq]; [|now right].
  destruct IH as [Hl|Hq]; [intros; apply H; now right | | now right].
  left. intros y [<-|Hy]; auto.
Qed.

Lemma idle_events_unsat_before
  (gauss : constraints -> constraints) (to_cnf : nat -> constraints -> constraints)
  (breaking : constraints -> constraints) (solve : constraints -> option model)
  (binary : list ascii) (num_vars : nat) (n : nat) :
  solver_complete solve ->
  preprocess_complete gauss to_cnf breaking binary num_vars ->
  (0 < num_vars)%nat ->
  (forall k', (1 <= k' < 1 + n)%nat ->
              solve (solver_input gauss to_cnf breaking binary num_vars k') = None) ->
  forall k' e, (1 <= k' < 1 + n)%nat -> (length e <= k')%nat ->
               realizes_on binary num_vars (visited_rows num_vars) e = false.
Proof.
  intros Hc Hpc Hn Hnone k' e Hk He.
  apply (unsat_no_esop gauss to_cnf breaking solve binary num_vars Hc Hpc k' e);
    [apply Hnone; lia | exact He | intros; exact Hn].
Qed.

(** C2, amended: for a table of 1 to 31 variables, a sound and complete
    solver and a preprocessing that keeps the models of the constraint
    sets it is given, a call that returns at least one ESOP, and in which
    the identifiers of every [k] tried fit an [int], has stopped at the
    smallest [k] between 1 and the maximum for which an ESOP with at most
    [k] cubes computes the function: every [k] before it took one
    encoding and one call of the solver.  Every returned ESOP computes
    the function, and all of them have [k] cubes unless the result is the
    single empty ESOP. *)
Theorem result_has_minimal_size
  (gauss : constraints -> constraints) (to_cnf : nat -> constraints -> constraints)
  (breaking : constraints -> constraints) (solve : constraints -> option model)
  (w : nat -> kitty.cube -> Z) (fuel : nat) (binary : list ascii) (cfg : config)
  (num_vars : nat) (es : esops_t) (log : list event) :
  solver_sound solve -> solver_complete solve ->
  preprocess_sound gauss to_cnf breaking binary num_vars ->
  preprocess_complete gauss to_cnf breaking binary num_vars ->
  length binary = (2 ^ num_vars)%nat -> (1 <= num_vars <= 31)%nat ->
  exact_synthesis_from_binary_string_log gauss to_cnf breaking solve w fuel
    binary cfg = (Returned es, log) ->
  (forall k, In (Ev_encode k) log -> identifiers_fit binary num_vars k) ->
  es <> [] ->
  exists k,
    (1 <= k <= match maximum_cubes cfg with Some c => c | None => 10 end)%nat
    /\ (forall e, In e es ->
          realizes binary num_vars e = true /\ (length e <= k)%nat)
    /\ (forall k' e, (1 <= k' < k)%nat -> (length e <= k')%nat ->
                     realizes binary num_vars e = false)
    /\ ((forall e, In e es -> length e = k) \/ es = [[]])
    /\ (exists calls,
          log = idle_events 1 (k - 1)
                ++ Ev_encode k :: repeat (Ev_solve k) (S calls)).
Proof.
  intros Hsound Hcomplete Hps Hpc Hlen Hn H _ Hne.
  rewrite (accepted_call _ _ _ _ _ _ _ _ num_vars) in H by (try assumption; lia).
  apply k_loop_run in H.
  destruct H as [n [Hle [Hnone [[_ [-> _]]|[Hlt [log' [-> Hstop]]]]]]];
    [congruence|].
  assert (Hunsat : forall k' e, (1 <= k' < 1 + n)%nat -> (length e <= k')%nat ->
                                realizes binary num_vars e = false).
  { intros k' e Hk He. unfold realizes. rewrite <- visited_rows_small by lia.
    exact (idle_events_unsat_before gauss to_cnf breaking solve binary num_vars n
             Hcomplete Hpc ltac:(lia) Hnone k' e Hk He). }
  assert (Hmodels : forall e, In e es ->
            realizes binary num_vars e = true
            /\ (length e <= 1 + n)%nat
            /\ (length e = (1 + n)%nat \/ es = [[]])).
  { intros e He.
    destruct (stops_at_models gauss to_cnf breaking solve w binary num_vars _
                Hsound Hps _ _ _ _ Hstop e He) as [m [Hm [Hp Hempty]]].
    assert (Hr : realizes binary num_vars e = true).
    { unfold realizes. rewrite (realizes_on_permutation _ _ _ _ _ Hp).
      rewrite <- visited_rows_small by lia. apply model_realizes; [lia|exact Hm]. }
    pose proof (length_extract num_vars (1 + n) m) as Hl.
    rewrite <- (Permutation_length Hp) in Hl.
    split; [exact Hr|]. split; [exact Hl|].
    destruct (Nat.eq_dec (length e) (1 + n)) as [E|N]; [now left|].
    destruct n as [|n'].
    - right. apply Hempty. apply Permutation_length in Hp.
      destruct (extract num_vars (1 + 0) m); [reflexivity|]. cbn [length] in *. lia.
    - exfalso. rewrite (Hunsat (S n') e) in Hr by lia. discriminate. }
  exists (1 + n)%nat. split; [lia|]. split; [|split; [|split]].
  - intros e He. destruct (Hmodels e He) as [Hr [Hl _]]. now split.
  - exact Hunsat.
  - apply forall_or. intros e He. exact (proj2 (proj2 (Hmodels e He))).
  - destruct Hstop as [ms [_ [_ [Hlog _]]]]. exists (length ms).
    replace (1 + n - 1)%nat with n by lia. now rewrite Hlog.
Qed.

(** ** Enumeration without reorderings *)

Lemma filter_all {A} (f : A -> bool) (l : list A) :
  (forall x, In x l -> f x = true) -> filter f l = l.
Proof.
  induction l as [|x l IH]; intro H; cbn [filter]; [reflexivity|].
  rewrite (H x) by (now left). f_equal. apply IH. intros; apply H; now right.
Qed.

Lemma filter_length_lt {A} (f : A -> bool) (l : list A) (x : A) :
  In x l -> f x = false -> (length (filter f l) < length l)%nat.
Proof.
  induction l as [|y l IH]; intros Hin Hx; [contradiction|].
  cbn [filter length]. pose proof (filter_length_le f l) as Hle.
  destruct Hin as [->|Hin].
  - rewrite Hx. lia.
  - specialize (IH Hin Hx). destruct (f y); cbn [length]; lia.
Qed.

Lemma two_positions {A} (l : list A) (d : A) (i j : nat) :
  (i < j < length l)%nat ->
  exists l1 l2, l = l1 ++ nth i l d :: l2 /\ In (nth j l d) l2.
Proof.
  intro H. destruct (nth_split l d (n := i) ltac:(lia)) as [l1 [l2 [E Hl]]].
  exists l1, l2. split; [exact E|].
  assert (Hlen : length l = (i + S (length l2))%nat)
    by (rewrite E at 1; rewrite length_app; cbn [length]; lia).
  rewrite E at 1. rewrite app_nth2 by lia. rewrite Hl.
  replace (j - i)%nat with (S (j - i - 1)) by lia. cbn [nth].
  apply nth_In. lia.
Qed.

(** Two terms that are not void and decode to the same cube have the
    same pattern. *)
Lemma term_cube_pattern (num_vars k : nat) (m m' : model) (j j' l : nat) :
  (num_vars <= 32)%nat -> (l < num_vars)%nat ->
  void num_vars k m j = false -> void num_vars k m' j' = false ->
  term_cube num_vars k m j = term_cube num_vars k m' j' ->
  p_of num_vars k m j l = p_of num_vars k m' j' l
  /\ q_of num_vars k m j l = q_of num_vars k m' j' l.
Proof.
  intros Hn Hl Hv Hv' E.
  pose proof (extract_cube_literal num_vars k m j l ltac:(lia)) as L.
  pose proof (extract_cube_literal num_vars k m' j' l ltac:(lia)) as L'.
  fold (term_cube num_vars k m j) in L. fold (term_cube num_vars k m' j') in L'.
  rewrite E, L' in L.
  replace (l <? num_vars)%nat with true in L by (symmetry; apply Nat.ltb_lt; lia).
  pose proof (void_false num_vars k Hn m j l Hv Hl) as V.
  pose proof (void_false num_vars k Hn m' j' l Hv' Hl) as V'.
  destruct (p_of num_vars k m j l), (q_of num_vars k m j l),
    (p_of num_vars k m' j' l), (q_of num_vars k m' j' l);
    cbn in *; try discriminate; auto.
Qed.

Section Enumeration.

Variable gauss_elimination : constraints -> constraints.
Variable xor_clauses_to_cnf : nat -> constraints -> constraints.
Variable cnf_symmetry_breaking : constraints -> constraints.
Variable solve : constraints -> option model.
Variable cube_weight : nat -> kitty.cube -> Z.
Variable binary : list ascii.
Variable num_vars : nat.
Variable one : bool.
Variable k : nat.

Hypothesis sound : solver_sound solve.
Hypothesis complete : solver_complete solve.
Hypothesis pre_sound :
  preprocess_sound gauss_elimination xor_clauses_to_cnf cnf_symmetry_breaking
    binary num_vars.
Hypothesis pre_complete :
  preprocess_complete gauss_elimination xor_clauses_to_cnf cnf_symmetry_breaking
    binary num_vars.
Hypothesis num_vars_le_32 : (num_vars <= 32)%nat.

Let input := solver_input gauss_elimination xor_clauses_to_cnf
               cnf_symmetry_breaking binary num_vars.

Hypothesis unsat_before : (2 <= k)%nat -> solve (input (k - 1)) = None.

(** The solutions taken at [k] have no void term: a void term would give
    a solution for [k - 1]. *)
Lemma found_no_void (ms : list model) (m : model) (j : nat) :
  found solve num_vars one k (input k) ms -> In m ms -> (j < k)%nat ->
  void num_vars k m j = false.
Proof.
  intros Hf Hm Hj. apply not_true_is_false. intro V.
  pose proof (found_satisfies _ _ _ _ sound _ _ _ Hf Hm) as Hsat.
  apply (pre_sound k) in Hsat.
  pose proof (model_realizes binary num_vars k num_vars_le_32 m Hsat) as Hr.
  assert (Hlen : (length (extract num_vars k m) < k)%nat).
  { rewrite extract_eq, length_map.
    rewrite <- (length_seq k 0) at 2.
    apply (filter_length_lt _ _ j); [apply in_seq; lia | now rewrite V]. }
  assert (Hn : (0 < num_vars)%nat).
  { unfold void in V. destruct num_vars; [discriminate | lia]. }
  destruct (found_nonempty _ _ _ _ _ _ _ Hf Hm) as [Hne _].
  destruct (Nat.le_gt_cases 2 k) as [K|K].
  - pose proof (unsat_no_esop gauss_elimination xor_clauses_to_cnf
                  cnf_symmetry_breaking solve binary num_vars complete pre_complete
                  (k - 1) (extract num_vars k m) (unsat_before K)
                  ltac:(lia) ltac:(intros; lia)) as Hu.
    congruence.
  - destruct (extract num_vars k m); [congruence | cbn [length] in Hlen; lia].
Qed.

(** No two solutions taken at [k] decode to the same cubes in another
    order. *)
Lemma found_no_reordering (ms : list model) (i j : nat) :
  found solve num_vars one k (input k) ms -> (i < j < length ms)%nat ->
  ~ Permutation (extract num_vars k (nth i ms [])) (extract num_vars k (nth j ms [])).
Proof.
  intros Hf Hij Hp.
  destruct (two_positions ms [] i j Hij) as [ms1 [ms2 [E Hin]]].
  set (mi := nth i ms []) in *. set (mj := nth j ms []) in *.
  assert (Hmi : In mi ms) by (apply nth_In; lia).
  assert (Hmj : In mj ms) by (apply nth_In; lia).
  assert (Hall : forall m, In m ms ->
            extract num_vars k m = map (term_cube num_vars k m) (seq 0 k)).
  { intros m Hm. rewrite extract_eq. f_equal. apply filter_all.
    intros x Hx. apply in_seq in Hx.
    now rewrite (found_no_void ms m x Hf Hm) by lia. }
  rewrite (Hall mi Hmi), (Hall mj Hmj) in Hp.
  apply Permutation_map_inv in Hp. destruct Hp as [vs [Hmap Hperm]].
  apply Permutation_sym in Hperm.
  assert (Hlen : length vs = k)
    by (apply Permutation_length in Hperm; now rewrite length_seq in Hperm).
  assert (Hblock : clause_sat mj (blocking_clause num_vars k mi vs) = true).
  { rewrite E in Hf.
    apply (found_blocked solve cube_weight num_vars one k sound ms1 ms2 mi mj _ Hf Hin).
    now apply visited_permutations_spec. }
  destruct (blocking_clause_forbids _ _ _ _ _ Hlen Hblock) as [a [l [Ha [Hl Hd]]]].
  assert (Hvs : (nth a vs O < k)%nat).
  { assert (In (nth a vs O) (seq 0 k))
      by (eapply Permutation_in; [exact Hperm | apply nth_In; lia]).
    apply in_seq in H. lia. }
  assert (Ecube : term_cube num_vars k mi a = term_cube num_vars k mj (nth a vs O)).
  { apply (f_equal (fun c => nth a c kitty.empty)) in Hmap.
    rewrite (nth_indep _ kitty.empty (term_cube num_vars k mi O)) in Hmap
      by (rewrite length_map, length_seq; lia).
    rewrite (map_nth (term_cube num_vars k mi)), seq_nth in Hmap by lia.
    rewrite (nth_indep _ kitty.empty (term_cube num_vars k mj O)) in Hmap
      by (rewrite length_map; lia).
    rewrite (map_nth (term_cube num_vars k mj)) in Hmap. exact Hmap. }
  destruct (term_cube_pattern num_vars k mi mj a (nth a vs O) l num_vars_le_32 Hl
              (found_no_void ms mi a Hf Hmi Ha)
              (found_no_void ms mj _ Hf Hmj Hvs) Ecube) as [Ep Eq].
  destruct Hd; congruence.
Qed.

End Enumeration.

(** C5: with a sound and complete solver and a preprocessing that keeps
    the models of the constraint sets it is given, and when the
    identifiers of every [k] tried fit an [int], no two ESOPs of a
    returned result hold the same cubes in another order.  (In
    single-solution mode the result has at most one ESOP.) *)
Theorem enumeration_has_no_reorderings
  (gauss : constraints -> constraints) (to_cnf : nat -> constraints -> constraints)
  (breaking : constraints -> constraints) (solve : constraints -> option model)
  (w : nat -> kitty.cube -> Z) (fuel : nat) (binary : list ascii) (cfg : config)
  (es : esops_t) (log : list event) :
  solver_sound solve -> solver_complete solve ->
  preprocess_sound gauss to_cnf breaking binary (Nat.log2 (length binary)) ->
  preprocess_complete gauss to_cnf breaking binary (Nat.log2 (length binary)) ->
  exact_synthesis_from_binary_string_log gauss to_cnf breaking solve w fuel
    binary cfg = (Returned es, log) ->
  (forall k, In (Ev_encode k) log ->
             identifiers_fit binary (Nat.log2 (length binary)) k) ->
  forall i j, (i < j < length es)%nat ->
              ~ Permutation (nth i es []) (nth j es []).
Proof.
  intros Hsound Hcomplete Hps Hpc Ek _ i j Hij Hp.
  unfold exact_synthesis_from_binary_string_log in Ek.
  set (nv := Nat.log2 (length binary)) in *.
  destruct (negb (Z.of_nat (length binary) =? _)); [discriminate|].
  destruct (nv <=? 32)%nat eqn:Hnv; [|discriminate]. cbn [negb] in Ek.
  apply Nat.leb_le in Hnv.
  apply k_loop_run in Ek.
  destruct Ek as [n [_ [Hnone [[_ [-> _]]|[_ [log' [_ Hstop]]]]]]];
    [cbn [length] in Hij; lia|].
  destruct Hstop as [ms [Hf [_ [_ [[-> [_ _]]|[m [_ [-> _]]]]]]]];
    [|cbn [length] in Hij; lia].
  unfold sorted_esops in Hij, Hp. rewrite length_map in Hij.
  rewrite !(nth_indep _ [] (sort_cubes (w nv) (extract nv (1 + n) []))) in Hp
    by (rewrite length_map; lia).
  rewrite !(map_nth (fun m => sort_cubes (w nv) (extract nv (1 + n) m))) in Hp.
  refine (found_no_reordering gauss to_cnf breaking solve w binary nv _ (1 + n)
            Hsound Hcomplete Hps Hpc Hnv _ ms i j Hf Hij _).
  - intro K. apply Hnone. lia.
  - eapply perm_trans; [apply Permutation_sym, sort_cubes_permutation|].
    eapply perm_trans; [exact Hp | apply sort_cubes_permutation].
Qed.

(** * Runs on concrete tables

    The collaborators are the reference solver and the stages that leave
    the constraints as they are. *)

Definition run (fuel : nat) (s : string) (cfg : config) : outcome * list event :=
  exact_synthesis_from_binary_string_log keep keep_from keep search_solve
    bits_weight fuel (tt_of s) cfg.

Definition enumerate : config := mk_config None None (Some false).

(** The table "00" gives the empty ESOP: its number of cubes, 0, is no
    [k] between 1 and the maximum. *)
Lemma empty_esop_is_below_every_k :
  fst (run 1 "00" default_config) = Returned [[]]
  /\ ~ (exists k, (1 <= k <= 10)%nat
                  /\ forall e, In e [@nil kitty.cube] -> length e = k).
Proof.
  split; [vm_compute; reflexivity|].
  intros [k [Hk H]]. specialize (H [] (or_introl eq_refl)). cbn in H. lia.
Qed.

Lemma result_has_minimal_size_witness :
  solver_sound search_solve /\ solver_complete search_solve
  /\ preprocess_sound keep keep_from keep (tt_of "0110") 2
  /\ preprocess_complete keep keep_from keep (tt_of "0110") 2
  /\ length (tt_of "0110") = (2 ^ 2)%nat /\ (1 <= 2 <= 31)%nat
  /\ run 1 "0110" default_config
     = (Returned [[kitty.mk_cube 2 3; kitty.mk_cube 1 3]],
        [Ev_encode 1; Ev_solve 1; Ev_encode 2; Ev_solve 2])
  /\ (forall k, In (Ev_encode k) [Ev_encode 1; Ev_solve 1; Ev_encode 2; Ev_solve 2] ->
                identifiers_fit (tt_of "0110") 2 k)
  /\ [[kitty.mk_cube 2 3; kitty.mk_cube 1 3]] <> []
  /\ exists k,
      (1 <= k <= 10)%nat
      /\ (forall e, In e [[kitty.mk_cube 2 3; kitty.mk_cube 1 3]] ->
            realizes (tt_of "0110") 2 e = true /\ (length e <= k)%nat)
      /\ (forall k' e, (1 <= k' < k)%nat -> (length e <= k')%nat ->
                       realizes (tt_of "0110") 2 e = false)
      /\ ((forall e, In e [[kitty.mk_cube 2 3; kitty.mk_cube 1 3]] -> length e = k)
          \/ [[kitty.mk_cube 2 3; kitty.mk_cube 1 3]] = [[]])
      /\ (exists calls,
            [Ev_encode 1; Ev_solve 1; Ev_encode 2; Ev_solve 2]
            = idle_events 1 (k - 1) ++ Ev_encode k :: repeat (Ev_solve k) (S calls)).
Proof.
  assert (Hrun : run 1 "0110" default_config
                 = (Returned [[kitty.mk_cube 2 3; kitty.mk_cube 1 3]],
                    [Ev_encode 1; Ev_solve 1; Ev_encode 2; Ev_solve 2]))
    by (vm_compute; reflexivity).
  assert (Hn : (1 <= 2 <= 31)%nat) by lia.
  assert (Hfit : forall k,
            In (Ev_encode k) [Ev_encode 1; Ev_solve 1; Ev_encode 2; Ev_solve 2] ->
            identifiers_fit (tt_of "0110") 2 k)
    by (apply encodings_fit; vm_compute; reflexivity).
  assert (Hne : [[kitty.mk_cube 2 3; kitty.mk_cube 1 3]] <> []) by discriminate.
  split; [exact search_solve_sound|]. split; [exact search_solve_complete|].
  split; [apply keep_sound|]. split; [apply keep_complete|].
  split; [reflexivity|]. split; [exact Hn|]. split; [exact Hrun|].
  split; [exact Hfit|]. split; [exact Hne|].
  exact (result_has_minimal_size keep keep_from keep search_solve bits_weight 1
           (tt_of "0110") default_config 2 _ _
           search_solve_sound search_solve_complete
           (keep_sound _ _) (keep_complete _ _)
           eq_refl Hn Hrun Hfit Hne).
Defined.

Lemma extraction_decodes_the_model_witness :
  (2 <= 32)%nat
  /\ extract 2 2 [true; false; false; true; false; true; true; true]
     = map (term_cube 2 2 [true; false; false; true; false; true; true; true])
           (filter (fun j => negb (void 2 2 [true; false; false; true; false; true; true; true] j))
                   (seq 0 2)).
Proof.
  split; [lia|].
  exact (proj1 (extraction_decodes_the_model 2 2
                  [true; false; false; true; false; true; true; true]
                  ltac:(lia))).
Defined.

(** The table "0110" in enumeration mode: no ESOP of one cube, three of
    two cubes, and a fourth call of the solver for [k = 2] that finds no
    other. *)
Lemma run_0110_enumerate :
  exact_synthesis_from_binary_string_log keep keep_from keep search_solve
    bits_weight 4 (tt_of "0110") enumerate
  = (Returned [[kitty.mk_cube 1 3; kitty.mk_cube 2 3];
               [kitty.mk_cube 0 1; kitty.mk_cube 0 2];
               [kitty.mk_cube 1 1; kitty.mk_cube 2 2]],
     [Ev_encode 1; Ev_solve 1; Ev_encode 2; Ev_solve 2; Ev_solve 2;
      Ev_solve 2; Ev_solve 2]).
Proof. vm_compute. reflexivity. Qed.

Lemma enumeration_has_no_reorderings_witness :
  solver_sound search_solve /\ solver_complete search_solve
  /\ preprocess_sound keep keep_from keep (tt_of "0110")
       (Nat.log2 (length (tt_of "0110")))
  /\ preprocess_complete keep keep_from keep (tt_of "0110")
       (Nat.log2 (length (tt_of "0110")))
  /\ exact_synthesis_from_binary_string_log keep keep_from keep search_solve
       bits_weight 4 (tt_of "0110") enumerate
     = (Returned [[kitty.mk_cube 1 3; kitty.mk_cube 2 3];
                  [kitty.mk_cube 0 1; kitty.mk_cube 0 2];
                  [kitty.mk_cube 1 1; kitty.mk_cube 2 2]],
        [Ev_encode 1; Ev_solve 1; Ev_encode 2; Ev_solve 2; Ev_solve 2;
         Ev_solve 2; Ev_solve 2])
  /\ (forall k,
        In (Ev_encode k)
           [Ev_encode 1; Ev_solve 1; Ev_encode 2; Ev_solve 2; Ev_solve 2;
            Ev_solve 2; Ev_solve 2] ->
        identifiers_fit (tt_of "0110") (Nat.log2 (length (tt_of "0110"))) k)
  /\ ~ Permutation [kitty.mk_cube 1 3; kitty.mk_cube 2 3]
                   [kitty.mk_cube 1 1; kitty.mk_cube 2 2].
Proof.
  assert (Hfit : forall k,
            In (Ev_encode k)
               [Ev_encode 1; Ev_solve 1; Ev_encode 2; Ev_solve 2; Ev_solve 2;
                Ev_solve 2; Ev_solve 2] ->
            identifiers_fit (tt_of "0110") (Nat.log2 (length (tt_of "0110"))) k)
    by (apply encodings_fit; vm_compute; reflexivity).
  split; [exact search_solve_sound|]. split; [exact search_solve_complete|].
  split; [apply keep_sound|]. split; [apply keep_complete|].
  split; [exact run_0110_enumerate|]. split; [exact Hfit|].
  exact (enumeration_has_no_reorderings keep keep_from keep search_solve bits_weight
           4 (tt_of "0110") enumerate _ _
           search_solve_sound search_solve_complete
           (keep_sound _ _) (keep_complete _ _)
           run_0110_enumerate Hfit 0%nat 2%nat ltac:(cbn; lia)).
Defined.

Lemma solve_loop_ends_witness :
  solver_sound search_solve /\ (2 ^ (2 * 1 * 1) < 5)%nat
  /\ fst (solve_loop search_solve bits_weight 1 false 5 1
            (cons (encode (tt_of "1-") 1 1)) []) <> OutOfFuel.
Proof.
  split; [exact search_solve_sound|]. split; [cbn; lia|].
  exact (proj1 (solve_loop_ends search_solve bits_weight 1 false 1 5
                  (cons (encode (tt_of "1-") 1 1)) []
                  search_solve_sound ltac:(cbn; lia))).
Defined.

Lemma constant_zero_of_no_variable_gets_two_cubes_witness :
  solver_sound search_solve /\ solver_complete search_solve
  /\ preprocess_sound keep keep_from keep ["0"%char] 0
  /\ preprocess_complete keep keep_from keep ["0"%char] 0
  /\ (1 <= 1)%nat /\ (2 <= 10)%nat /\ one_esop default_config <> Some false
  /\ exact_synthesis_from_binary_string_log keep keep_from keep search_solve
       bits_weight 1 ["0"%char] default_config
     = (Returned [[kitty.empty; kitty.empty]],
        [Ev_encode 1; Ev_solve 1; Ev_encode 2; Ev_solve 2])
  /\ realizes ["0"%char] 0 [] = true
  /\ identifiers_fit ["0"%char] 0 2.
Proof.
  assert (Hone : one_esop default_config <> Some false) by discriminate.
  split; [exact search_solve_sound|]. split; [exact search_solve_complete|].
  split; [apply keep_sound|]. split; [apply keep_complete|].
  split; [lia|]. split; [lia|]. split; [exact Hone|].
  exact (constant_zero_of_no_variable_gets_two_cubes keep keep_from keep
           search_solve bits_weight 1 default_config
           search_solve_sound search_solve_complete
           (keep_sound _ _) (keep_complete _ _)
           (le_n 1) (le_S _ _ (le_S _ _ (le_S _ _ (le_S _ _ (le_S _ _
             (le_S _ _ (le_S _ _ (le_S _ _ (le_n 2))))))))) Hone).
Defined.

Lemma constant_zero_gives_the_empty_esop_witness :
  solver_sound search_solve /\ solver_complete search_solve
  /\ preprocess_sound keep keep_from keep (repeat "0"%char (2 ^ 1)) 1
  /\ preprocess_complete keep keep_from keep (repeat "0"%char (2 ^ 1)) 1
  /\ (1 <= 1 <= 31)%nat
  /\ identifiers_fit (repeat "0"%char (2 ^ 1)) 1 1
  /\ (1 <= 1)%nat /\ (1 <= 10)%nat
  /\ exact_synthesis_from_binary_string_log keep keep_from keep search_solve
       bits_weight 1 (repeat "0"%char (2 ^ 1)) default_config
     = (Returned [[]], [Ev_encode 1; Ev_solve 1]).
Proof.
  assert (Hfit : identifiers_fit (repeat "0"%char (2 ^ 1)) 1 1)
    by (apply identifiers_fitb_spec; vm_compute; reflexivity).
  split; [exact search_solve_sound|]. split; [exact search_solve_complete|].
  split; [apply keep_sound|]. split; [apply keep_complete|].
  split; [lia|]. split; [exact Hfit|]. split; [lia|]. split; [lia|].
  exact (constant_zero_gives_the_empty_esop keep keep_from keep search_solve
           bits_weight 1 1 default_config
           search_solve_sound search_solve_complete
           (keep_sound _ _) (keep_complete _ _)
           ltac:(lia) Hfit ltac:(lia) ltac:(cbn; lia)).
Defined.

Lemma three_is_no_power_of_two (n : nat) : 3%nat <> (2 ^ n)%nat.
Proof. destruct n as [|[|n]]; cbn [Nat.pow]; lia. Qed.

Lemma malformed_table_is_rejected_witness :
  ((forall n : nat, length (tt_of "000") <> (2 ^ n)%nat)
   \/ 2 ^ 32 < Z.of_nat (length (tt_of "000")))
  /\ exists msg, run 1 "000" default_config = (AssertFailed msg, []).
Proof.
  split; [left; exact three_is_no_power_of_two|].
  exact (malformed_table_is_rejected keep keep_from keep search_solve bits_weight
           1 (tt_of "000") default_config (or_introl three_is_no_power_of_two)).
Defined.

Lemma empty_esop_discards_the_solution_list_witness :
  found search_solve 1 false 1
    (solver_input keep keep_from keep (tt_of "--") 1 1)
    [[false]; [true; false]; [false; true]]
  /\ search_solve
       (constraints_after 1 1 (solver_input keep keep_from keep (tt_of "--") 1 1)
          [[false]; [true; false]; [false; true]]) = Some [true; true]
  /\ extract 1 1 [true; true] = []
  /\ (3 < 4)%nat
  /\ k_loop keep keep_from keep search_solve bits_weight (tt_of "--") 1 false 4 10 1 []
     = (Returned [[]], [Ev_encode 1; Ev_solve 1; Ev_solve 1; Ev_solve 1; Ev_solve 1]).
Proof.
  assert (Hf : found search_solve 1 false 1
                 (solver_input keep keep_from keep (tt_of "--") 1 1)
                 [[false]; [true; false]; [false; true]]).
  { cbn [found]. repeat split; try discriminate; vm_compute; reflexivity. }
  assert (Hs : search_solve
       (constraints_after 1 1 (solver_input keep keep_from keep (tt_of "--") 1 1)
          [[false]; [true; false]; [false; true]]) = Some [true; true])
    by (vm_compute; reflexivity).
  split; [exact Hf|]. split; [exact Hs|]. split; [reflexivity|]. split; [lia|].
  exact (empty_esop_discards_the_solution_list keep keep_from keep search_solve
           bits_weight (tt_of "--") 1 false 4 9 1 []
           [[false]; [true; false]; [false; true]] [true; true]
           Hf Hs eq_refl ltac:(cbn; lia)).
Defined.

(** * Further properties of the function *)

(** ** What a returned ESOP computes, up to 31 variables *)

(** With a solver that returns only satisfying assignments and a
    preprocessing whose models are models of the constraints it was
    given, every ESOP of a result for a table of at most 31 variables, in
    a call where the identifiers of every [k] tried fit an [int], gives
    the symbol of the table at every row with symbol '0' or '1'. *)
Theorem returned_esops_compute_the_function
  (gauss : constraints -> constraints) (to_cnf : nat -> constraints -> constraints)
  (breaking : constraints -> constraints) (solve : constraints -> option model)
  (w : nat -> kitty.cube -> Z) (fuel : nat) (binary : list ascii) (cfg : config)
  (es : esops_t) (log : list event) :
  solver_sound solve ->
  preprocess_sound gauss to_cnf breaking binary (Nat.log2 (length binary)) ->
  (Nat.log2 (length binary) <= 31)%nat ->
  exact_synthesis_from_binary_string_log gauss to_cnf breaking solve w fuel
    binary cfg = (Returned es, log) ->
  (forall k, In (Ev_encode k) log ->
             identifiers_fit binary (Nat.log2 (length binary)) k) ->
  forall e, In e es -> realizes binary (Nat.log2 (length binary)) e = true.
Proof.
  intros Hsound Hps Hn Ek _ e He.
  unfold exact_synthesis_from_binary_string_log in Ek.
  set (nv := Nat.log2 (length binary)) in *.
  destruct (negb (Z.of_nat (length binary) =? _)); [discriminate|].
  destruct (negb (nv <=? 32)%nat); [discriminate|].
  unfold realizes. rewrite <- visited_rows_small by exact Hn.
  exact (returned_esops_realize gauss to_cnf breaking solve w binary nv _
           Hsound Hps _ _ _ _ _ ltac:(lia) Ek e He).
Qed.

Lemma returned_esops_compute_the_function_witness :
  solver_sound search_solve
  /\ preprocess_sound keep keep_from keep (tt_of "0110")
       (Nat.log2 (length (tt_of "0110")))
  /\ (Nat.log2 (length (tt_of "0110")) <= 31)%nat
  /\ run 1 "0110" default_config
     = (Returned [[kitty.mk_cube 2 3; kitty.mk_cube 1 3]],
        [Ev_encode 1; Ev_solve 1; Ev_encode 2; Ev_solve 2])
  /\ (forall k, In (Ev_encode k) [Ev_encode 1; Ev_solve 1; Ev_encode 2; Ev_solve 2] ->
                identifiers_fit (tt_of "0110") (Nat.log2 (length (tt_of "0110"))) k)
  /\ realizes (tt_of "0110") (Nat.log2 (length (tt_of "0110")))
       [kitty.mk_cube 2 3; kitty.mk_cube 1 3] = true.
Proof.
  assert (Hrun : run 1 "0110" default_config
                 = (Returned [[kitty.mk_cube 2 3; kitty.mk_cube 1 3]],
                    [Ev_encode 1; Ev_solve 1; Ev_encode 2; Ev_solve 2]))
    by (vm_compute; reflexivity).
  assert (Hn : (Nat.log2 (length (tt_of "0110")) <= 31)%nat) by (cbn; lia).
  assert (Hfit : forall k,
            In (Ev_encode k) [Ev_encode 1; Ev_solve 1; Ev_encode 2; Ev_solve 2] ->
            identifiers_fit (tt_of "0110") (Nat.log2 (length (tt_of "0110"))) k)
    by (apply encodings_fit; vm_compute; reflexivity).
  split; [exact search_solve_sound|]. split; [apply keep_sound|].
  split; [exact Hn|]. split; [exact Hrun|]. split; [exact Hfit|].
  exact (returned_esops_compute_the_function keep keep_from keep search_solve
           bits_weight 1 (tt_of "0110") default_config _ _
           search_solve_sound (keep_sound _ _) Hn Hrun Hfit _ (or_introl eq_refl)).
Defined.

(** ** The result when no [k] gives a solution *)

Section MoreCalls.

Variable gauss_elimination : constraints -> constraints.
Variable xor_clauses_to_cnf : nat -> constraints -> constraints.
Variable cnf_symmetry_breaking : constraints -> constraints.
Variable solve : constraints -> option model.
Variable cube_weight : nat -> kitty.cube -> Z.
Variable binary : list ascii.
Variable num_vars : nat.
Variable one : bool.

Let input := solver_input gauss_elimination xor_clauses_to_cnf
               cnf_symmetry_breaking binary num_vars.

Lemma k_loop_all_unsat (fuel remaining : nat) :
  (1 <= fuel)%nat ->
  forall k,
    (forall k', (k <= k' < k + remaining)%nat -> solve (input k') = None) ->
    k_loop gauss_elimination xor_clauses_to_cnf cnf_symmetry_breaking solve
      cube_weight binary num_vars one fuel remaining k []
    = (Returned [], idle_events k remaining).
Proof.
  intro Hfuel. destruct fuel as [|f]; [lia|].
  induction remaining as [|r IH]; intros k H; [reflexivity|].
  cbn [k_loop]. rewrite attempt_eq. cbn [solve_loop]. fold (input k).
  rewrite (H k) by lia. cbn [length Nat.ltb Nat.leb].
  rewrite IH by (intros; apply H; lia). reflexivity.
Qed.

Lemma stops_at_nonempty (fuel k : nat) (es : esops_t) (log : list event) :
  stops_at gauss_elimination xor_clauses_to_cnf cnf_symmetry_breaking solve
    cube_weight binary num_vars one fuel k es log -> es <> [].
Proof.
  intros [ms [_ [_ [_ [[-> [Hne _]]|[m [_ [-> _]]]]]]]]; [|discriminate].
  destruct ms; [congruence | discriminate].
Qed.

(** The events of the solve loop are calls of the solver, at most [fuel]
    of them. *)
Lemma solve_loop_log (fuel k : nat) :
  forall cs esops,
    exists calls, (calls <= fuel)%nat
      /\ snd (solve_loop solve cube_weight num_vars one fuel k cs esops)
         = repeat (Ev_solve k) calls.
Proof.
  induction fuel as [|f IH]; intros cs esops; cbn [solve_loop].
  - exists 0%nat. split; [lia | reflexivity].
  - destruct (solve cs) as [m|]; [|exists 1%nat; split; [lia | reflexivity]].
    destruct (extract num_vars k m) as [|c e];
      [exists 1%nat; split; [lia | reflexivity]|].
    destruct one; [exists 1%nat; split; [lia | reflexivity]|].
    destruct (IH (add_blocking_clauses num_vars k m cs)
                 (esops ++ [sort_cubes (cube_weight num_vars) (c :: e)]))
      as [calls [Hc Hl]].
    destruct (solve_loop solve cube_weight num_vars false f k _ _) as [r log].
    cbn [snd] in *. exists (S calls). split; [lia|]. now rewrite Hl.
Qed.

Hypothesis sound : solver_sound solve.

(** With enough fuel for every [k] the loop over [k] is not cut short. *)
Lemma k_loop_no_timeout (fuel remaining : nat) :
  forall k esops,
    (forall k', (k <= k' < k + remaining)%nat ->
                (2 ^ (2 * num_vars * k') < fuel)%nat) ->
    fst (k_loop gauss_elimination xor_clauses_to_cnf cnf_symmetry_breaking solve
           cube_weight binary num_vars one fuel remaining k esops) <> NoAnswer.
Proof.
  induction remaining as [|r IH]; intros k esops H; [discriminate|].
  cbn [k_loop]. rewrite attempt_eq.
  pose proof (solve_loop_terminates solve cube_weight num_vars one k sound fuel
                (input k) esops (H k ltac:(lia))) as Ht.
  fold (input k).
  destruct (solve_loop solve cube_weight num_vars one fuel k (input k) esops)
    as [res slog].
  cbn [fst] in Ht. destruct res as [es|es|]; [discriminate | | congruence].
  destruct (0 <? length es)%nat; [discriminate|].
  specialize (IH (S k) es ltac:(intros; apply H; lia)).
  destruct (k_loop _ _ _ _ _ _ _ _ fuel r (S k) es) as [o log'].
  exact IH.
Qed.

End MoreCalls.

(** When the solver reports unsatisfiable at the first call for every
    [k] from 1 to the maximum, and only then, the result of an accepted
    table is the empty sequence. *)
Theorem empty_result_means_no_k_is_satisfiable
  (gauss : constraints -> constraints) (to_cnf : nat -> constraints -> constraints)
  (breaking : constraints -> constraints) (solve : constraints -> option model)
  (w : nat -> kitty.cube -> Z) (fuel : nat) (binary : list ascii) (cfg : config)
  (num_vars : nat) :
  length binary = (2 ^ num_vars)%nat -> (num_vars <= 32)%nat -> (1 <= fuel)%nat ->
  exact_synthesis_from_binary_string gauss to_cnf breaking solve w fuel binary cfg
  = Returned []
  <-> (forall k,
         (1 <= k <= match maximum_cubes cfg with Some c => c | None => 10 end)%nat ->
         solve (solver_input gauss to_cnf breaking binary num_vars k) = None).
Proof.
  intros Hlen Hn Hfuel. unfold exact_synthesis_from_binary_string.
  rewrite (accepted_call _ _ _ _ _ _ _ _ num_vars) by assumption.
  set (max := match maximum_cubes cfg with Some c => c | None => 10%nat end).
  split.
  - intros H k Hk.
    destruct (k_loop _ _ _ _ _ _ _ _ _ _ _ _) as [o log] eqn:Ek.
    cbn [fst] in H. subst o. apply k_loop_run in Ek.
    destruct Ek as [n [_ [Hnone [[-> _]|[_ [log' [_ Hstop]]]]]]].
    + apply Hnone. lia.
    + now apply stops_at_nonempty in Hstop.
  - intro H. rewrite k_loop_all_unsat; [reflexivity | exact Hfuel |].
    intros k' Hk'. apply H. lia.
Qed.

Lemma empty_result_means_no_k_is_satisfiable_witness :
  length (tt_of "0110") = (2 ^ 2)%nat /\ (2 <= 32)%nat /\ (1 <= 1)%nat
  /\ (fst (run 1 "0110" (mk_config (Some 1%nat) None None)) = Returned []
      <-> (forall k, (1 <= k <= 1)%nat ->
             search_solve (solver_input keep keep_from keep (tt_of "0110") 2 k) = None)).
Proof.
  split; [reflexivity|]. split; [lia|]. split; [lia|].
  exact (empty_result_means_no_k_is_satisfiable keep keep_from keep search_solve
           bits_weight 1 (tt_of "0110") (mk_config (Some 1%nat) None None) 2
           eq_refl ltac:(lia) ltac:(lia)).
Defined.

(** In single-solution mode a non-empty result of an accepted table is
    the one ESOP decoded, as it is, from the first answer of the solver
    for the first [k] that is satisfiable; each [k] took one encoding and
    one call of the solver. *)
Theorem single_solution_is_the_first_answer
  (gauss : constraints -> constraints) (to_cnf : nat -> constraints -> constraints)
  (breaking : constraints -> constraints) (solve : constraints -> option model)
  (w : nat -> kitty.cube -> Z) (fuel : nat) (binary : list ascii) (cfg : config)
  (num_vars : nat) (es : esops_t) (log : list event) :
  length binary = (2 ^ num_vars)%nat -> (num_vars <= 32)%nat ->
  one_esop cfg <> Some false ->
  exact_synthesis_from_binary_string_log gauss to_cnf breaking solve w fuel
    binary cfg = (Returned es, log) ->
  es <> [] ->
  exists k m,
    (1 <= k <= match maximum_cubes cfg with Some c => c | None => 10 end)%nat
    /\ (forall k', (1 <= k' < k)%nat ->
          solve (solver_input gauss to_cnf breaking binary num_vars k') = None)
    /\ solve (solver_input gauss to_cnf breaking binary num_vars k) = Some m
    /\ es = [extract num_vars k m]
    /\ log = idle_events 1 (k - 1) ++ [Ev_encode k; Ev_solve k].
Proof.
  intros Hlen Hn Hone H Hne.
  rewrite (accepted_call _ _ _ _ _ _ _ _ num_vars) in H by assumption.
  assert (Eone : match one_esop cfg with Some b => b | None => true end = true)
    by (destruct (one_esop cfg) as [[|]|]; congruence).
  rewrite Eone in H. apply k_loop_run in H.
  destruct H as [n [Hle [Hnone [[_ [-> _]]|[Hlt [log' [-> Hstop]]]]]]];
    [congruence|].
  destruct Hstop as [ms [Hf [_ [Hlog Hend]]]].
  destruct ms as [|m0 ms]; [|cbn [found] in Hf; destruct Hf as [_ [_ [Hf _]]]; discriminate].
  destruct Hend as [[_ [Hms _]]|[m [Hs [-> _]]]]; [congruence|].
  exists (1 + n)%nat, m. split; [lia|]. split; [exact Hnone|].
  split; [exact Hs|]. split; [reflexivity|].
  replace (1 + n - 1)%nat with n by lia. now rewrite Hlog.
Qed.

Lemma single_solution_is_the_first_answer_witness :
  length (tt_of "0110") = (2 ^ 2)%nat /\ (2 <= 32)%nat
  /\ one_esop default_config <> Some false
  /\ run 1 "0110" default_config
     = (Returned [[kitty.mk_cube 2 3; kitty.mk_cube 1 3]],
        [Ev_encode 1; Ev_solve 1; Ev_encode 2; Ev_solve 2])
  /\ [[kitty.mk_cube 2 3; kitty.mk_cube 1 3]] <> []
  /\ exists k m,
      (1 <= k <= 10)%nat
      /\ (forall k', (1 <= k' < k)%nat ->
            search_solve (solver_input keep keep_from keep (tt_of "0110") 2 k') = None)
      /\ search_solve (solver_input keep keep_from keep (tt_of "0110") 2 k) = Some m
      /\ [[kitty.mk_cube 2 3; kitty.mk_cube 1 3]] = [extract 2 k m]
      /\ [Ev_encode 1; Ev_solve 1; Ev_encode 2; Ev_solve 2]
         = idle_events 1 (k - 1) ++ [Ev_encode k; Ev_solve k].
Proof.
  assert (Hrun : run 1 "0110" default_config
                 = (Returned [[kitty.mk_cube 2 3; kitty.mk_cube 1 3]],
                    [Ev_encode 1; Ev_solve 1; Ev_encode 2; Ev_solve 2]))
    by (vm_compute; reflexivity).
  assert (Hone : one_esop default_config <> Some false) by discriminate.
  assert (Hne : [[kitty.mk_cube 2 3; kitty.mk_cube 1 3]] <> []) by discriminate.
  assert (Hn : (2 <= 32)%nat) by lia.
  split; [reflexivity|]. split; [exact Hn|]. split; [exact Hone|].
  split; [exact Hrun|]. split; [exact Hne|].
  exact (single_solution_is_the_first_answer keep keep_from keep search_solve
           bits_weight 1 (tt_of "0110") default_config 2 _ _
           eq_refl Hn Hone Hrun Hne).
Defined.

(** With a solver that returns only satisfying assignments, a call whose
    budget of solver calls per [k] is above [2^(2 n max)] is never cut
    short: it fails an assertion or returns a result. *)
Theorem call_is_not_cut_short
  (gauss : constraints -> constraints) (to_cnf : nat -> constraints -> constraints)
  (breaking : constraints -> constraints) (solve : constraints -> option model)
  (w : nat -> kitty.cube -> Z) (fuel : nat) (binary : list ascii) (cfg : config) :
  solver_sound solve ->
  (2 ^ (2 * Nat.log2 (length binary)
          * match maximum_cubes cfg with Some c => c | None => 10 end) < fuel)%nat ->
  exact_synthesis_from_binary_string gauss to_cnf breaking solve w fuel binary cfg
  <> NoAnswer.
Proof.
  intros Hsound Hfuel.
  unfold exact_synthesis_from_binary_string,
    exact_synthesis_from_binary_string_log.
  set (nv := Nat.log2 (length binary)) in *.
  set (max := match maximum_cubes cfg with Some c => c | None => 10%nat end) in *.
  destruct (negb (Z.of_nat (length binary) =? _)); [discriminate|].
  destruct (negb (nv <=? 32)%nat); [discriminate|].
  apply k_loop_no_timeout; [exact Hsound|].
  intros k' Hk'. eapply Nat.le_lt_trans; [|exact Hfuel].
  apply Nat.pow_le_mono_r; [lia|]. nia.
Qed.

Lemma call_is_not_cut_short_witness :
  solver_sound search_solve
  /\ (2 ^ (2 * Nat.log2 (length (tt_of "1-")) * 2) < 17)%nat
  /\ fst (run 17 "1-" (mk_config (Some 2%nat) None (Some false))) <> NoAnswer.
Proof.
  assert (Hf : (2 ^ (2 * Nat.log2 (length (tt_of "1-")) * 2) < 17)%nat)
    by (cbn; lia).
  split; [exact search_solve_sound|]. split; [exact Hf|].
  exact (call_is_not_cut_short keep keep_from keep search_solve bits_weight 17
           (tt_of "1-") (mk_config (Some 2%nat) None (Some false))
           search_solve_sound Hf).
Defined.

(** ** Variable identifiers *)

(** The identifiers of lines 89--133 do not alias: within their ranges,
    and as long as the coverage variables at hand fit an [int], the p, q
    and coverage variables are numbered injectively, the three blocks are
    disjoint, in this order, start at 1 and stay within the range of an
    [int]. *)
Theorem variable_ids_do_not_alias (num_vars k : nat)
  (j j' l l' s s' : nat) :
  (j < k)%nat -> (j' < k)%nat -> (l < num_vars)%nat -> (l' < num_vars)%nat ->
  Z.of_nat (z_var num_vars k s j) <= int_max ->
  Z.of_nat (z_var num_vars k s' j') <= int_max ->
  (p_var num_vars k j l = p_var num_vars k j' l' -> j = j' /\ l = l')
  /\ (q_var num_vars k j l = q_var num_vars k j' l' -> j = j' /\ l = l')
  /\ (z_var num_vars k s j = z_var num_vars k s' j' -> s = s' /\ j = j')
  /\ (1 <= p_var num_vars k j l <= num_vars * k)%nat
  /\ (num_vars * k < q_var num_vars k j' l' <= 2 * num_vars * k)%nat
  /\ (2 * num_vars * k < z_var num_vars k s j)%nat
  /\ Z.of_nat (p_var num_vars k j l) < Z.of_nat (q_var num_vars k j' l')
  /\ Z.of_nat (q_var num_vars k j' l') < Z.of_nat (z_var num_vars k s j)
  /\ Z.of_nat (z_var num_vars k s j) <= int_max.
Proof.
  intros Hj Hj' Hl Hl' Hz Hz'. revert Hz Hz'. unfold p_var, q_var, z_var.
  intros Hz Hz'.
  assert (Hdiv : forall b a c a' c', (c < b)%nat -> (c' < b)%nat ->
            (b * a + c = b * a' + c')%nat -> a = a' /\ c = c').
  { intros b a c a' c' Hc Hc' E.
    destruct (div_mod_at b a c Hc) as [D M].
    destruct (div_mod_at b a' c' Hc') as [D' M'].
    rewrite E in D, M. split; congruence. }
  split; [intro E; apply (Hdiv num_vars j l j' l'); try assumption; lia|].
  split; [intro E; apply (Hdiv num_vars j l j' l'); try assumption; lia|].
  split; [intro E; apply (Hdiv k s j s' j'); try assumption; lia|].
  split; [nia|]. split; [nia|]. split; [nia|].
  split; [|split; [|exact Hz]]; apply Nat2Z.inj_lt; nia.
Qed.

Lemma variable_ids_do_not_alias_witness :
  (1 < 2)%nat /\ (0 < 2)%nat /\ (2 < 3)%nat /\ (1 < 3)%nat
  /\ Z.of_nat (z_var 3 2 5 1) <= int_max
  /\ Z.of_nat (z_var 3 2 4 0) <= int_max
  /\ (2 * 3 * 2 < z_var 3 2 5 1)%nat.
Proof.
  assert (Hz : Z.of_nat (z_var 3 2 5 1) <= int_max)
    by (apply Z.leb_le; vm_compute; reflexivity).
  assert (Hz' : Z.of_nat (z_var 3 2 4 0) <= int_max)
    by (apply Z.leb_le; vm_compute; reflexivity).
  split; [lia|]. split; [lia|]. split; [lia|]. split; [lia|].
  split; [exact Hz|]. split; [exact Hz'|].
  exact (proj1 (proj2 (proj2 (proj2 (proj2 (proj2
           (variable_ids_do_not_alias 3 2 1 0 2 1 5 4
              ltac:(lia) ltac:(lia) ltac:(lia) ltac:(lia) Hz Hz'))))))).
Defined.

(** When the identifiers fit an [int], every literal of the constraint
    set of [k] names a variable between 1 and [sid - 1], and [sid] is at
    most the largest [int]: the counter handed to the XOR-to-CNF stage at
    line 147 is above all the variables in use. *)
Theorem constraint_variables_are_below_sid
  (binary : list ascii) (num_vars k : nat) :
  identifiers_fit binary num_vars k ->
  let st := encode binary num_vars k in
  (forall c lit, In c (clauses (cons st)) -> In lit c ->
                 1 <= Z.abs lit < Z.of_nat (sid st))
  /\ (forall x v, In x (xor_clauses (cons st)) -> In v (fst x) ->
                  1 <= v < Z.of_nat (sid st))
  /\ Z.of_nat (sid st) <= int_max.
Proof.
  intro Hfit. cbn zeta.
  split; [|split; [|now apply identifiers_fit_sid]];
    rewrite encode_eq; cbn [cons clauses xor_clauses sid];
    set (valued := numbered binary 0 (visited_rows num_vars));
    assert (Hs : forall s bits, In (s, bits) valued -> (s < length valued)%nat)
      by (intros s bits H; unfold valued, numbered in *;
          destruct (in_combine_seq 0 _ _ _ _ H) as [Hr _];
          rewrite length_combine, length_seq, Nat.min_id; lia);
    assert (Hz : forall s j, (s < length valued)%nat -> (j < k)%nat ->
                   (2 * num_vars * k < z_var num_vars k s j
                    < z_var num_vars k (length valued) 0)%nat)
      by (intros s j Hs' Hj; unfold z_var; nia).
  - intros c lit Hc Hl. apply in_flat_map in Hc. destruct Hc as [[s bits] [Hin Hc]].
    cbn [fst snd] in Hc. specialize (Hs s bits Hin).
    unfold row_clauses in Hc. apply in_app_or in Hc. destruct Hc as [Hc|Hc].
    + apply in_flat_map in Hc. destruct Hc as [j [Hj Hc]]. apply in_seq in Hj.
      apply in_map_iff in Hc. destruct Hc as [l [<- Hl']]. apply in_seq in Hl'.
      specialize (Hz s j Hs ltac:(lia)).
      unfold unit_implication in Hl.
      assert (Hp : (1 <= p_var num_vars k j l <= num_vars * k)%nat)
        by (unfold p_var; nia).
      assert (Hq : (1 <= q_var num_vars k j l <= 2 * num_vars * k)%nat)
        by (unfold q_var; nia).
      destruct (Z.testbit bits (Z.of_nat l));
        destruct Hl as [<-|[<-|[]]]; lia.
    + apply in_map_iff in Hc. destruct Hc as [j [<- Hj]]. apply in_seq in Hj.
      specialize (Hz s j Hs ltac:(lia)).
      unfold converse_clause in Hl. destruct Hl as [<-|Hl]; [lia|].
      apply in_map_iff in Hl. destruct Hl as [l [<- Hl']]. apply in_seq in Hl'.
      assert (Hp : (1 <= p_var num_vars k j l <= num_vars * k)%nat)
        by (unfold p_var; nia).
      assert (Hq : (1 <= q_var num_vars k j l <= 2 * num_vars * k)%nat)
        by (unfold q_var; nia).
      destruct (Z.testbit bits (Z.of_nat l)); lia.
  - intros x v Hx Hv. apply in_map_iff in Hx. destruct Hx as [[s bits] [<- Hin]].
    cbn [fst snd row_xor] in Hv. unfold z_vars_of in Hv.
    apply in_map_iff in Hv. destruct Hv as [j [<- Hj]]. apply in_seq in Hj.
    specialize (Hz s j (Hs s bits Hin) ltac:(lia)). lia.
Qed.

Lemma constraint_variables_are_below_sid_witness :
  identifiers_fit (tt_of "01-1") 2 2
  /\ Z.of_nat (sid (encode (tt_of "01-1") 2 2)) <= int_max.
Proof.
  assert (Hfit : identifiers_fit (tt_of "01-1") 2 2)
    by (apply identifiers_fitb_spec; vm_compute; reflexivity).
  split; [exact Hfit|].
  exact (proj2 (proj2 (constraint_variables_are_below_sid (tt_of "01-1") 2 2 Hfit))).
Defined.

(** The size of the constraint set of [k] when the identifiers fit an
    [int]: every visited row with symbol '0' or '1' gives [k * num_vars]
    unit implications, [k] converse clauses and one XOR constraint, and
    takes [k] fresh variables. *)
Theorem constraint_set_size (binary : list ascii) (num_vars k : nat) :
  identifiers_fit binary num_vars k ->
  let st := encode binary num_vars k in
  let valued := length (filter (has_value binary) (visited_rows num_vars)) in
  length (clauses (cons st)) = (valued * (k * num_vars + k))%nat
  /\ length (xor_clauses (cons st)) = valued
  /\ sample_counter st = valued
  /\ sid st = (1 + 2 * num_vars * k + valued * k)%nat
  /\ Z.of_nat (sid st) <= int_max.
Proof.
  intro Hfit. cbn zeta.
  split; [|split; [|split; [|split; [|now apply identifiers_fit_sid]]]];
    rewrite encode_eq; cbn [cons clauses xor_clauses sid sample_counter];
    assert (Hlen : length (numbered binary 0 (visited_rows num_vars))
                   = length (filter (has_value binary) (visited_rows num_vars)))
      by (unfold numbered; now rewrite length_combine, length_seq, Nat.min_id).
  - rewrite (length_flat_map_const _ _ (k * num_vars + k)%nat), Hlen; [reflexivity|].
    intros [s bits] _. cbn [fst snd]. unfold row_clauses.
    rewrite length_app, length_map, length_seq.
    rewrite (length_flat_map_const _ _ num_vars).
    + now rewrite length_seq.
    + intros j _. now rewrite length_map, length_seq.
  - now rewrite length_map.
  - exact Hlen.
  - rewrite Hlen. unfold z_var. lia.
Qed.

Lemma constraint_set_size_witness :
  identifiers_fit (tt_of "01-1") 2 2
  /\ length (clauses (cons (encode (tt_of "01-1") 2 2))) = 18%nat.
Proof.
  assert (Hfit : identifiers_fit (tt_of "01-1") 2 2)
    by (apply identifiers_fitb_spec; vm_compute; reflexivity).
  split; [exact Hfit|].
  exact (proj1 (constraint_set_size (tt_of "01-1") 2 2 Hfit)).
Defined.

(** ** Blocking clauses forbid the reorderings and nothing else *)

(** A model of the constraints stays a model after the blocking clauses
    of a solution exactly when, for every permutation of the slots, it
    differs from the solution moved along the permutation. *)
Theorem blocking_clauses_forbid_only_reorderings
  (num_vars k : nat) (m m' : model) (cs : constraints) :
  satisfies m' (add_blocking_clauses num_vars k m cs) = true
  <-> satisfies m' cs = true
      /\ forall vs, Permutation vs (seq 0 k) ->
           exists j l, (j < k)%nat /\ (l < num_vars)%nat
             /\ (p_of num_vars k m j l <> p_of num_vars k m' (nth j vs O) l
                 \/ q_of num_vars k m j l <> q_of num_vars k m' (nth j vs O) l).
Proof.
  rewrite satisfies_add_blocking_clauses, andb_true_iff, forallb_forall.
  split; intros [Hcs H]; (split; [exact Hcs|]).
  - intros vs Hp. apply blocking_clause_forbids.
    + apply Permutation_length in Hp. now rewrite length_seq in Hp.
    + apply H. now apply visited_permutations_spec.
  - intros vs Hvs. apply visited_permutations_spec in Hvs.
    destruct (H vs Hvs) as [j [l [Hj [Hl Hd]]]].
    rewrite blocking_clause_sat.
    rewrite (Permutation_length Hvs), length_seq.
    apply existsb_exists. exists j. split; [apply in_seq; lia|].
    unfold slot_differs. apply existsb_exists. exists l.
    split; [apply in_seq; lia|].
    destruct (p_of num_vars k m j l), (p_of num_vars k m' (nth j vs O) l),
      (q_of num_vars k m j l), (q_of num_vars k m' (nth j vs O) l);
      cbn; try reflexivity; destruct Hd; congruence.
Qed.

(** ** Symbols other than '0' and '1' *)

Lemma encode_same_values (binary binary' : list ascii) (num_vars k : nat) :
  (forall bits, is_zero (char_at binary bits) = is_zero (char_at binary' bits)
                /\ is_one (char_at binary bits) = is_one (char_at binary' bits)) ->
  encode binary num_vars k = encode binary' num_vars k.
Proof.
  intro H. rewrite !encode_eq. cbn zeta.
  assert (Hv : numbered binary 0 (visited_rows num_vars)
               = numbered binary' 0 (visited_rows num_vars)).
  { unfold numbered.
    rewrite (filter_ext (has_value binary) (has_value binary')); [reflexivity|].
    intro bits. unfold has_value. destruct (H bits) as [-> ->]. reflexivity. }
  rewrite Hv. f_equal. f_equal. apply map_ext. intros [s bits].
  unfold row_xor. cbn [fst snd]. now rewrite (proj2 (H bits)).
Qed.

Lemma k_loop_same_values
  (gauss : constraints -> constraints) (to_cnf : nat -> constraints -> constraints)
  (breaking : constraints -> constraints) (solve : constraints -> option model)
  (w : nat -> kitty.cube -> Z) (binary binary' : list ascii) (num_vars : nat)
  (one : bool) (fuel remaining : nat) :
  (forall k, encode binary num_vars k = encode binary' num_vars k) ->
  forall k esops,
    k_loop gauss to_cnf breaking solve w binary num_vars one fuel remaining k esops
    = k_loop gauss to_cnf breaking solve w binary' num_vars one fuel remaining k esops.
Proof.
  intro H. induction remaining as [|r IH]; intros k esops; [reflexivity|].
  cbn [k_loop]. unfold attempt. rewrite (H k).
  destruct (solve_loop _ _ _ _ _ _ _ _) as [res slog].
  destruct res as [es|es|]; try reflexivity.
  destruct (0 <? length es)%nat; [reflexivity|]. now rewrite IH.
Qed.

(** Which symbol stands for a don't care does not matter: two tables of
    the same length with '0' at the same places and '1' at the same
    places give the same outcome and the same events. *)
Theorem dont_care_symbols_are_interchangeable
  (gauss : constraints -> constraints) (to_cnf : nat -> constraints -> constraints)
  (breaking : constraints -> constraints) (solve : constraints -> option model)
  (w : nat -> kitty.cube -> Z) (fuel : nat) (binary binary' : list ascii)
  (cfg : config) :
  length binary = length binary' ->
  (forall bits, is_zero (char_at binary bits) = is_zero (char_at binary' bits)
                /\ is_one (char_at binary bits) = is_one (char_at binary' bits)) ->
  exact_synthesis_from_binary_string_log gauss to_cnf breaking solve w fuel binary cfg
  = exact_synthesis_from_binary_string_log gauss to_cnf breaking solve w fuel binary' cfg.
Proof.
  intros Hlen H. unfold exact_synthesis_from_binary_string_log. rewrite <- Hlen.
  destruct (negb (Z.of_nat (length binary) =? _)); [reflexivity|].
  destruct (negb (Nat.log2 (length binary) <=? 32)%nat); [reflexivity|].
  apply k_loop_same_values. intro k. now apply encode_same_values.
Qed.

Lemma dont_care_symbols_are_interchangeable_witness :
  length (tt_of "1-0x") = length (tt_of "1x0-")
  /\ (forall bits,
        is_zero (char_at (tt_of "1-0x") bits) = is_zero (char_at (tt_of "1x0-") bits)
        /\ is_one (char_at (tt_of "1-0x") bits) = is_one (char_at (tt_of "1x0-") bits))
  /\ run 1 "1-0x" default_config = run 1 "1x0-" default_config.
Proof.
  assert (H : forall bits,
        is_zero (char_at (tt_of "1-0x") bits) = is_zero (char_at (tt_of "1x0-") bits)
        /\ is_one (char_at (tt_of "1-0x") bits) = is_one (char_at (tt_of "1x0-") bits)).
  { intro bits. unfold char_at.
    destruct (Z.to_nat bits) as [|[|[|[|[|n]]]]]; split; reflexivity. }
  split; [reflexivity|]. split; [exact H|].
  exact (dont_care_symbols_are_interchangeable keep keep_from keep search_solve
           bits_weight 1 (tt_of "1-0x") (tt_of "1x0-") default_config eq_refl H).
Defined.

(** ** The rows of tables of up to 31 variables *)

(** Up to 31 variables the loop of lines 77--144 runs its body for the
    rows 0, 1, ..., [2^n - 1], once each and in this order. *)
Theorem row_loop_visits_every_row_once (num_vars : nat) :
  (num_vars <= 31)%nat ->
  visited_rows num_vars = map Z.of_nat (seq 0 (2 ^ num_vars))
  /\ forall (S : Type) (body : Z -> S -> S) (init : S),
       minterm_loop num_vars body init
       = fold_left (fun s i => body i s) (map Z.of_nat (seq 0 (2 ^ num_vars))) init.
Proof.
  intro H. split; [exact (visited_rows_small num_vars H)|].
  intros S body init. exact (minterm_loop_rows num_vars body init H).
Qed.

Lemma row_loop_visits_every_row_once_witness :
  (3 <= 31)%nat /\ visited_rows 3 = map Z.of_nat (seq 0 (2 ^ 3)).
Proof.
  split; [lia|].
  exact (proj1 (row_loop_visits_every_row_once 3 ltac:(lia))).
Defined.

(** ** The events of a call *)

Definition is_encode (ev : event) : bool :=
  match ev with Ev_encode _ => true | Ev_solve _ => false end.

Lemma filter_is_encode_repeat (k calls : nat) (log : list event) :
  filter is_encode (repeat (Ev_solve k) calls ++ log) = filter is_encode log.
Proof. induction calls as [|c IH]; cbn [repeat app filter is_encode]; auto. Qed.

Lemma k_loop_events
  (gauss : constraints -> constraints) (to_cnf : nat -> constraints -> constraints)
  (breaking : constraints -> constraints) (solve : constraints -> option model)
  (w : nat -> kitty.cube -> Z) (binary : list ascii) (num_vars : nat) (one : bool)
  (fuel remaining : nat) :
  forall k esops,
    exists t,
      (t <= remaining)%nat
      /\ filter is_encode
           (snd (k_loop gauss to_cnf breaking solve w binary num_vars one fuel
                   remaining k esops))
         = map Ev_encode (seq k t).
Proof.
  induction remaining as [|r IH]; intros k esops.
  - exists 0%nat. cbn. split; [lia | reflexivity].
  - cbn [k_loop]. rewrite attempt_eq.
    destruct (solve_loop_log solve w num_vars one fuel k
                (solver_input gauss to_cnf breaking binary num_vars k) esops)
      as [calls [Hc Hl]].
    destruct (solve_loop solve w num_vars one fuel k _ esops) as [res slog].
    cbn [snd] in Hl. subst slog.
    assert (Hone : exists t, (t <= S r)%nat
              /\ filter is_encode (Ev_encode k :: repeat (Ev_solve k) calls)
                 = map Ev_encode (seq k t)).
    { exists 1%nat. cbn [filter is_encode seq map].
      rewrite <- (app_nil_r (repeat (Ev_solve k) calls)).
      rewrite filter_is_encode_repeat. cbn [filter].
      split; [lia | reflexivity]. }
    destruct res as [es|es|]; cbn [snd]; try exact Hone.
    destruct (0 <? length es)%nat; cbn [snd]; [exact Hone|].
    destruct (IH (S k) es) as [t [Ht He]].
    destruct (k_loop gauss to_cnf breaking solve w binary num_vars one fuel r (S k) es)
      as [o log'].
    cbn [snd] in *. exists (S t). split; [lia|].
    cbn [app filter is_encode seq map].
    now rewrite filter_is_encode_repeat, He.
Qed.

(** A call builds at most [maximum_cubes] constraint sets (10 when the
    key is absent), for [k = 1, 2, ...] in turn and each once; a table
    that fails an assertion builds none. *)
Theorem at_most_maximum_cubes_encodings
  (gauss : constraints -> constraints) (to_cnf : nat -> constraints -> constraints)
  (breaking : constraints -> constraints) (solve : constraints -> option model)
  (w : nat -> kitty.cube -> Z) (fuel : nat) (binary : list ascii) (cfg : config) :
  let log := snd (exact_synthesis_from_binary_string_log gauss to_cnf breaking
                    solve w fuel binary cfg) in
  exists t,
    (t <= match maximum_cubes cfg with Some c => c | None => 10 end)%nat
    /\ filter is_encode log = map Ev_encode (seq 1 t).
Proof.
  cbn zeta. unfold exact_synthesis_from_binary_string_log.
  destruct (negb (Z.of_nat (length binary) =? _));
    [exists 0%nat; cbn; split; [lia | reflexivity]|].
  destruct (negb (Nat.log2 (length binary) <=? 32)%nat);
    [exists 0%nat; cbn; split; [lia | reflexivity]|].
  apply k_loop_events.
Qed.

(** ** Decoding the model of an ESOP *)

(** A cube over [n] variables: its literals are on the first [n]
    variables and its polarity word has no bit outside the mask. *)
Definition cube_within (n : nat) (c : kitty.cube) : Prop :=
  0 <= kitty._mask c < 2 ^ Z.of_nat n
  /\ Z.land (kitty._bits c) (kitty._mask c) = kitty._bits c.

Lemma testbit_above (x : Z) (n i : Z) :
  0 <= x < 2 ^ n -> 0 <= n <= i -> Z.testbit x i = false.
Proof.
  intros Hx Hi. rewrite <- (Z.mod_small x (2 ^ n)) by exact Hx.
  apply Z.mod_pow2_bits_high. lia.
Qed.

Lemma cube_within_bits (n : nat) (c : kitty.cube) (i : Z) :
  cube_within n c -> 0 <= i ->
  Z.testbit (kitty._mask c) i = (i <? Z.of_nat n) && Z.testbit (kitty._mask c) i
  /\ Z.testbit (kitty._bits c) i
     = Z.testbit (kitty._mask c) i && Z.testbit (kitty._bits c) i.
Proof.
  intros [Hm Hb] Hi. split.
  - destruct (Z.ltb_spec i (Z.of_nat n)) as [L|G]; [reflexivity|].
    cbn [andb]. apply (testbit_above _ (Z.of_nat n)); lia.
  - rewrite <- Hb at 1. rewrite Z.land_spec. apply andb_comm.
Qed.

(** The words of an extracted cube have 32 bits. *)
Lemma extract_cube_high_bits (num_vars k : nat) (m : model) (j : nat) (i : Z) :
  32 <= i ->
  Z.testbit (kitty._bits (fst (extract_cube num_vars k m j))) i = false
  /\ Z.testbit (kitty._mask (fst (extract_cube num_vars k m j))) i = false.
Proof.
  intro Hi. unfold extract_cube.
  set (step := fun (acc : kitty.cube * bool) (l : nat) => _).
  assert (H : forall ls acc,
            Z.testbit (kitty._bits (fst acc)) i = false
            /\ Z.testbit (kitty._mask (fst acc)) i = false ->
            Z.testbit (kitty._bits (fst (fold_left step ls acc))) i = false
            /\ Z.testbit (kitty._mask (fst (fold_left step ls acc))) i = false).
  { induction ls as [|l ls IH]; intros acc Hacc; [exact Hacc|].
    cbn [fold_left]. apply IH. unfold step.
    destruct (model_true m (j * num_vars + l)),
      (model_true m (num_vars * k + j * num_vars + l));
      cbn [andb fst]; try exact Hacc;
      unfold kitty.add_literal; cbn [kitty._bits kitty._mask]; unfold wrap32;
      split; apply Z.mod_pow2_bits_high; lia. }
  apply H. cbn. now rewrite Z.testbit_0_l.
Qed.

Lemma cube_eq (a b : kitty.cube) :
  (forall i, 0 <= i -> Z.testbit (kitty._bits a) i = Z.testbit (kitty._bits b) i
                       /\ Z.testbit (kitty._mask a) i = Z.testbit (kitty._mask b) i) ->
  a = b.
Proof.
  intro H. destruct a as [ab am], b as [bb bm]. cbn [kitty._bits kitty._mask] in H.
  f_equal; apply Z.bits_inj'; intros i Hi; apply H; exact Hi.
Qed.

(** The cube of a term depends on the model through the pattern of the
    term only. *)
Lemma extract_cube_pattern (num_vars k : nat) (m m' : model) (j j' : nat) :
  (forall l, (l < num_vars)%nat ->
             p_of num_vars k m j l = p_of num_vars k m' j' l
             /\ q_of num_vars k m j l = q_of num_vars k m' j' l) ->
  extract_cube num_vars k m j = extract_cube num_vars k m' j'.
Proof.
  intro H. unfold extract_cube. apply fold_left_ext. intros acc l Hl.
  apply in_seq in Hl. cbn zeta.
  rewrite !(model_true_p num_vars k), !(model_true_q num_vars k).
  destruct (H l ltac:(lia)) as [-> ->]. reflexivity.
Qed.

Section RoundTrip.

Variable num_vars k : nat.
Variable valued : list Z.
Variable e : esop_t.

Hypothesis num_vars_le_32 : (num_vars <= 32)%nat.
Hypothesis length_le : (length e <= k)%nat.
Hypothesis within : Forall (cube_within num_vars) e.

Let m := model_of_esop num_vars k valued e.

Lemma pattern_of_cube (j : nat) (c : kitty.cube) (l : nat) :
  nth_error e j = Some c -> (l < num_vars)%nat ->
  p_of num_vars k m j l = kitty.get_mask c l && kitty.get_bit c l
  /\ q_of num_vars k m j l = kitty.get_mask c l && negb (kitty.get_bit c l).
Proof.
  intros Hc Hl.
  assert (Hj : (j < k)%nat).
  { assert (j < length e)%nat by (apply nth_error_Some; congruence). lia. }
  unfold m. rewrite p_of_model_of_esop, q_of_model_of_esop by assumption.
  unfold pattern_p, pattern_q. now rewrite Hc.
Qed.

Lemma term_cube_of_cube (j : nat) (c : kitty.cube) :
  nth_error e j = Some c ->
  void num_vars k m j = false /\ term_cube num_vars k m j = c.
Proof.
  intro Hc.
  assert (Hw : cube_within num_vars c).
  { rewrite Forall_forall in within. apply within. eapply nth_error_In, Hc. }
  split.
  - unfold void. apply not_true_is_false. intro H. apply existsb_exists in H.
    destruct H as [l [Hl H]]. apply in_seq in Hl.
    destruct (pattern_of_cube j c l Hc ltac:(lia)) as [P Q]. rewrite P, Q in H.
    now destruct (kitty.get_mask c l), (kitty.get_bit c l).
  - apply cube_eq. intros i Hi.
    destruct (cube_within_bits num_vars c i Hw Hi) as [Hm Hb].
    destruct (Z.ltb_spec i 32) as [L|G].
    + rewrite <- (Z2Nat.id i Hi) in *.
      set (x := Z.to_nat i) in *.
      destruct (proj2 (extract_cube_prefix num_vars k m j num_vars) x ltac:(lia))
        as [Em Eb].
      cbn zeta in Em, Eb. unfold kitty.get_mask, kitty.get_bit in Em, Eb.
      unfold term_cube, extract_cube. rewrite Em, Eb.
      destruct (Nat.ltb_spec x num_vars) as [Lx|Gx].
      * destruct (pattern_of_cube j c x Hc Lx) as [-> ->].
        unfold kitty.get_mask, kitty.get_bit. rewrite Hb.
        destruct (Z.testbit (kitty._mask c) (Z.of_nat x)),
          (Z.testbit (kitty._bits c) (Z.of_nat x)); split; reflexivity.
      * rewrite Hb, Hm.
        replace (Z.of_nat x <? Z.of_nat num_vars) with false
          by (symmetry; apply Z.ltb_ge; lia).
        split; reflexivity.
    + unfold term_cube.
      destruct (extract_cube_high_bits num_vars k m j i G) as [-> ->].
      rewrite Hb, Hm.
      replace (i <? Z.of_nat num_vars) with false
        by (symmetry; apply Z.ltb_ge; lia).
      split; reflexivity.
Qed.

Hypothesis padding : (length e < k -> 0 < num_vars)%nat.

Lemma void_padding (j : nat) :
  (length e <= j < k)%nat -> void num_vars k m j = true.
Proof.
  intro Hj. unfold void. apply existsb_exists. exists 0%nat.
  split; [apply in_seq; lia|].
  unfold m. rewrite p_of_model_of_esop, q_of_model_of_esop by lia.
  unfold pattern_p, pattern_q.
  now rewrite (proj2 (nth_error_None e j)) by lia.
Qed.

Lemma extract_model_of_esop : extract num_vars k m = e.
Proof.
  rewrite extract_eq.
  replace k with (length e + (k - length e))%nat at 2 by lia.
  rewrite seq_app, filter_app. cbn [Nat.add].
  assert (H1 : filter (fun j => negb (void num_vars k m j)) (seq 0 (length e))
               = seq 0 (length e)).
  { apply filter_all. intros j Hj. apply in_seq in Hj.
    destruct (nth_error e j) as [c|] eqn:Hc;
      [|apply nth_error_None in Hc; lia].
    now rewrite (proj1 (term_cube_of_cube j c Hc)). }
  assert (H2 : filter (fun j => negb (void num_vars k m j))
                 (seq (length e) (k - length e)) = []).
  { assert (Hall : forall x, In x (seq (length e) (k - length e)) ->
                             void num_vars k m x = true).
    { intros x Hx. apply in_seq in Hx. apply void_padding. lia. }
    induction (seq (length e) (k - length e)) as [|x xs IHx]; [reflexivity|].
    cbn [filter]. rewrite (Hall x) by (now left). cbn [negb].
    apply IHx. intros; apply Hall; now right. }
  rewrite H1, H2, app_nil_r.
  rewrite <- (map_id e) at 2.
  apply map_nth_error_seq. intros j c Hc. exact (proj2 (term_cube_of_cube j c Hc)).
Qed.

End RoundTrip.

(** When the identifiers fit an [int], every ESOP of at most [k] cubes
    over the variables of the table that gives the symbols of the visited
    rows is the decoding of a model of the constraint set of [k]: the
    encoder loses no cover.  (With fewer than [k] cubes the free slots
    are made void, which takes a variable.) *)
Theorem every_esop_is_decoded_from_a_model
  (binary : list ascii) (num_vars k : nat) (e : esop_t) :
  (num_vars <= 32)%nat -> (length e <= k)%nat ->
  (length e < k -> 0 < num_vars)%nat ->
  identifiers_fit binary num_vars k ->
  Forall (cube_within num_vars) e ->
  realizes_on binary num_vars (visited_rows num_vars) e = true ->
  exists m, satisfies m (cons (encode binary num_vars k)) = true
            /\ extract num_vars k m = e.
Proof.
  intros Hn Hk Hpad _ Hw Hr.
  exists (model_of_esop num_vars k
            (filter (has_value binary) (visited_rows num_vars)) e).
  split; [now apply esop_has_model | now apply extract_model_of_esop].
Qed.

Lemma every_esop_is_decoded_from_a_model_witness :
  (2 <= 32)%nat /\ (2 <= 3)%nat /\ (2 < 3 -> 0 < 2)%nat
  /\ identifiers_fit (tt_of "0110") 2 3
  /\ Forall (cube_within 2) [kitty.mk_cube 1 1; kitty.mk_cube 2 2]
  /\ realizes_on (tt_of "0110") 2 (visited_rows 2)
       [kitty.mk_cube 1 1; kitty.mk_cube 2 2] = true
  /\ exists m, satisfies m (cons (encode (tt_of "0110") 2 3)) = true
               /\ extract 2 3 m = [kitty.mk_cube 1 1; kitty.mk_cube 2 2].
Proof.
  assert (Hw : Forall (cube_within 2) [kitty.mk_cube 1 1; kitty.mk_cube 2 2]).
  { repeat constructor; cbn; lia. }
  assert (Hr : realizes_on (tt_of "0110") 2 (visited_rows 2)
                 [kitty.mk_cube 1 1; kitty.mk_cube 2 2] = true)
    by (vm_compute; reflexivity).
  assert (Hn : (2 <= 32)%nat) by lia.
  assert (Hk : (2 <= 3)%nat) by lia.
  assert (Hp : (2 < 3 -> 0 < 2)%nat) by lia.
  assert (Hfit : identifiers_fit (tt_of "0110") 2 3)
    by (apply identifiers_fitb_spec; vm_compute; reflexivity).
  split; [exact Hn|]. split; [exact Hk|]. split; [exact Hp|].
  split; [exact Hfit|]. split; [exact Hw|]. split; [exact Hr|].
  exact (every_esop_is_decoded_from_a_model (tt_of "0110") 2 3
           [kitty.mk_cube 1 1; kitty.mk_cube 2 2] Hn Hk Hp Hfit Hw Hr).
Defined.

(** ** Enumeration loses no solution *)

(** What the enumeration asks of the preprocessing.  A stage that breaks
    symmetries forbids assignments that differ from one it keeps by the
    order of the terms, and a stage that rewrites the constraints may
    change the other variables.  So a model of the constraint set of [k]
    need not stay a model, but the preprocessed set has a model that holds
    its p/q patterns, moved along a permutation of the term slots: slot
    [j] of the new model holds the pattern of slot [vs[j]]. *)
Definition preprocess_keeps_a_reordering
  (gauss : constraints -> constraints)
  (to_cnf : nat -> constraints -> constraints)
  (breaking : constraints -> constraints)
  (binary : list ascii) (num_vars : nat) : Prop :=
  forall k m,
    satisfies m (cons (encode binary num_vars k)) = true ->
    exists m' vs,
      Permutation vs (seq 0 k)
      /\ satisfies m' (preprocess gauss to_cnf breaking
                         (sid (encode binary num_vars k))
                         (cons (encode binary num_vars k))) = true
      /\ forall j l, (j < k)%nat -> (l < num_vars)%nat ->
           p_of num_vars k m' j l = p_of num_vars k m (nth j vs 0%nat) l
           /\ q_of num_vars k m' j l = q_of num_vars k m (nth j vs 0%nat) l.

Lemma keeps_a_reordering_is_complete
  (gauss : constraints -> constraints) (to_cnf : nat -> constraints -> constraints)
  (breaking : constraints -> constraints) (binary : list ascii) (num_vars : nat) :
  preprocess_keeps_a_reordering gauss to_cnf breaking binary num_vars ->
  preprocess_complete gauss to_cnf breaking binary num_vars.
Proof.
  intros H k m Hm. destruct (H k m Hm) as [m' [vs [_ [Hm' _]]]]. now exists m'.
Qed.

Lemma keep_keeps_a_reordering (binary : list ascii) (num_vars : nat) :
  preprocess_keeps_a_reordering keep keep_from keep binary num_vars.
Proof.
  intros k m H. exists m, (seq 0 k).
  split; [apply Permutation_refl|]. split; [exact H|].
  intros j l Hj Hl. now rewrite seq_nth by exact Hj.
Qed.

Lemma nth_permutation_lt (vs : list nat) (k j : nat) :
  Permutation vs (seq 0 k) -> (j < k)%nat -> (nth j vs 0 < k)%nat.
Proof.
  intros Hvs Hj.
  assert (Hl : length vs = k)
    by (apply Permutation_length in Hvs; now rewrite length_seq in Hvs).
  assert (H : In (nth j vs 0%nat) (seq 0 k))
    by (eapply Permutation_in; [exact Hvs | apply nth_In; lia]).
  apply in_seq in H. lia.
Qed.

Lemma forallb_false {A} (f : A -> bool) (l : list A) :
  forallb f l = false -> exists x, In x l /\ f x = false.
Proof.
  induction l as [|x l IH]; cbn [forallb]; [discriminate|].
  destruct (f x) eqn:E; cbn [andb]; intro H.
  - destruct (IH H) as [y [Hy Hf]]. exists y. split; [now right | exact Hf].
  - exists x. split; [now left | exact E].
Qed.

Lemma existsb_false {A} (f : A -> bool) (l : list A) (x : A) :
  existsb f l = false -> In x l -> f x = false.
Proof.
  intros H Hx. apply not_true_is_false. intro E.
  assert (existsb f l = true) by (apply existsb_exists; now exists x).
  congruence.
Qed.

Lemma map_nth_seq {A} (l : list A) (d : A) :
  map (fun i => nth i l d) (seq 0 (length l)) = l.
Proof.
  transitivity (map (fun x : A => x) l); [|apply map_id].
  apply map_nth_error_seq. intros j c H. now apply nth_error_nth.
Qed.

(** *** The terms of a model in another order *)

Lemma forallb_permutation {A} (f : A -> bool) (a b : list A) :
  Permutation a b -> forallb f a = forallb f b.
Proof.
  intro H. induction H as [|x a b H IH|x y a|a b c H1 IH1 H2 IH2];
    cbn [forallb]; try reflexivity.
  - now rewrite IH.
  - now rewrite !andb_assoc, (andb_comm (f y)).
  - now rewrite IH1.
Qed.

Section Reorder.

Variable num_vars k : nat.
Variable rows_with_value : nat.
Variable vs : list nat.

(** The assignment whose slot [j] holds what slot [vs[j]] of [m] holds:
    the p and q variables of the term and its coverage variable for every
    row that carries a value. *)
Definition reorder (m : model) : model :=
  map (fun i =>
         if (i <? num_vars * k)%nat
         then p_of num_vars k m (nth (i / num_vars) vs 0%nat) (i mod num_vars)
         else if (i <? 2 * num_vars * k)%nat
         then q_of num_vars k m (nth ((i - num_vars * k) / num_vars) vs 0%nat)
                ((i - num_vars * k) mod num_vars)
         else z_of num_vars k m ((i - 2 * num_vars * k) / k)
                (nth ((i - 2 * num_vars * k) mod k) vs 0%nat))
      (seq 0 (2 * num_vars * k + rows_with_value * k)).

Lemma p_of_reorder (m : model) (j l : nat) :
  (j < k)%nat -> (l < num_vars)%nat ->
  p_of num_vars k (reorder m) j l = p_of num_vars k m (nth j vs 0%nat) l.
Proof.
  intros Hj Hl. unfold p_of at 1. unfold p_var. cbn [Nat.add].
  rewrite var_value_of_nat.
  unfold reorder. rewrite model_true_map by nia.
  replace (num_vars * j + l <? num_vars * k)%nat with true
    by (symmetry; apply Nat.ltb_lt; nia).
  destruct (div_mod_at num_vars j l Hl) as [-> ->]. reflexivity.
Qed.

Lemma q_of_reorder (m : model) (j l : nat) :
  (j < k)%nat -> (l < num_vars)%nat ->
  q_of num_vars k (reorder m) j l = q_of num_vars k m (nth j vs 0%nat) l.
Proof.
  intros Hj Hl. unfold q_of at 1. unfold q_var. cbn [Nat.add].
  rewrite var_value_of_nat.
  unfold reorder. rewrite model_true_map by nia.
  replace (num_vars * k + num_vars * j + l <? num_vars * k)%nat with false
    by (symmetry; apply Nat.ltb_ge; nia).
  replace (num_vars * k + num_vars * j + l <? 2 * num_vars * k)%nat with true
    by (symmetry; apply Nat.ltb_lt; nia).
  replace (num_vars * k + num_vars * j + l - num_vars * k)%nat
    with (num_vars * j + l)%nat by lia.
  destruct (div_mod_at num_vars j l Hl) as [-> ->]. reflexivity.
Qed.

Lemma z_of_reorder (m : model) (s j : nat) :
  (j < k)%nat -> (s < rows_with_value)%nat ->
  z_of num_vars k (reorder m) s j = z_of num_vars k m s (nth j vs 0%nat).
Proof.
  intros Hj Hs. unfold z_of at 1. unfold z_var. cbn [Nat.add].
  rewrite var_value_of_nat.
  unfold reorder. rewrite model_true_map by nia.
  replace (2 * num_vars * k + s * k + j <? num_vars * k)%nat with false
    by (symmetry; apply Nat.ltb_ge; nia).
  replace (2 * num_vars * k + s * k + j <? 2 * num_vars * k)%nat with false
    by (symmetry; apply Nat.ltb_ge; nia).
  replace (2 * num_vars * k + s * k + j - 2 * num_vars * k)%nat
    with (k * s + j)%nat by lia.
  destruct (div_mod_at k s j Hj) as [-> ->]. reflexivity.
Qed.

Hypothesis vs_permutation : Permutation vs (seq 0 k).

(** The constraint set of [k] does not tell the order of the terms. *)
Lemma satisfies_reorder (binary : list ascii) (m : model) :
  rows_with_value = valued_rows binary num_vars ->
  satisfies (reorder m) (cons (encode binary num_vars k))
  = satisfies m (cons (encode binary num_vars k)).
Proof.
  intro Hrows. rewrite !satisfies_encode.
  assert (Hlvs : length vs = k).
  { apply Permutation_length in vs_permutation.
    now rewrite length_seq in vs_permutation. }
  assert (Emap : map (fun j => nth j vs 0%nat) (seq 0 k) = vs)
    by (rewrite <- Hlvs; apply map_nth_seq).
  apply forallb_ext_in. intros [s bits] Hin.
  assert (Hs : (s < rows_with_value)%nat).
  { unfold numbered in Hin. destruct (in_combine_seq 0 _ _ _ _ Hin) as [Hr _].
    rewrite Hrows. unfold valued_rows. lia. }
  unfold row_holds. cbn [fst snd]. apply (f_equal2 andb).
  - rewrite (forallb_ext_in _
               (fun j => (fun i => Bool.eqb (z_of num_vars k m s i)
                            (compatible num_vars (p_of num_vars k m i)
                               (q_of num_vars k m i) bits))
                         (nth j vs 0%nat))).
    + rewrite <- (forallb_map
                    (fun i => Bool.eqb (z_of num_vars k m s i)
                                (compatible num_vars (p_of num_vars k m i)
                                   (q_of num_vars k m i) bits))
                    (fun j => nth j vs 0%nat)).
      rewrite Emap. now apply forallb_permutation.
    + intros j Hj. apply in_seq in Hj. cbn beta.
      rewrite z_of_reorder by lia. f_equal.
      apply compatible_ext. intros l Hl.
      now rewrite p_of_reorder, q_of_reorder by lia.
  - f_equal.
    rewrite (map_ext_in _ (fun j => z_of num_vars k m s (nth j vs 0%nat)))
      by (intros j Hj; apply in_seq in Hj; apply z_of_reorder; lia).
    rewrite <- (map_map (fun j => nth j vs 0%nat) (z_of num_vars k m s)), Emap.
    now apply xor_all_permutation, Permutation_map.
Qed.

End Reorder.

(** The constraint set of [k] is symmetric in the terms: when the
    identifiers fit an [int], an assignment and the assignment with its
    terms moved along a permutation of the slots satisfy it together.
    (This is why a solution is blocked once for every permutation, lines
    222--239.) *)
Theorem constraint_set_is_symmetric_in_the_terms
  (binary : list ascii) (num_vars k : nat) (vs : list nat) (m : model) :
  identifiers_fit binary num_vars k ->
  Permutation vs (seq 0 k) ->
  let m' := reorder num_vars k (valued_rows binary num_vars) vs m in
  satisfies m' (cons (encode binary num_vars k))
  = satisfies m (cons (encode binary num_vars k))
  /\ (forall j l, (j < k)%nat -> (l < num_vars)%nat ->
         p_of num_vars k m' j l = p_of num_vars k m (nth j vs 0%nat) l
         /\ q_of num_vars k m' j l = q_of num_vars k m (nth j vs 0%nat) l)
  /\ (forall s j, (s < valued_rows binary num_vars)%nat -> (j < k)%nat ->
         z_of num_vars k m' s j = z_of num_vars k m s (nth j vs 0%nat)).
Proof.
  intros _ Hvs. cbn zeta. split; [|split].
  - now apply satisfies_reorder.
  - intros j l Hj Hl. now rewrite p_of_reorder, q_of_reorder by assumption.
  - intros s j Hs Hj. now apply z_of_reorder.
Qed.

Lemma constraint_set_is_symmetric_in_the_terms_witness :
  identifiers_fit (tt_of "0110") 2 2
  /\ Permutation [1%nat; 0%nat] (seq 0 2)
  /\ satisfies
       (reorder 2 2 (valued_rows (tt_of "0110") 2) [1%nat; 0%nat]
          [true; false; false; true; false; false; false; false;
           false; false; true; false; false; true; true; true])
       (cons (encode (tt_of "0110") 2 2))
     = satisfies
         [true; false; false; true; false; false; false; false;
          false; false; true; false; false; true; true; true]
         (cons (encode (tt_of "0110") 2 2)).
Proof.
  assert (Hfit : identifiers_fit (tt_of "0110") 2 2)
    by (apply identifiers_fitb_spec; vm_compute; reflexivity).
  assert (Hvs : Permutation [1%nat; 0%nat] (seq 0 2)) by apply perm_swap.
  split; [exact Hfit|]. split; [exact Hvs|].
  exact (proj1 (constraint_set_is_symmetric_in_the_terms (tt_of "0110") 2 2
                  [1%nat; 0%nat]
                  [true; false; false; true; false; false; false; false;
                   false; false; true; false; false; true; true; true]
                  Hfit Hvs)).
Defined.

(** *** A stage that breaks one symmetry

    It stands for the symmetry-breaking stage in the runs on concrete
    tables.  With at least two terms and one variable it adds the clause
    {-p(0,0), p(1,0)}, which one of the two orders of the first two terms
    satisfies.  It is given the number of variables and of rows that
    carry a value, and reads [k] off the number of clauses, [k *
    (num_vars + 1)] for each such row. *)
Definition order_first_two (num_vars rows_with_value : nat) (cs : constraints)
  : constraints :=
  let k := (length (clauses cs) / (rows_with_value * (num_vars + 1)))%nat in
  if (2 <=? k)%nat
  then add_clause [ - Z.of_nat (p_var num_vars k 0 0);
                    Z.of_nat (p_var num_vars k 1 0) ] cs
  else cs.

Lemma satisfies_add_clause (m : model) (c : clause_t) (cs : constraints) :
  satisfies m (add_clause c cs) = satisfies m cs && clause_sat m c.
Proof.
  unfold satisfies, add_clause. cbn [clauses xor_clauses].
  rewrite forallb_app. cbn [forallb]. rewrite andb_true_r.
  now rewrite <- !andb_assoc, (andb_comm (clause_sat m c)).
Qed.

Lemma length_clauses_encode (binary : list ascii) (num_vars k : nat) :
  length (clauses (cons (encode binary num_vars k)))
  = (valued_rows binary num_vars * (k * num_vars + k))%nat.
Proof.
  rewrite encode_eq. cbn [cons clauses].
  rewrite (length_flat_map_const _ _ (k * num_vars + k)%nat).
  - f_equal. unfold numbered, valued_rows.
    now rewrite length_combine, length_seq, Nat.min_id.
  - intros [s bits] _. cbn [fst snd]. unfold row_clauses.
    rewrite length_app, length_map, length_seq.
    rewrite (length_flat_map_const _ _ num_vars).
    + now rewrite length_seq.
    + intros j _. now rewrite length_map, length_seq.
Qed.

Lemma order_first_two_encode (binary : list ascii) (num_vars k : nat) :
  (0 < valued_rows binary num_vars)%nat ->
  order_first_two num_vars (valued_rows binary num_vars)
    (cons (encode binary num_vars k))
  = if (2 <=? k)%nat
    then add_clause [ - Z.of_nat (p_var num_vars k 0 0);
                      Z.of_nat (p_var num_vars k 1 0) ]
           (cons (encode binary num_vars k))
    else cons (encode binary num_vars k).
Proof.
  intro Hrows. unfold order_first_two. rewrite length_clauses_encode.
  replace (valued_rows binary num_vars * (k * num_vars + k))%nat
    with (k * (valued_rows binary num_vars * (num_vars + 1)))%nat by lia.
  rewrite Nat.div_mul by nia. reflexivity.
Qed.

Lemma order_first_two_sound (binary : list ascii) (num_vars rows_with_value : nat) :
  preprocess_sound keep keep_from (order_first_two num_vars rows_with_value)
    binary num_vars.
Proof.
  intros k m. unfold preprocess, keep, keep_from, order_first_two. cbn zeta.
  destruct (2 <=? _)%nat; [|auto].
  rewrite satisfies_add_clause. intro H. now apply andb_prop in H.
Qed.

Lemma order_first_two_clause_sat (num_vars k : nat) (m : model) :
  clause_sat m [ - Z.of_nat (p_var num_vars k 0 0); Z.of_nat (p_var num_vars k 1 0) ]
  = negb (p_of num_vars k m 0 0) || p_of num_vars k m 1 0.
Proof.
  unfold clause_sat, p_of, p_var. cbn [existsb Nat.add].
  now rewrite lit_value_neg, lit_value_pos, !var_value_of_nat, orb_false_r.
Qed.

(** Every model of the constraint set of [k] is kept by the stage, as it
    is or with its first two terms exchanged. *)
Lemma order_first_two_keeps_a_reordering (binary : list ascii) (num_vars : nat) :
  (0 < num_vars)%nat -> (0 < valued_rows binary num_vars)%nat ->
  preprocess_keeps_a_reordering keep keep_from
    (order_first_two num_vars (valued_rows binary num_vars)) binary num_vars.
Proof.
  intros Hn Hrows k m Hm. unfold preprocess, keep, keep_from.
  rewrite order_first_two_encode by exact Hrows.
  assert (Hid : forall j l : nat, (j < k)%nat -> (l < num_vars)%nat ->
            p_of num_vars k m j l = p_of num_vars k m (nth j (seq 0 k) 0%nat) l
            /\ q_of num_vars k m j l = q_of num_vars k m (nth j (seq 0 k) 0%nat) l)
    by (intros j l Hj Hl; now rewrite seq_nth by exact Hj).
  destruct (2 <=? k)%nat eqn:K.
  - apply Nat.leb_le in K.
    destruct (clause_sat m [ - Z.of_nat (p_var num_vars k 0 0);
                             Z.of_nat (p_var num_vars k 1 0) ]) eqn:C.
    + exists m, (seq 0 k). split; [apply Permutation_refl|].
      split; [|exact Hid]. now rewrite satisfies_add_clause, Hm, C.
    + destruct k as [|[|k']]; [lia|lia|].
      set (vs := 1%nat :: 0%nat :: seq 2 k').
      assert (Hvs : Permutation vs (seq 0 (S (S k')))) by apply perm_swap.
      exists (reorder num_vars (S (S k')) (valued_rows binary num_vars) vs m), vs.
      split; [exact Hvs|]. split.
      * rewrite satisfies_add_clause, (satisfies_reorder _ _ _ _ Hvs binary m eq_refl), Hm.
        cbn [andb]. rewrite order_first_two_clause_sat in C |- *.
        rewrite !p_of_reorder by lia. cbn [vs nth].
        destruct (p_of num_vars (S (S k')) m 0 0), (p_of num_vars (S (S k')) m 1 0);
          try discriminate; reflexivity.
      * intros j l Hj Hl. now rewrite p_of_reorder, q_of_reorder by assumption.
  - exists m, (seq 0 k). split; [apply Permutation_refl|].
    split; [exact Hm | exact Hid].
Qed.

Section Exhaustive.

Variable gauss_elimination : constraints -> constraints.
Variable xor_clauses_to_cnf : nat -> constraints -> constraints.
Variable cnf_symmetry_breaking : constraints -> constraints.
Variable solve : constraints -> option model.
Variable cube_weight : nat -> kitty.cube -> Z.
Variable binary : list ascii.
Variable num_vars : nat.
Variable k : nat.

Hypothesis sound : solver_sound solve.
Hypothesis complete : solver_complete solve.
Hypothesis pre_sound :
  preprocess_sound gauss_elimination xor_clauses_to_cnf cnf_symmetry_breaking
    binary num_vars.
Hypothesis pre_reordering :
  preprocess_keeps_a_reordering gauss_elimination xor_clauses_to_cnf
    cnf_symmetry_breaking binary num_vars.
Hypothesis num_vars_le_32 : (num_vars <= 32)%nat.

Let input := solver_input gauss_elimination xor_clauses_to_cnf
               cnf_symmetry_breaking binary num_vars.

Hypothesis unsat_before : (2 <= k)%nat -> solve (input (k - 1)) = None.

(** When the solve loop of [k] ends on "unsatisfiable", every ESOP of
    [k] cubes that gives the symbols of the visited rows holds the cubes
    of one of the solutions taken. *)
Lemma exhausted_holds_every_esop (ms : list model) (e' : esop_t) :
  found solve num_vars false k (input k) ms ->
  solve (constraints_after num_vars k (input k) ms) = None ->
  Forall (cube_within num_vars) e' -> length e' = k ->
  realizes_on binary num_vars (visited_rows num_vars) e' = true ->
  exists m, In m ms /\ Permutation (extract num_vars k m) e'.
Proof.
  intros Hf Hnone Hw Hlen Hr.
  set (me := model_of_esop num_vars k
               (filter (has_value binary) (visited_rows num_vars)) e').
  assert (Hme : satisfies me (cons (encode binary num_vars k)) = true)
    by (apply esop_has_model; [lia | lia | exact Hr]).
  destruct (pre_reordering k me Hme) as [m' [vs0 [Hvs0 [Hm' Hpq]]]].
  fold (input k) in Hm'. change (satisfies m' (input k) = true) in Hm'.
  pose proof (complete _ Hnone m') as Hc.
  rewrite satisfies_after, Hm' in Hc. cbn [andb] in Hc.
  apply forallb_false in Hc. destruct Hc as [m [Hm Hc]].
  apply forallb_false in Hc. destruct Hc as [vs [Hvs Hc]].
  apply visited_permutations_spec in Hvs.
  assert (Hlvs : length vs = k)
    by (apply Permutation_length in Hvs; now rewrite length_seq in Hvs).
  assert (Hlvs0 : length vs0 = k)
    by (apply Permutation_length in Hvs0; now rewrite length_seq in Hvs0).
  rewrite blocking_clause_sat, Hlvs in Hc.
  pose proof (nth_permutation_lt vs k) as Hin.
  pose proof (nth_permutation_lt vs0 k) as Hin0.
  assert (Hcube : forall j, (j < k)%nat ->
            term_cube num_vars k m j
            = nth (nth (nth j vs O) vs0 O) e' kitty.empty).
  { intros j Hj.
    pose proof (Hin j Hvs Hj) as Hj1. pose proof (Hin0 _ Hvs0 Hj1) as Hj2.
    destruct (nth_error e' (nth (nth j vs O) vs0 O)) as [c|] eqn:Ec;
      [|apply nth_error_None in Ec; lia].
    rewrite (nth_error_nth _ _ _ Ec).
    rewrite <- (proj2 (term_cube_of_cube num_vars k
                        (filter (has_value binary) (visited_rows num_vars)) e'
                        num_vars_le_32 ltac:(lia) Hw _ c Ec)).
    fold me. unfold term_cube. f_equal. apply extract_cube_pattern.
    intros l Hl.
    pose proof (existsb_false _ _ j Hc ltac:(apply in_seq; lia)) as Hs.
    unfold slot_differs in Hs.
    pose proof (existsb_false _ _ l Hs ltac:(apply in_seq; lia)) as Hd.
    cbn beta in Hd. apply orb_false_elim in Hd. destruct Hd as [Hp Hq].
    destruct (Hpq (nth j vs O) l Hj1 Hl) as [<- <-].
    split; [now apply xorb_eq | now apply xorb_eq]. }
  exists m. split; [exact Hm|].
  rewrite extract_eq.
  rewrite (filter_all (fun j => negb (void num_vars k m j)) (seq 0 k)).
  - rewrite (map_ext_in _ (fun j => nth (nth (nth j vs O) vs0 O) e' kitty.empty))
      by (intros j Hj; apply in_seq in Hj; apply Hcube; lia).
    rewrite <- (map_map (fun j => nth (nth j vs O) vs0 O)
                        (fun i => nth i e' kitty.empty)).
    rewrite <- (map_map (fun j => nth j vs O) (fun i => nth i vs0 O)).
    assert (E1 : map (fun j => nth j vs O) (seq 0 k) = vs)
      by (rewrite <- Hlvs; apply map_nth_seq).
    assert (E0 : map (fun i => nth i vs0 O) (seq 0 k) = vs0)
      by (rewrite <- Hlvs0; apply map_nth_seq).
    assert (E2 : map (fun i => nth i e' kitty.empty) (seq 0 k) = e')
      by (rewrite <- Hlen; apply map_nth_seq).
    rewrite E1.
    apply (perm_trans (l' := map (fun i => nth i e' kitty.empty) (seq 0 k)));
      [|rewrite E2; apply Permutation_refl].
    apply Permutation_map.
    eapply perm_trans; [apply Permutation_map, Hvs|].
    rewrite E0. exact Hvs0.
  - intros j Hj. apply in_seq in Hj.
    rewrite (found_no_void gauss_elimination xor_clauses_to_cnf
               cnf_symmetry_breaking solve binary num_vars false k
               sound complete pre_sound
               (keeps_a_reordering_is_complete _ _ _ _ _ pre_reordering)
               num_vars_le_32 unsat_before ms m j Hf Hm) by lia.
    reflexivity.
Qed.

End Exhaustive.

(** In enumeration mode, for a table of at most 31 variables, a sound
    and complete solver and a preprocessing that adds no model and keeps
    every model up to the order of the terms, and when the identifiers of
    every [k] tried fit an [int], the result holds every solution of its
    size up to the order of the cubes: every ESOP over the variables of
    the table that computes the function with as many cubes as a returned
    ESOP holds the same cubes as some returned ESOP. *)
Theorem enumeration_is_exhaustive
  (gauss : constraints -> constraints) (to_cnf : nat -> constraints -> constraints)
  (breaking : constraints -> constraints) (solve : constraints -> option model)
  (w : nat -> kitty.cube -> Z) (fuel : nat) (binary : list ascii) (cfg : config)
  (num_vars : nat) (es : esops_t) (log : list event) :
  solver_sound solve -> solver_complete solve ->
  preprocess_sound gauss to_cnf breaking binary num_vars ->
  preprocess_keeps_a_reordering gauss to_cnf breaking binary num_vars ->
  length binary = (2 ^ num_vars)%nat -> (num_vars <= 31)%nat ->
  one_esop cfg = Some false ->
  exact_synthesis_from_binary_string_log gauss to_cnf breaking solve w fuel
    binary cfg = (Returned es, log) ->
  (forall k, In (Ev_encode k) log -> identifiers_fit binary num_vars k) ->
  forall e0 e',
    In e0 es -> Forall (cube_within num_vars) e' ->
    realizes binary num_vars e' = true -> length e' = length e0 ->
    exists e, In e es /\ Permutation e e'.
Proof.
  intros Hsound Hcomplete Hps Hpc Hlen Hn Hone Ek _ e0 e' He0 Hw Hr Hl.
  rewrite (accepted_call _ _ _ _ _ _ _ _ num_vars) in Ek by (try assumption; lia).
  rewrite Hone in Ek.
  apply k_loop_run in Ek.
  destruct Ek as [n [_ [Hnone [[_ [-> _]]|[_ [log' [_ Hstop]]]]]]];
    [contradiction|].
  destruct Hstop as [ms [Hf [_ [_ [[-> [_ Hs]]|[m [_ [-> Hx]]]]]]]].
  - assert (Hunsat : (2 <= 1 + n)%nat ->
              solve (solver_input gauss to_cnf breaking binary num_vars (1 + n - 1))
              = None) by (intro K; apply Hnone; lia).
    unfold sorted_esops in He0. apply in_map_iff in He0.
    destruct He0 as [m0 [<- Hm0]].
    assert (Hk : length e' = (1 + n)%nat).
    { rewrite Hl, (Permutation_length (sort_cubes_permutation _ _)).
      rewrite extract_eq, length_map, filter_all; [apply length_seq|].
      intros j Hj. apply in_seq in Hj.
      rewrite (found_no_void gauss to_cnf breaking solve binary num_vars false
                 (1 + n) Hsound Hcomplete Hps
                 (keeps_a_reordering_is_complete _ _ _ _ _ Hpc)
                 ltac:(lia) Hunsat ms m0 j Hf Hm0) by lia.
      reflexivity. }
    unfold realizes in Hr. rewrite <- visited_rows_small in Hr by exact Hn.
    destruct (exhausted_holds_every_esop gauss to_cnf breaking solve binary
                num_vars (1 + n) Hsound Hcomplete Hps Hpc ltac:(lia) Hunsat
                ms e' Hf Hs Hw Hk Hr) as [m [Hm Hp]].
    exists (sort_cubes (w num_vars) (extract num_vars (1 + n) m)). split.
    + unfold sorted_esops. apply in_map_iff. now exists m.
    + eapply perm_trans; [apply sort_cubes_permutation | exact Hp].
  - destruct Hx as [Hx|Hx]; [|discriminate].
    rewrite Hx in He0. destruct He0 as [<-|[]]. cbn [length] in Hl.
    destruct e'; [|discriminate]. exists []. split; [rewrite Hx; now left|constructor].
Qed.

(** The table "011-" in enumeration mode, with the stage that orders the
    first two terms: no ESOP of one cube, six of two cubes. *)
Lemma run_011x_ordered :
  exact_synthesis_from_binary_string_log keep keep_from
    (order_first_two 2 (valued_rows (tt_of "011-") 2)) search_solve
    bits_weight 7 (tt_of "011-") enumerate
  = (Returned [[kitty.mk_cube 0 0; kitty.mk_cube 0 3];
               [kitty.mk_cube 1 1; kitty.mk_cube 2 2];
               [kitty.mk_cube 1 1; kitty.mk_cube 2 3];
               [kitty.mk_cube 1 3; kitty.mk_cube 2 2];
               [kitty.mk_cube 1 3; kitty.mk_cube 2 3];
               [kitty.mk_cube 0 1; kitty.mk_cube 0 2]],
     [Ev_encode 1; Ev_solve 1; Ev_encode 2; Ev_solve 2; Ev_solve 2;
      Ev_solve 2; Ev_solve 2; Ev_solve 2; Ev_solve 2; Ev_solve 2]).
Proof. vm_compute. reflexivity. Qed.

Lemma enumeration_is_exhaustive_witness :
  solver_sound search_solve /\ solver_complete search_solve
  /\ preprocess_sound keep keep_from
       (order_first_two 2 (valued_rows (tt_of "011-") 2)) (tt_of "011-") 2
  /\ preprocess_keeps_a_reordering keep keep_from
       (order_first_two 2 (valued_rows (tt_of "011-") 2)) (tt_of "011-") 2
  /\ length (tt_of "011-") = (2 ^ 2)%nat /\ (2 <= 31)%nat
  /\ one_esop enumerate = Some false
  /\ exact_synthesis_from_binary_string_log keep keep_from
       (order_first_two 2 (valued_rows (tt_of "011-") 2)) search_solve
       bits_weight 7 (tt_of "011-") enumerate
     = (Returned [[kitty.mk_cube 0 0; kitty.mk_cube 0 3];
                  [kitty.mk_cube 1 1; kitty.mk_cube 2 2];
                  [kitty.mk_cube 1 1; kitty.mk_cube 2 3];
                  [kitty.mk_cube 1 3; kitty.mk_cube 2 2];
                  [kitty.mk_cube 1 3; kitty.mk_cube 2 3];
                  [kitty.mk_cube 0 1; kitty.mk_cube 0 2]],
        [Ev_encode 1; Ev_solve 1; Ev_encode 2; Ev_solve 2; Ev_solve 2;
         Ev_solve 2; Ev_solve 2; Ev_solve 2; Ev_solve 2; Ev_solve 2])
  /\ (forall k,
        In (Ev_encode k)
           [Ev_encode 1; Ev_solve 1; Ev_encode 2; Ev_solve 2; Ev_solve 2;
            Ev_solve 2; Ev_solve 2; Ev_solve 2; Ev_solve 2; Ev_solve 2] ->
        identifiers_fit (tt_of "011-") 2 k)
  /\ In [kitty.mk_cube 0 0; kitty.mk_cube 0 3]
        [[kitty.mk_cube 0 0; kitty.mk_cube 0 3];
         [kitty.mk_cube 1 1; kitty.mk_cube 2 2];
         [kitty.mk_cube 1 1; kitty.mk_cube 2 3];
         [kitty.mk_cube 1 3; kitty.mk_cube 2 2];
         [kitty.mk_cube 1 3; kitty.mk_cube 2 3];
         [kitty.mk_cube 0 1; kitty.mk_cube 0 2]]
  /\ Forall (cube_within 2) [kitty.mk_cube 2 3; kitty.mk_cube 1 1]
  /\ realizes (tt_of "011-") 2 [kitty.mk_cube 2 3; kitty.mk_cube 1 1] = true
  /\ length [kitty.mk_cube 2 3; kitty.mk_cube 1 1]
     = length [kitty.mk_cube 0 0; kitty.mk_cube 0 3]
  /\ exists e, In e [[kitty.mk_cube 0 0; kitty.mk_cube 0 3];
                     [kitty.mk_cube 1 1; kitty.mk_cube 2 2];
                     [kitty.mk_cube 1 1; kitty.mk_cube 2 3];
                     [kitty.mk_cube 1 3; kitty.mk_cube 2 2];
                     [kitty.mk_cube 1 3; kitty.mk_cube 2 3];
                     [kitty.mk_cube 0 1; kitty.mk_cube 0 2]]
               /\ Permutation e [kitty.mk_cube 2 3; kitty.mk_cube 1 1].
Proof.
  assert (Hw : Forall (cube_within 2) [kitty.mk_cube 2 3; kitty.mk_cube 1 1])
    by (repeat constructor; cbn; lia).
  assert (Hr : realizes (tt_of "011-") 2 [kitty.mk_cube 2 3; kitty.mk_cube 1 1] = true)
    by (vm_compute; reflexivity).
  assert (Hn : (2 <= 31)%nat) by lia.
  assert (Hn0 : (0 < 2)%nat) by lia.
  assert (Hrows : (0 < valued_rows (tt_of "011-") 2)%nat)
    by (apply Nat.ltb_lt; vm_compute; reflexivity).
  assert (Hfit : forall k,
            In (Ev_encode k)
               [Ev_encode 1; Ev_solve 1; Ev_encode 2; Ev_solve 2; Ev_solve 2;
                Ev_solve 2; Ev_solve 2; Ev_solve 2; Ev_solve 2; Ev_solve 2] ->
            identifiers_fit (tt_of "011-") 2 k)
    by (apply encodings_fit; vm_compute; reflexivity).
  split; [exact search_solve_sound|]. split; [exact search_solve_complete|].
  split; [apply order_first_two_sound|].
  split; [exact (order_first_two_keeps_a_reordering _ _ Hn0 Hrows)|].
  split; [reflexivity|]. split; [exact Hn|]. split; [reflexivity|].
  split; [exact run_011x_ordered|]. split; [exact Hfit|].
  split; [now left|]. split; [exact Hw|].
  split; [exact Hr|]. split; [reflexivity|].
  exact (enumeration_is_exhaustive keep keep_from
           (order_first_two 2 (valued_rows (tt_of "011-") 2))
           search_solve bits_weight 7
           (tt_of "011-") enumerate 2 _ _
           search_solve_sound search_solve_complete
           (order_first_two_sound _ _ _)
           (order_first_two_keeps_a_reordering _ _ Hn0 Hrows)
           eq_refl Hn eq_refl run_011x_ordered Hfit
           [kitty.mk_cube 0 0; kitty.mk_cube 0 3]
           [kitty.mk_cube 2 3; kitty.mk_cube 1 1]
           (or_introl eq_refl) Hw Hr eq_refl).
Defined.
